(** * Rule-tree synchronisation and activation engine of
      akamai-edge-grid-property (src/index.js), embedded in Rocq.

    The development has three parts:
    - [JS]: the few pieces of JavaScript the engine leans on (scalar values,
      truthiness, string search, the regular expressions of the source written
      out as functions);
    - [Reconcile]: [EdgeGridProperty.mergeAdvancedUUIDRules] over rule trees
      whose nodes are objects with an identity, the [uuid] members living in a
      store that the function mutates in place;
    - [Engine]: the lookup cache ([_getProperty]) and the activation state
      machine ([_activateProperty], [_deactivateProperty], [_pollActivation],
      [activate], [deactivate]) as a state monad over the engine instance, the
      property records it shares with its callers, and a scripted remote
      service.

    [ReconcileMore], [EngineMore] and the theories [ReconcileExtras] and
    [EngineExtras] carry the development further: what [search] collects and
    when the reconciliation returns, the lookups that find nothing or fail,
    the rule formats, the version pointers of a record, and the helpers
    [_getConfigAndHostname], [_getContractAndGroup], [_getGroupList],
    [lookupPropertyIdFromHost] and [promoteStagingToProd]. *)

From stdpp Require Import gmap strings list fin_maps pretty.
From Stdlib Require Import ZArith Ascii.

Set Warnings "-clear-no-such-hyp,-register-all".

(** ** JavaScript values and string primitives *)

Module JS.

(** Scalar values as they occur in parsed JSON and in member reads;
    [VUndefined] is what reading an absent member gives. *)
Inductive value :=
| VUndefined
| VNull
| VBool (b : bool)
| VNum (n : Z)
| VStr (s : string).

#[global] Instance value_eq_dec : EqDecision value.
Proof. solve_decision. Defined.

(** ToBoolean. *)
Definition truthy (v : value) : bool :=
  match v with
  | VUndefined | VNull => false
  | VBool b => b
  | VNum n => negb (n =? 0)%Z
  | VStr s => negb (String.eqb s "")
  end.

(** ToString, as template literals and ['' + v] apply it. *)
Definition to_string (v : value) : string :=
  match v with
  | VUndefined => "undefined"
  | VNull => "null"
  | VBool true => "true"
  | VBool false => "false"
  | VNum n => pretty n
  | VStr s => s
  end.

(** [a || b]. *)
Definition or_else (a b : value) : value := if truthy a then a else b.

(** [s.includes(t)], and [s.match(t)] being non-null for a pattern [t] made of
    literal characters only: [t] occurs in [s]. *)
Fixpoint includes (s t : string) : bool :=
  String.prefix t s ||
  match s with
  | EmptyString => false
  | String _ s' => includes s' t
  end.

(** Character classes of the regular expressions of the source, on code
    units (a string of the model is a string of code units below 256). *)
Definition code (c : ascii) : nat := nat_of_ascii c.

Definition is_digit (c : ascii) : bool := (48 <=? code c)%nat && (code c <=? 57)%nat.
Definition is_upper (c : ascii) : bool := (65 <=? code c)%nat && (code c <=? 90)%nat.
Definition is_lower (c : ascii) : bool := (97 <=? code c)%nat && (code c <=? 122)%nat.

(** [\w]: letters, digits and the underscore. *)
Definition is_word (c : ascii) : bool :=
  is_upper c || is_lower c || is_digit c || (code c =? 95)%nat.

(** [[a-z0-9_]]. *)
Definition is_id (c : ascii) : bool :=
  is_lower c || is_digit c || (code c =? 95)%nat.

(** [s.replace(/[^\w.-]/gi, '_')]: every code unit that is not a word
    character, a dot or a hyphen becomes an underscore. *)
Definition sanitize_unit (c : ascii) : ascii :=
  if is_word c || (code c =? 46)%nat || (code c =? 45)%nat then c else "_"%char.

Fixpoint sanitize (s : string) : string :=
  match s with
  | EmptyString => EmptyString
  | String c s' => String (sanitize_unit c) (sanitize s')
  end.

(** The longest prefix of [s] made of [[a-z0-9_]], and what follows it. *)
Fixpoint span_id (s : string) : string * string :=
  match s with
  | EmptyString => (EmptyString, EmptyString)
  | String c s' =>
      if is_id c then let '(run, rest) := span_id s' in (String c run, rest)
      else (EmptyString, s)
  end.

(** [s] without the prefix [p], when it starts with [p]. *)
Fixpoint strip_prefix (p s : string) : option string :=
  match p, s with
  | EmptyString, _ => Some s
  | String a p', String b s' => if Ascii.eqb a b then strip_prefix p' s' else None
  | String _ _, EmptyString => None
  end.

(** Group 1 of [s.match('activations/([a-z0-9_]+)\\b')], [None] for no
    match.  At the first place where "activations/" is followed by a non-empty
    run of [[a-z0-9_]] that ends at a word boundary, the group is the whole
    run: the run is greedy, it ends on a word character, and what follows it
    is the end of the string or a character outside [[a-z0-9_]], which breaks
    the boundary exactly when it is a capital letter (then no shorter run
    ends at a boundary either, and the search moves on). *)
Fixpoint activation_id (s : string) : option string :=
  let here :=
    match strip_prefix "activations/" s with
    | Some rest =>
        let '(run, tail) := span_id rest in
        match run, tail with
        | EmptyString, _ => None
        | _, EmptyString => Some run
        | _, String c _ => if is_upper c then None else Some run
        end
    | None => None
    end in
  match here, s with
  | Some run, _ => Some run
  | None, EmptyString => None
  | None, String _ s' => activation_id s'
  end.

(** [array.sort()] on strings: ascending order of code units. *)
Fixpoint insert_sorted (x : string) (l : list string) : list string :=
  match l with
  | [] => [x]
  | y :: l' => if String.leb x y then x :: l else y :: insert_sorted x l'
  end.

Definition sort (l : list string) : list string := foldr insert_sorted [] l.

End JS.

(** ** Reconciliation of advanced metadata: [mergeAdvancedUUIDRules] *)

Module Reconcile.
Import JS.

(** Identity of a JavaScript object (a rule node or a directive). *)
Definition ref := nat.

(** The [uuid] member of every object, by identity.  It is the only member
    [mergeAdvancedUUIDRules] assigns (lines 1378 and 1381 of the source), so
    the rest of a tree is kept as an immutable shape around the identities.
    An object without entry has no [uuid] member. *)
Abbreviation store := (gmap ref value).

Definition uuid_of (st : store) (o : ref) : value := default VUndefined (st !! o).
Definition set_uuid (st : store) (o : ref) (v : value) : store := <[o := v]> st.

(** [advNode.options], restricted to the members the function reads. *)
Record advanced_options := AdvancedOptions {
  xml : value;
  openXml : value;
  closeXml : value;
}.

(** A behavior or a criterion. *)
Record directive := Directive {
  d_ref : ref;
  name : string;
  options : advanced_options;
}.

(** A rule node.  [criteria] and [children] may be absent ([None]): the source
    guards both ([advNode && ...] after [concat], [if (ruleNode.children)]). *)
Inductive rule := Rule {
  r_ref : ref;
  behaviors : list directive;
  criteria : option (list directive);
  children : option (list rule);
}.

(** [foundNode] of the source.  [parentRules] holds the identities of the
    enclosing rule objects, the only thing the function uses of them. *)
Record foundNode := FoundNode {
  fn_uuid : value;
  fn_xml : value;
  advNode : directive;
  parentRules : list ref;
  fn_md5 : string;
}.

(** The object [found]: digest to array of entries, keys in insertion order
    (a digest is 32 hexadecimal digits, hence neither an array index nor a
    member inherited from Object.prototype). *)
Definition found_t := list (string * list foundNode).

Fixpoint found_get (found : found_t) (key : string) : option (list foundNode) :=
  match found with
  | [] => None
  | (k, l) :: rest => if decide (k = key) then Some l else found_get rest key
  end.

(** [found[key] = l]: in place for a key that exists, appended otherwise. *)
Fixpoint found_set (found : found_t) (key : string) (l : list foundNode) : found_t :=
  match found with
  | [] => [(key, l)]
  | (k, l0) :: rest =>
      if decide (k = key) then (k, l) :: rest else (k, l0) :: found_set rest key l
  end.

(** [if (!found[md5]) found[md5] = []; found[md5].push(node)]. *)
Definition found_push (found : found_t) (key : string) (node : foundNode) : found_t :=
  match found_get found key with
  | None => found_set found key [node]
  | Some l => found_set found key (l ++ [node])
  end.

(** All entries of [found], group after group. *)
Definition entries (found : found_t) : list foundNode := mjoin (map snd found).

(** [advNode.options.xml || '' + advNode.options.openXml || '' +
    advNode.options.closeXml || '']: [+] binds tighter than [||], so this is
    [xml || ('' + openXml) || ('' + closeXml) || ''], and [ '' + v ] is the
    string form of [v]. *)
Definition payload (o : advanced_options) : value :=
  or_else (or_else (or_else (xml o) (VStr (to_string (openXml o))))
                   (VStr (to_string (closeXml o))))
          (VStr "").

(** [advNode.name === 'advanced' || advNode.name === 'matchAdvanced']. *)
Definition is_advanced (d : directive) : bool :=
  bool_decide (name d = "advanced") || bool_decide (name d = "matchAdvanced").

(** [ruleNode.uuid !== 'default' ? parentRules.concat([ruleNode]) : parentRules]. *)
Definition extend_parents (st : store) (node : ref) (parentRules : list ref) : list ref :=
  if decide (uuid_of st node = VStr "default") then parentRules else parentRules ++ [node].

(** [array.forEach(f)] where [f] may throw: the state is threaded through the
    calls and the first exception ends the loop. *)
Fixpoint forEach {A S E : Type} (f : S → A → S + E) (s : S) (l : list A) : S + E :=
  match l with
  | [] => inl s
  | x :: l' =>
      match f s x with
      | inl s' => forEach f s' l'
      | inr e => inr e
      end
  end.

(** How a call ends: the store it leaves, and the value returned or the
    message of the [Error] thrown. *)
Inductive completion :=
| Return (st : store) (rules : rule)
| Throw (st : store) (message : string).

(** Message of the [Error] thrown for an entry without counterpart. *)
Definition UnmatchedAdvancedMetadata (x : value) : string :=
  "Cannot find Advanced Metadata in the destination rules. For safety, the Advanced behavior has to have been previously pushed on the destination config: "
  +:+ to_string x.

(** [for (let i = 0; i < newAdvObject.parentRules.length; i++)
       newAdvObject.parentRules[i].uuid = oldAdvObject.parentRules[i].uuid;]
    The two chains have the same length where the loop runs ([find] tested
    it), so the loop is a walk down both. *)
Fixpoint copy_chain (st : store) (news olds : list ref) : store :=
  match news, olds with
  | n :: news', o :: olds' => copy_chain (set_uuid st n (uuid_of st o)) news' olds'
  | _, _ => st
  end.

(** Body of [newAdvMtdBehaviors[key].forEach(newAdvObject => ...)].  Each
    [foundNode] is an object of its own, so [filter(x => x != oldAdvObject)]
    drops exactly the element [find] returned: the one at its index. *)
Definition reconcile (key : string) (s : store * found_t) (newAdvObject : foundNode)
    : store * found_t + store * string :=
  let '(st, oldAdvMtdBehaviors) := s in
  let oldAdvObjectList := default [] (found_get oldAdvMtdBehaviors key) in
  match list_find (λ x, length (parentRules newAdvObject) = length (parentRules x))
                  oldAdvObjectList with
  | Some (i, oldAdvObject) =>
      let st := copy_chain st (parentRules newAdvObject) (parentRules oldAdvObject) in
      let st := set_uuid st (d_ref (advNode newAdvObject))
                         (uuid_of st (d_ref (advNode oldAdvObject))) in
      inl (st, found_set oldAdvMtdBehaviors key (delete i oldAdvObjectList))
  | None => inr (st, UnmatchedAdvancedMetadata (fn_xml newAdvObject))
  end.

(** [Object.keys(newAdvMtdBehaviors).forEach(key =>
       newAdvMtdBehaviors[key].forEach(newAdvObject => ...))]. *)
Definition reconcile_all (s : store * found_t) (newAdvMtdBehaviors : found_t)
    : store * found_t + store * string :=
  forEach (λ s '(key, group), forEach (reconcile key) s group) s newAdvMtdBehaviors.

Section WithDigest.

(** The [md5] package, applied to the payload. *)
Variable md5 : value → string.

(** Body of [nodeList.forEach(advNode => ...)]. *)
Definition visit (st : store) (node : ref) (parents : list ref)
    (found : found_t) (d : directive) : found_t :=
  if is_advanced d then
    let x := payload (options d) in
    let newParentRules := extend_parents st node parents in
    let hash := md5 x in
    found_push found hash
      {| fn_uuid := uuid_of st (d_ref d);
         fn_xml := x;
         advNode := d;
         parentRules := newParentRules;
         fn_md5 := hash |}
  else found.

(** [search(ruleNode, parentRules, found)]: directives of the node
    ([behaviors.concat(criteria)]) first, then the children in order. *)
Fixpoint search (st : store) (ruleNode : rule) (parents : list ref)
    (found : found_t) : found_t :=
  match ruleNode with
  | Rule node bs cs kids =>
      let nodeList := bs ++ default [] cs in
      let found := foldl (visit st node parents) found nodeList in
      match kids with
      | Some kids =>
          let newParentRules := extend_parents st node parents in
          foldl (fun found childRule => search st childRule newParentRules found)
                found kids
      | None => found
      end
  end.

(** [static mergeAdvancedUUIDRules(oldRules, newRules)]. *)
Definition mergeAdvancedUUIDRules (st : store) (oldRules newRules : rule) : completion :=
  let oldAdvMtdBehaviors := search st oldRules [] [] in
  let newAdvMtdBehaviors := search st newRules [] [] in
  match reconcile_all (st, oldAdvMtdBehaviors) newAdvMtdBehaviors with
  | inl (st', _) => Return st' newRules
  | inr (st', message) => Throw st' message
  end.

End WithDigest.

(** *** Vocabulary of the statements *)

(** No [advanced]/[matchAdvanced] directive anywhere in the tree. *)
Fixpoint no_advanced (t : rule) : bool :=
  match t with
  | Rule _ bs cs kids =>
      forallb (λ d, negb (is_advanced d)) (bs ++ default [] cs)
      && match kids with
         | Some kids => forallb no_advanced kids
         | None => true
         end
  end.

(** The rule nodes of a tree, root first. *)
Fixpoint rule_objects (t : rule) : list ref :=
  match t with
  | Rule node _ _ kids =>
      node :: match kids with
              | Some kids => kids ≫= rule_objects
              | None => []
              end
  end.

(** The directives (behaviors and criteria) of a tree. *)
Fixpoint directive_objects (t : rule) : list ref :=
  match t with
  | Rule _ bs cs kids =>
      (d_ref <$> bs ++ default [] cs)
      ++ match kids with
         | Some kids => kids ≫= directive_objects
         | None => []
         end
  end.

(** The objects a tree is made of. *)
Definition objects (t : rule) : list ref := rule_objects t ++ directive_objects t.

(** The objects an entry refers to: its directive and its ancestor chain. *)
Definition entry_objects (e : foundNode) : list ref :=
  d_ref (advNode e) :: parentRules e.

(** Number of entries of the group [key] whose ancestor chain has length [n]. *)
Definition candidates (key : string) (n : nat) (found : found_t) : nat :=
  length (filter (λ x, length (parentRules x) = n) (default [] (found_get found key))).

(** The entry [search] builds for an advanced directive [d] of the rule
    [node], reached with the ancestor chain [parents]. *)
Definition entry_of (md5 : value → string) (st : store) (node : ref)
    (parents : list ref) (d : directive) : foundNode :=
  {| fn_uuid := uuid_of st (d_ref d);
     fn_xml := payload (options d);
     advNode := d;
     parentRules := extend_parents st node parents;
     fn_md5 := md5 (payload (options d)) |}.

(** Filing an entry under its digest. *)
Definition file_entry (found : found_t) (e : foundNode) : found_t :=
  found_push found (fn_md5 e) e.

(** The entries of a tree in the order [search] meets them, before they are
    grouped by digest. *)
Fixpoint collect (md5 : value → string) (st : store) (t : rule)
    (parents : list ref) : list foundNode :=
  match t with
  | Rule node bs cs kids =>
      (entry_of md5 st node parents
         <$> filter (λ d, is_advanced d) (bs ++ default [] cs))
      ++ match kids with
         | Some kids => kids ≫= (λ k, collect md5 st k (extend_parents st node parents))
         | None => []
         end
  end.

(** The entries of a table, each with the key of its group, in the order
    the two nested [forEach] of the source visit them. *)
Definition keyed_entries (found : found_t) : list (string * foundNode) :=
  found ≫= (λ '(key, group), pair key <$> group).

(** [st'] holds no [uuid] of its own making: every object carries the [uuid]
    it had in [st], or the [uuid] one of the objects [olds] had in [st]. *)
Definition copied_from (st : store) (olds : list ref) (st' : store) : Prop :=
  ∀ o, uuid_of st' o = uuid_of st o ∨ ∃ o', o' ∈ olds ∧ uuid_of st' o = uuid_of st o'.

(** [st'] differs from [st] at most on the objects [written]. *)
Definition same_outside (written : list ref) (st st' : store) : Prop :=
  ∀ o, o ∉ written → st' !! o = st !! o.

(** Every entry sits in the group of its own digest. *)
Definition keyed (found : found_t) : Prop :=
  ∀ key l e, (key, l) ∈ found → e ∈ l → fn_md5 e = key.

(** The working copy [old] of the old table holds only entries of [initial],
    each still in the group of its digest. *)
Definition remaining (initial : list foundNode) (old : found_t) : Prop :=
  ∀ key l eo, found_get old key = Some l → eo ∈ l → eo ∈ initial ∧ fn_md5 eo = key.

(** A tree and the trees below it, a tree before its children. *)
Fixpoint subtrees (t : rule) : list rule :=
  match t with
  | Rule _ _ _ kids =>
      t :: match kids with
           | Some kids => kids ≫= subtrees
           | None => []
           end
  end.


(** The content of an opaque payload in the words of the specification:
    [xml], [openXml] and [closeXml] one after the other, an absent field
    counting for the empty string.  The code hashes [payload] instead. *)
Definition field_content (v : value) : string :=
  match v with
  | VUndefined | VNull => ""
  | v => to_string v
  end.

Definition content (o : advanced_options) : string :=
  field_content (xml o) +:+ field_content (openXml o) +:+ field_content (closeXml o).

(** Body of the two nested loops, on an entry paired with its key. *)
Definition step (s : store * found_t) (x : string * foundNode)
    : store * found_t + store * string :=
  reconcile x.1 s x.2.

End Reconcile.

(** ** Sample trees *)

Module ReconcileExamples.
Import JS Reconcile.

(** A stand-in for the digest in the examples (the theorems hold for every
    digest function): the string form of the payload itself. *)
Definition plain_digest : value → string := to_string.

Definition advanced (o : ref) (x : string) : directive :=
  Directive o "advanced" (AdvancedOptions (VStr x) VUndefined VUndefined).

Definition caching (o : ref) : directive :=
  Directive o "caching" (AdvancedOptions VUndefined VUndefined VUndefined).

(** Old tree: default rule 1 > rule 2 > rule 3, which holds the advanced
    behavior 4. *)
Definition old_tree : rule :=
  Rule 1 [caching 5] None
    (Some [Rule 2 [] (Some []) (Some [Rule 3 [advanced 4 "<a/>"] None None])]).

(** New tree of the same shape, made of other objects. *)
Definition new_tree : rule :=
  Rule 11 [caching 15] None
    (Some [Rule 12 [] (Some []) (Some [Rule 13 [advanced 14 "<a/>"] None None])]).

(** New tree whose advanced behavior the old tree has never seen. *)
Definition unseen_tree : rule :=
  Rule 11 [caching 15] None
    (Some [Rule 12 [] (Some []) (Some [Rule 13 [advanced 14 "<b/>"] None None])]).

(** Trees without advanced metadata. *)
Definition plain_old : rule :=
  Rule 1 [caching 5] (Some []) (Some [Rule 2 [caching 6] None None]).
Definition plain_new : rule :=
  Rule 11 [caching 15] (Some []) (Some [Rule 12 [] None (Some [])]).

(** The entries [search] finds in the three trees above. *)
Definition old_entry (st : store) : foundNode :=
  entry_of plain_digest st 3 [2] (advanced 4 "<a/>").
Definition new_entry (st : store) : foundNode :=
  entry_of plain_digest st 13 [12] (advanced 14 "<a/>").
Definition unseen_entry (st : store) : foundNode :=
  entry_of plain_digest st 13 [12] (advanced 14 "<b/>").

Definition sample_store : store :=
  {[ 1 := VStr "default"; 2 := VStr "u2"; 3 := VStr "u3"; 4 := VStr "u4";
     11 := VStr "default"; 12 := VStr "n12"; 14 := VStr "n14" ]}.

(** The store after the reconciliation of [new_tree] against [old_tree]. *)
Definition merged_store : store :=
  <[14 := VStr "u4"]> (<[13 := VStr "u3"]> (<[12 := VStr "u2"]> sample_store)).

(** Two advanced behaviors with the same [xml] and different [openXml]. *)
Definition twin_tree : rule :=
  Rule 1
    [ Directive 2 "advanced" (AdvancedOptions (VStr "<a/>") (VStr "<b>") VUndefined);
      Directive 3 "advanced" (AdvancedOptions (VStr "<a/>") (VStr "<c>") VUndefined) ]
    None None.

(** Two trees of the shape of [old_tree], each with one [matchAdvanced]
    criterion under one ancestor, whose payloads open alike and close
    differently. *)
Definition match_advanced (o : ref) (opening closing : string) : directive :=
  Directive o "matchAdvanced" (AdvancedOptions VUndefined (VStr opening) (VStr closing)).

Definition old_match_tree : rule :=
  Rule 1 [caching 5] None
    (Some [Rule 2 [] (Some [match_advanced 4 "<m>" "</m>"]) None]).

Definition new_match_tree : rule :=
  Rule 11 [caching 15] None
    (Some [Rule 12 [] (Some [match_advanced 14 "<m>" "</n>"]) None]).

(** The store after the reconciliation of [new_match_tree] against
    [old_match_tree]. *)
Definition merged_match_store : store :=
  <[14 := VStr "u4"]> (<[12 := VStr "u2"]> sample_store).



End ReconcileExamples.

(** ** The engine: lookup cache and activation state machine *)

Module Engine.
Import JS.

(** *** Objects, records and the remote service *)

(** Identity of an object a lookup resolves to: a property record, or a
    member every plain object inherits from Object.prototype, which
    [this._propertyById[key]] gives for a key such as "constructor". *)
Inductive obj :=
| Own (o : nat)
| Inherited (member : string).

#[global] Instance obj_eq_dec : EqDecision obj.
Proof. solve_decision. Defined.

#[global] Instance obj_countable : Countable obj :=
  inj_countable'
    (λ o, match o with Own n => inl n | Inherited k => inr k end)
    (λ x, match x with inl n => Own n | inr k => Inherited k end)
    (λ o, match o with Own _ => eq_refl | Inherited _ => eq_refl end).

(** The members of Object.prototype. *)
Definition Object_prototype : list string :=
  [ "constructor"; "__defineGetter__"; "__defineSetter__"; "hasOwnProperty";
    "__lookupGetter__"; "__lookupSetter__"; "isPrototypeOf";
    "propertyIsEnumerable"; "toString"; "valueOf"; "__proto__";
    "toLocaleString" ].

(** The scalar members of a record object. *)
Abbreviation record := (gmap string value).

(** An entry of [_propertyByHost]. *)
Record host := Host {
  staging : option obj;
  production : option obj;
}.

(** What the engine reads of a parsed response body; [None] and
    [VUndefined] stand for an absent member.  [activations_items] is
    [activations.items] with the [status] of each item, [versions_items] is
    [versions.items], and so on. *)
Record warning := Warning {
  detail : value;
  messageId : value;
}.

Record version_item := VersionItem {
  vi_propertyId : value;
  vi_groupId : value;
  vi_contractId : value;
}.

Record body := Body {
  type : value;
  warnings : option (list warning);
  activationLink : value;
  activations_items : option (list value);
  ruleFormats_items : option (list string);
  versions_items : option (list version_item);
  properties_items : option (list record);
}.

Definition empty_body : body :=
  Body VUndefined None VUndefined None None None None.

(** A response of the signed-HTTP client: [text] is [response.body], [json]
    what [JSON.parse(response.body)] gives, [None] when it throws. *)
Record response := Response {
  statusCode : Z;
  content_type : option string;
  text : string;
  json : option body;
}.

(** The body of a request.  The constant members of the source
    ([complianceRecord], and [activationType: 'DEACTIVATE'] of a deactivation)
    are left out. *)
Inductive request_body :=
| NoBody
| ActivationData (propertyVersion network : value) (note : string)
    (notifyEmails : list string) (acknowledgeWarnings : list value)
| DeactivationData (propertyVersion network : value) (notifyEmails : list string)
| SearchQuery (field value_ : string).

Record request := Request {
  method : string;
  path : string;
  req_body : request_body;
}.

(** The engine instance, the objects it shares with its callers, and the
    world around it: the answers the remote service will give, in order
    ([None]: no response, the callback gets [undefined]), the requests sent so
    far, and the time in milliseconds. *)
Record world := World {
  heap : gmap obj record;
  next : nat;
  _propertyById : gmap string obj;
  _propertyByName : gmap string obj;
  _propertyByHost : gmap string host;
  _initComplete : bool;
  _newestRulesFormat : value;
  script : list (option response);
  sent : list request;
  clock : Z;
}.

Definition set_heap (h : gmap obj record) (w : world) : world :=
  World h (next w) (_propertyById w) (_propertyByName w) (_propertyByHost w)
        (_initComplete w) (_newestRulesFormat w) (script w) (sent w) (clock w).
Definition set_next (n : nat) (w : world) : world :=
  World (heap w) n (_propertyById w) (_propertyByName w) (_propertyByHost w)
        (_initComplete w) (_newestRulesFormat w) (script w) (sent w) (clock w).
Definition set_propertyById (m : gmap string obj) (w : world) : world :=
  World (heap w) (next w) m (_propertyByName w) (_propertyByHost w)
        (_initComplete w) (_newestRulesFormat w) (script w) (sent w) (clock w).
Definition set_propertyByName (m : gmap string obj) (w : world) : world :=
  World (heap w) (next w) (_propertyById w) m (_propertyByHost w)
        (_initComplete w) (_newestRulesFormat w) (script w) (sent w) (clock w).
Definition set_initComplete (b : bool) (w : world) : world :=
  World (heap w) (next w) (_propertyById w) (_propertyByName w) (_propertyByHost w)
        b (_newestRulesFormat w) (script w) (sent w) (clock w).
Definition set_newestRulesFormat (v : value) (w : world) : world :=
  World (heap w) (next w) (_propertyById w) (_propertyByName w) (_propertyByHost w)
        (_initComplete w) v (script w) (sent w) (clock w).
Definition set_script (l : list (option response)) (w : world) : world :=
  World (heap w) (next w) (_propertyById w) (_propertyByName w) (_propertyByHost w)
        (_initComplete w) (_newestRulesFormat w) l (sent w) (clock w).
Definition set_sent (l : list request) (w : world) : world :=
  World (heap w) (next w) (_propertyById w) (_propertyByName w) (_propertyByHost w)
        (_initComplete w) (_newestRulesFormat w) (script w) l (clock w).
Definition set_clock (t : Z) (w : world) : world :=
  World (heap w) (next w) (_propertyById w) (_propertyByName w) (_propertyByHost w)
        (_initComplete w) (_newestRulesFormat w) (script w) (sent w) t.

(** [o.k]. *)
Definition member (w : world) (o : obj) (k : string) : value :=
  default VUndefined (heap w !! o ≫= (.!! k)).

(** [o.k = v]. *)
Definition set_member (o : obj) (k : string) (v : value) (w : world) : world :=
  set_heap (<[o := <[k := v]> (default ∅ (heap w !! o))]> (heap w)) w.

(** [m[k]] for a plain object [m] used as a map: an own member, or else a
    member of Object.prototype. *)
Definition lookup_member (m : gmap string obj) (k : string) : option obj :=
  match m !! k with
  | Some o => Some o
  | None => if decide (k ∈ Object_prototype) then Some (Inherited k) else None
  end.

(** *** Promises *)

(** What a promise is rejected with, or what is thrown. *)
Inductive reason :=
| Value (v : value)
| TypeError
| SyntaxError
| OfResponse (r : option response)
| OfBody (b : body).

(** How a call ends.  [Thrown]: the call throws before it returns a promise.
    [Uncaught]: a callback of [send] throws, the promise stays pending.
    [Pending]: the promise stays pending, the remote service having nothing
    more to say or the callback settling nothing.  [OutOfFuel] belongs to the
    model alone: the budget of recursive calls is spent. *)
Inductive outcome (A : Type) :=
| Resolved (a : A)
| Rejected (e : reason)
| Thrown (e : reason)
| Uncaught (e : reason)
| Pending
| OutOfFuel.
Arguments Resolved {A} a.
Arguments Rejected {A} e.
Arguments Thrown {A} e.
Arguments Uncaught {A} e.
Arguments Pending {A}.
Arguments OutOfFuel {A}.

Definition M (A : Type) : Type := world → outcome A * world.

Definition resolve {A} (a : A) : M A := λ w, (Resolved a, w).
Definition reject {A} (e : reason) : M A := λ w, (Rejected e, w).
Definition throw {A} (e : reason) : M A := λ w, (Thrown e, w).

(** [p.then(f)]: [f] runs on the value [p] resolves to, and what [f] throws
    rejects the promise [then] returns. *)
Definition then_ {A B} (p : M A) (f : A → M B) : M B :=
  λ w,
    match p w with
    | (Resolved a, w') =>
        match f a w' with
        | (Thrown e, w'') => (Rejected e, w'')
        | r => r
        end
    | (Rejected e, w') => (Rejected e, w')
    | (Thrown e, w') => (Thrown e, w')
    | (Uncaught e, w') => (Uncaught e, w')
    | (Pending, w') => (Pending, w')
    | (OutOfFuel, w') => (OutOfFuel, w')
    end.

Notation "p '.then' f" := (then_ p f) (at level 61, left associativity, only parsing).

(** [new Promise((resolve, reject) => { ...; this._edge.auth(request);
    this._edge.send(callback) })]: the request is sent, and the callback
    settles the promise (or throws) on the next answer of the script. *)
Definition send {A} (request : request) (callback : option response → outcome A)
    : M A :=
  λ w,
    let w := set_sent (sent w ++ [request]) w in
    match script w with
    | [] => (Pending, w)
    | answer :: rest => (callback answer, set_script rest w)
    end.

(** [sleep(ms)]. *)
Definition sleep (ms : Z) : M unit :=
  λ w, (Resolved tt, set_clock (clock w + ms)%Z w).

(** [response.statusCode >= lo && response.statusCode < hi]. *)
Definition status_in (lo hi : Z) (r : response) : bool :=
  (lo <=? statusCode r)%Z && (statusCode r <? hi)%Z.

(** What a caller hands over as [propertyLookup]: a name, an id or a host
    name, or a property record. *)
Inductive lookup :=
| LStr (s : string)
| LObj (o : obj).

(** The [email] argument: an array of addresses, or one address. *)
Inductive emails :=
| Addresses (l : list string)
| Address (s : string).

Section WithConstants.

(** The constants of the module [./const], which is not among the sources:
    the three members of [LATEST_VERSION], numbers that stand for "the
    version on staging", "on production" and "the latest", and
    [AKAMAI_ENV.STAGING]. *)
Variables LATEST_VERSION_STAGING LATEST_VERSION_PRODUCTION LATEST_VERSION_LATEST : Z.
Variable AKAMAI_ENV_STAGING : string.

(** *** Rule formats and [_init] *)

(** [_retrieveFormats()]. *)
Definition _retrieveFormats : M body :=
  send (Request "GET" "/papi/v1/rule-formats" NoBody)
    (λ response,
       match response with
       | None => Uncaught TypeError
       | Some r =>
           if status_in 200 400 r then
             match json r with
             | Some parsed => Resolved parsed
             | None => Uncaught SyntaxError
             end
           else Rejected (OfResponse response)
       end).

(** [retrieveFormats(true)]: the greatest rule format that contains "v2",
    [undefined] when there is none. *)
Definition retrieveFormats_latest : M value :=
  _retrieveFormats
  .then (λ result,
     match ruleFormats_items result with
     | None => throw TypeError
     | Some items =>
         let items := reverse (sort items) in
         resolve (from_option VStr VUndefined
                    (head (filter (λ rule, includes rule "v2" = true) items)))
     end).

(** [_init()]. *)
Definition _init : M unit :=
  λ w,
    if _initComplete w then resolve tt w
    else if (0 <? size (_propertyById w))%nat
    then resolve tt (set_initComplete true w)
    else (retrieveFormats_latest
          .then (λ format w, resolve tt (set_newestRulesFormat format w))) w.

(** *** Search by value and [_findProperty] *)

(** [_searchByValue({field: v})]. *)
Definition _searchByValue (field v : string) : M body :=
  send (Request "POST" "/papi/v1/search/find-by-value" (SearchQuery field v))
    (λ response,
       match response with
       | Some r =>
           if status_in 200 400 r then
             match json r with
             | Some parsed => Resolved parsed
             | None => Uncaught SyntaxError
             end
           else Rejected (OfResponse response)
       | None => Rejected (OfResponse response)
       end).

(** [_getPropertyMetadata(propertyId, groupId, contractId)]: the first item of
    [properties.items], [undefined] when there is none; on any other answer
    the callback settles nothing. *)
Definition _getPropertyMetadata (propertyId groupId contractId : value)
    : M (option record) :=
  send (Request "GET"
          ("/papi/v1/properties/" +:+ to_string propertyId
           +:+ "?contractId=" +:+ to_string contractId
           +:+ "&groupId=" +:+ to_string groupId) NoBody)
    (λ response,
       match response with
       | Some r =>
           if status_in 200 400 r then
             match json r with
             | Some parsed =>
                 match properties_items parsed with
                 | Some items => Resolved (head items)
                 | None => Uncaught TypeError
                 end
             | None => Uncaught SyntaxError
             end
           else Pending
       | None => Pending
       end).

(** [data.versions.items.length > 0], [None] when [data.versions] is absent
    (the read throws a TypeError). *)
Definition has_versions (data : body) : option bool :=
  (λ items, (0 <? length items)%nat) <$> versions_items data.

(** The last step of [_findProperty]: the record found becomes an object of
    its own, filed under its name and under its id. *)
Definition cache_property (property : record) : M (option obj) :=
  λ w,
    let o := Own (next w) in
    let w := set_next (S (next w)) (set_heap (<[o := property]> (heap w)) w) in
    let w := set_propertyByName
               (<[to_string (default VUndefined (property !! "propertyName")) := o]>
                  (_propertyByName w)) w in
    let w := set_propertyById
               (<[to_string (default VUndefined (property !! "propertyId")) := o]>
                  (_propertyById w)) w in
    resolve (Some o) w.

(** [_findProperty(propertyLookup)]: search by property name, then by host
    name, then by edge host name, and fetch the first hit. *)
Definition _findProperty (propertyLookup : string) : M (option obj) :=
  _searchByValue "propertyName" propertyLookup
  .then (λ data,
     match has_versions data with
     | None => throw TypeError
     | Some false => resolve None
     | Some true => resolve (Some data)
     end)
  .then (λ data,
     match data with
     | Some d =>
         match has_versions d with
         | Some true => resolve (Some d)
         | _ => _searchByValue "hostname" propertyLookup .then (λ d, resolve (Some d))
         end
     | None => _searchByValue "hostname" propertyLookup .then (λ d, resolve (Some d))
     end)
  .then (λ data,
     match data with
     | Some d =>
         match has_versions d with
         | None => throw TypeError
         | Some true => resolve (Some d)
         | Some false =>
             _searchByValue "edgeHostname" propertyLookup .then (λ d, resolve (Some d))
         end
     | None =>
         _searchByValue "edgeHostname" propertyLookup .then (λ d, resolve (Some d))
     end)
  .then (λ data,
     match data with
     | Some d =>
         match versions_items d with
         | None => throw TypeError
         | Some [] => resolve None
         | Some (item :: _) =>
             _getPropertyMetadata (vi_propertyId item) (vi_groupId item)
                                  (vi_contractId item)
         end
     | None => resolve None
     end)
  .then (λ property,
     match property with
     | None => resolve None
     | Some property => cache_property property
     end).

(** *** [_getProperty] *)

(** [this._propertyById[key] || this._propertyByName[key]], and failing
    both the staging or production side of [this._propertyByHost[key]]. *)
Definition cached (w : world) (key : string) (hostnameEnvironment : Z) : option obj :=
  match lookup_member (_propertyById w) key with
  | Some prop => Some prop
  | None =>
      match lookup_member (_propertyByName w) key with
      | Some prop => Some prop
      | None =>
          match _propertyByHost w !! key with
          | Some host =>
              if (hostnameEnvironment =? LATEST_VERSION_STAGING)%Z
              then staging host else production host
          | None => None
          end
      end
  end.

(** [_getProperty(propertyLookup, hostnameEnvironment)].  A record with
    truthy [groupId], [propertyId] and [contractId] is handed back; any other
    object has no [replace] method, and the call throws a TypeError. *)
Definition _getProperty (propertyLookup : lookup) (hostnameEnvironment : Z) : M obj :=
  match propertyLookup with
  | LObj o =>
      λ w,
        if truthy (member w o "groupId") && truthy (member w o "propertyId")
           && truthy (member w o "contractId")
        then resolve o w
        else throw TypeError w
  | LStr s =>
      let propertyLookup := sanitize s in
      _init
      .then (λ _ w,
         match cached w propertyLookup hostnameEnvironment with
         | Some prop => resolve (Some prop) w
         | None =>
             if includes propertyLookup "prp_"
             then _findProperty propertyLookup w
             else resolve None w
         end)
      .then (λ prop w,
         match prop with
         | Some prop => resolve prop w
         | None =>
             match cached w propertyLookup hostnameEnvironment with
             | Some prop => resolve prop w
             | None =>
                 reject (Value (VStr ("Cannot find property:  " +:+ propertyLookup))) w
             end
         end)
  end.

(** [_getLatestVersion(property, env)]. *)
Definition _getLatestVersion (w : world) (property : obj) (env : Z) : value :=
  if (env =? LATEST_VERSION_PRODUCTION)%Z then member w property "productionVersion"
  else if (env =? LATEST_VERSION_STAGING)%Z then member w property "stagingVersion"
  else if (env =? LATEST_VERSION_LATEST)%Z then member w property "latestVersion"
  else VNum env.

(** *** Activation, deactivation and polling *)

(** [`/papi/v1/properties/${propertyId}/activations?contractId=${contractId}&groupId=${groupId}`]. *)
Definition activations_path (w : world) (data : obj) : string :=
  "/papi/v1/properties/" +:+ to_string (member w data "propertyId")
  +:+ "/activations?contractId=" +:+ to_string (member w data "contractId")
  +:+ "&groupId=" +:+ to_string (member w data "groupId").

(** [`/papi/v1/properties/${propertyId}/activations/${activationID}?contractId=${contractId}&groupId=${groupId}`]. *)
Definition activation_path (w : world) (data : obj) (activationID : string) : string :=
  "/papi/v1/properties/" +:+ to_string (member w data "propertyId")
  +:+ "/activations/" +:+ activationID
  +:+ "?contractId=" +:+ to_string (member w data "contractId")
  +:+ "&groupId=" +:+ to_string (member w data "groupId").

(** [response.statusCode >= 200 && response.statusCode <= 400]. *)
Definition status_upto_400 (r : response) : bool :=
  (200 <=? statusCode r)%Z && (statusCode r <=? 400)%Z.

(** [!body.activationLink ? null :
     body.activationLink.match('activations/([a-z0-9_]+)\\b')]: [Some None]
    for [null], [Some (Some id)] for a match with group [id], and [None] where
    the link is truthy and no string, which has no [match] method. *)
Definition matches (b : body) : option (option string) :=
  match activationLink b with
  | VStr link => Some (if truthy (VStr link) then activation_id link else None)
  | link => if truthy link then None else Some None
  end.

(** [body.type && body.type.includes('warnings-not-acknowledged')], [None]
    where [body.type] is truthy and has no [includes] method. *)
Definition warnings_not_acknowledged (b : body) : option bool :=
  match type b with
  | VStr t => Some (truthy (VStr t) && includes t "warnings-not-acknowledged")
  | t => if truthy t then None else Some false
  end.

(** [_activateProperty(propertyLookup, versionId, env, notes, email,
    acknowledgeWarnings)], with a budget of calls. *)
Fixpoint _activateProperty_rec (fuel : nat) (propertyLookup : lookup)
    (versionId env : value) (notes : string) (email : list string)
    (acknowledgeWarnings : list value) : M string :=
  match fuel with
  | O => λ w, (OutOfFuel, w)
  | S fuel =>
      _getProperty propertyLookup LATEST_VERSION_STAGING
      .then (λ data w,
         send (Request "POST" (activations_path w data)
                 (ActivationData versionId env notes email acknowledgeWarnings))
           (λ response,
              match response with
              | None => Uncaught TypeError
              | Some r =>
                  if status_upto_400 r then
                    match json r with
                    | Some parsed => Resolved parsed
                    | None => Uncaught SyntaxError
                    end
                  else Rejected (Value (VStr (text r)))
              end) w)
      .then (λ body,
         match warnings_not_acknowledged body with
         | None => throw TypeError
         | Some true =>
             match warnings body with
             | None => throw TypeError
             | Some ws =>
                 let messages := messageId <$> ws in
                 _activateProperty_rec fuel propertyLookup versionId env notes email
                                       messages
             end
         | Some false =>
             match matches body with
             | None => reject TypeError
             | Some None => reject (OfBody body)
             | Some (Some id) => resolve id
             end
         end)
  end.

(** Each call after the first follows an answer of the remote service, so
    one call more than there are answers left is budget enough. *)
Definition _activateProperty (propertyLookup : lookup) (versionId env : value)
    (notes : string) (email : list string) (acknowledgeWarnings : list value)
    : M string :=
  λ w, _activateProperty_rec (S (length (script w))) propertyLookup versionId env
                             notes email acknowledgeWarnings w.

(** [_deactivateProperty(propertyLookup, versionId, env, notes, email)];
    resolves to the activation id, or to [undefined] ([None]) for a version
    that is not active.  Without response the callback rejects with
    [undefined] (and then throws on [response.statusCode]). *)
Definition _deactivateProperty (propertyLookup : lookup) (versionId env : value)
    (notes : string) (email : list string) : M (option string) :=
  _getProperty propertyLookup LATEST_VERSION_STAGING
  .then (λ data w,
     send (Request "POST" (activations_path w data)
             (DeactivationData versionId env email))
       (λ response,
          match response with
          | None => Rejected (Value VUndefined)
          | Some r =>
              if status_upto_400 r then
                match json r with
                | Some parsed =>
                    match matches parsed with
                    | None => Uncaught TypeError
                    | Some None => Rejected (OfBody parsed)
                    | Some (Some id) => Resolved (Some id)
                    end
                | None => Uncaught SyntaxError
                end
              else if includes (text r) "property_version_not_active"
              then Resolved None
              else Rejected (Value (VStr (text r)))
          end) w).

(** [/application\/json/.test(response.headers['content-type'])]. *)
Definition is_json (r : response) : bool :=
  match content_type r with
  | Some c => includes c "application/json"
  | None => false
  end.

(** What a 500 answer is taken for. *)
Definition pending_body : body :=
  Body VUndefined None VUndefined (Some [VStr "PENDING"]) None None None.

(** [data.activations.items.map(status => { pending = pending || 'ACTIVE' !=
    status.status; active = !pending && 'ACTIVE' === status.status; })],
    from [pending = false] and [active = false]. *)
Definition poll_flags (items : list value) : bool * bool :=
  foldl (λ '(pending, active) status,
           let pending := pending || negb (bool_decide (status = VStr "ACTIVE")) in
           (pending, negb pending && bool_decide (status = VStr "ACTIVE")))
        (false, false) items.

(** [_pollActivation(propertyLookup, activationID)], with a budget of calls. *)
Fixpoint _pollActivation_rec (fuel : nat) (propertyLookup : lookup)
    (activationID : string) : M bool :=
  match fuel with
  | O => λ w, (OutOfFuel, w)
  | S fuel =>
      _getProperty propertyLookup LATEST_VERSION_STAGING
      .then (λ data w,
         send (Request "GET" (activation_path w data activationID) NoBody)
           (λ response,
              match response with
              | None => Uncaught TypeError
              | Some r =>
                  if (statusCode r =? 200)%Z && is_json r then
                    match json r with
                    | Some parsed => Resolved parsed
                    | None => Uncaught SyntaxError
                    end
                  else if (statusCode r =? 500)%Z then Resolved pending_body
                  else Rejected (OfResponse response)
              end) w)
      .then (λ data,
         match activations_items data with
         | None => throw TypeError
         | Some items =>
             let '(pending, active) := poll_flags items in
             if pending then
               sleep 30000
               .then (λ _, _pollActivation_rec fuel propertyLookup activationID)
             else if active then resolve true
             else reject (OfBody data)
         end)
  end.

Definition _pollActivation (propertyLookup : lookup) (activationID : string) : M bool :=
  λ w, _pollActivation_rec (S (length (script w))) propertyLookup activationID w.

(** [!Array.isArray(email) ? [email] : email]. *)
Definition as_array (email : emails) : list string :=
  match email with
  | Addresses l => l
  | Address s => [s]
  end.

(** [activate(propertyLookup, version, networkEnv, notes, email, wait)];
    resolves to [true] after polling, or to the activation id when the caller
    does not wait. *)
Definition activate (propertyLookup : lookup) (version : Z) (networkEnv : string)
    (notes : string) (email : emails) (wait : bool) : M value :=
  let emailNotification := as_array email in
  _getProperty propertyLookup LATEST_VERSION_STAGING
  .then (λ data w,
     let property := data in
     let activationVersion :=
       if (version <=? 0)%Z then _getLatestVersion w property version
       else VNum version in
     (_activateProperty propertyLookup activationVersion (VStr networkEnv) notes
                        emailNotification []
      .then (λ activationId, resolve (property, activationVersion, activationId))) w)
  .then (λ '(property, activationVersion, activationId) w,
     let w :=
       if decide (networkEnv = AKAMAI_ENV_STAGING)
       then set_member property "stagingVersion" activationVersion w
       else set_member property "productionVersion" activationVersion w in
     if wait then
       (_pollActivation propertyLookup activationId .then (λ b, resolve (VBool b))) w
     else resolve (VStr activationId) w).

(** [deactivate(propertyLookup, networkEnv, notes, email, wait)]. *)
Definition deactivate (propertyLookup : lookup) (networkEnv : string)
    (notes : string) (email : emails) (wait : bool) : M value :=
  let email := as_array email in
  _getProperty propertyLookup LATEST_VERSION_STAGING
  .then (λ data w,
     let property := data in
     let deactivationVersion :=
       or_else (_getLatestVersion w property
                  (if decide (networkEnv = AKAMAI_ENV_STAGING)
                   then LATEST_VERSION_STAGING else LATEST_VERSION_PRODUCTION))
               (VNum 1) in
     (_deactivateProperty propertyLookup deactivationVersion (VStr networkEnv) notes email
      .then (λ activationId, resolve (property, activationId))) w)
  .then (λ '(property, activationId) w,
     match activationId with
     | None => resolve VUndefined w
     | Some activationId =>
         if negb (truthy (VStr activationId)) then resolve VUndefined w
         else
           let w :=
             if decide (networkEnv = AKAMAI_ENV_STAGING)
             then set_member property "stagingVersion" VNull w
             else set_member property "productionVersion" VNull w in
           if wait then
             (_pollActivation propertyLookup activationId
              .then (λ b, resolve (VBool b))) w
           else resolve (VStr activationId) w
     end).

End WithConstants.

(** *** Vocabulary of the statements *)

(** A property record passes the test of [_getProperty] when its three
    identifiers are truthy. *)
Definition qualified_in (w : world) (o : obj) : Prop :=
  truthy (member w o "groupId") = true
  ∧ truthy (member w o "propertyId") = true
  ∧ truthy (member w o "contractId") = true.

(** The engine after one request and its answer. *)
Definition answered (w : world) (request : request) (rest : list (option response))
    : world :=
  set_script rest (set_sent (sent w ++ [request]) w).

(** What [then] makes of the outcome of its callback. *)
Definition caught {A} (r : outcome A * world) : outcome A * world :=
  match r with
  | (Thrown e, w) => (Rejected e, w)
  | r => r
  end.

(** The request that activates a version, and the one that asks for the
    status of an activation. *)
Definition activation_request (w : world) (o : obj) (versionId env : value)
    (notes : string) (email : list string) (acks : list value) : request :=
  Request "POST" (activations_path w o) (ActivationData versionId env notes email acks).

Definition status_request (w : world) (o : obj) (activationID : string) : request :=
  Request "GET" (activation_path w o activationID) NoBody.

(** The engine after a poll that found the activation pending: the request
    is sent, its answer consumed, and 30000 ms have passed. *)
Definition polled (w : world) (o : obj) (activationID : string)
    (rest : list (option response)) : world :=
  let w' := answered w (status_request w o activationID) rest in
  set_clock (clock w' + 30000)%Z w'.

(** The parsed body of an answer that [_pollActivation] reads a status
    from: a 200 answer of JSON content, or the stand-in for a 500 answer. *)
Definition polled_body (r : response) : option body :=
  if (statusCode r =? 200)%Z && is_json r then json r
  else if (statusCode r =? 500)%Z then Some pending_body
  else None.

End Engine.

(** ** Sample worlds *)

Module EngineExamples.
Import JS Engine.

(** The constants of [./const] as the examples take them. *)
Definition STAGING_VERSION : Z := -2.
Definition PRODUCTION_VERSION : Z := -1.
Definition LATEST : Z := 0.
Definition STAGING : string := "STAGING".

(** The record [{propertyId: "prp_1", groupId: "grp_1", contractId: "ctr_1"}]. *)
Definition qualified : record :=
  {[ "propertyId" := VStr "prp_1"; "groupId" := VStr "grp_1";
     "contractId" := VStr "ctr_1" ]}.

(** The record [{id: "prp_1", groupId: "grp_1", contractId: "ctr_1"}]. *)
Definition with_id : record :=
  {[ "id" := VStr "prp_1"; "groupId" := VStr "grp_1"; "contractId" := VStr "ctr_1" ]}.

(** A world with both records as objects 1 and 2, an initialised engine that
    knows object 1 under [names], and the answers [answers] to come. *)
Definition world_with (names : list string) (answers : list (option response)) : world :=
  {| heap := {[ Own 1 := qualified; Own 2 := with_id ]};
     next := 3;
     _propertyById := {[ "prp_1" := Own 1 ]};
     _propertyByName := list_to_map ((λ n, (n, Own 1)) <$> names);
     _propertyByHost := ∅;
     _initComplete := true;
     _newestRulesFormat := VUndefined;
     script := answers;
     sent := [];
     clock := 0 |}.

Definition json_response (status : Z) (raw : string) (parsed : body) : option response :=
  Some (Response status (Some "application/json") raw (Some parsed)).

(** Answers of the activation end point. *)
Definition warnings_body (ids : list string) : body :=
  Body (VStr "https://problems.luna.akamaiapis.net/papi/v0/activation/warnings-not-acknowledged")
       (Some ((λ i, Warning (VStr "a warning") (VStr i)) <$> ids))
       VUndefined None None None None.

Definition warnings_response (ids : list string) : response :=
  Response 400 (Some "application/json") "{...warnings-not-acknowledged...}"
           (Some (warnings_body ids)).

Definition warnings_answer (ids : list string) : option response :=
  Some (warnings_response ids).

Definition accepted_body : body :=
  Body VUndefined None
       (VStr "/papi/v1/properties/prp_1/activations/atv_1?contractId=ctr_1&groupId=grp_1")
       None None None None.

Definition accepted_response : response :=
  Response 201 (Some "application/json") "{...activationLink...}" (Some accepted_body).

Definition accepted_answer : option response := Some accepted_response.

(** Answers of the status end point. *)
Definition status_answer (statuses : list string) : option response :=
  json_response 200 "{...activations...}"
    (Body VUndefined None VUndefined (Some (VStr <$> statuses)) None None None).

Definition error_500 : option response :=
  Some (Response 500 (Some "text/html") "Internal Server Error" None).

(** The answers of the two scenarios of the activation claims. *)
Definition two_warning_sets : list (option response) :=
  [warnings_answer ["w1"; "w2"]; warnings_answer ["w3"]; accepted_answer].

Definition pending_twice_then_active : list (option response) :=
  [accepted_answer; status_answer ["PENDING"]; status_answer ["PENDING"];
   status_answer ["ACTIVE"]].

Definition test_email : list string := ["test@example.com"].

(** Answers to a deactivation of a version that is not active. *)
Definition quoted (s : string) : string :=
  String (ascii_of_nat 34) s +:+ String (ascii_of_nat 34) EmptyString.

Definition not_active_answer (status : Z) : option response :=
  json_response status
    ("{" +:+ quoted "type" +:+ ": "
     +:+ quoted "/papi/v1/errors/property_version_not_active" +:+ "}")
    (Body (VStr "/papi/v1/errors/property_version_not_active")
          None VUndefined None None None None).

(** The characters [[A-Za-z0-9_.-]]. *)
Definition safe_characters : list ascii :=
  String.list_ascii_of_string
    "ABCDEFGHIJKLMNOPQRSTUVWXYZabcdefghijklmnopqrstuvwxyz0123456789_.-".

End EngineExamples.

(** ** Further vocabulary for the reconciliation *)

Module ReconcileMore.
Import JS Reconcile.

(** The behaviors and criteria of a tree, node after node, the directives of
    a node before those of its children. *)
Fixpoint directives (t : rule) : list directive :=
  match t with
  | Rule _ bs cs kids =>
      (bs ++ default [] cs)
      ++ match kids with
         | Some kids => kids ≫= directives
         | None => []
         end
  end.

(** Every object has in [st'] the [uuid] it has in [st]. *)
Definition same_uuids (st st' : store) : Prop :=
  ∀ o, uuid_of st' o = uuid_of st o.

End ReconcileMore.


(** ** Further functions of the engine *)

Module EngineMore.
Import JS Engine.

(** *** Names of configurations: [_getConfigAndHostname] *)

(** The [hostnames] argument: absent, one host name, or an array. *)
Inductive hostnames_arg :=
| NoHostnames
| OneHostname (h : string)
| Hostnames (l : list string).

(** [!configName], for a name that is a string or absent. *)
Definition no_name (configName : option string) : bool :=
  match configName with
  | Some s => String.eqb s ""
  | None => true
  end.

(** [configName.match('/^[0-9a-zA-Z\\_\\-\\.]+$/')] being non-null.  The
    pattern is handed over as a string, slashes included, so the regular
    expression asks for a slash and then for the start of the input: no
    string has that. *)
Definition matches_letters (configName : string) : bool := false.

(** [_getConfigAndHostname(configName, hostnames)]; [None] where the call
    throws a TypeError (a member read of [undefined]). *)
Definition _getConfigAndHostname (configName : option string)
    (hostnames : hostnames_arg) : option (string * list string) :=
  let first_step :=
    match hostnames with
    | OneHostname h =>
        (* typeof hostnames == 'string' *)
        Some (configName, [h])
    | NoHostnames =>
        if no_name configName then None (* hostnames[0] of undefined *)
        else Some (configName, from_option (λ c, [c]) [] configName)
    | Hostnames l =>
        if no_name configName then Some (head l, l)
        else match l with
             | [] => Some (configName, from_option (λ c, [c]) [] configName)
             | _ => Some (configName, l)
             end
    end in
  match first_step with
  | None => None
  | Some (configName, hostnames) =>
      let configName := if no_name configName then head hostnames else configName in
      match configName with
      | None => None (* undefined has no match method *)
      | Some configName =>
          Some (if matches_letters configName then configName else sanitize configName,
                hostnames)
      end
  end.

(** *** Contract and group: [_getContractAndGroup] *)

(** An item of [data.groups.items]. *)
Record group_item := GroupItem {
  gi_groupId : string;
  gi_contractIds : option (list string);
}.

(** A string that is there and not empty. *)
Definition given (s : option string) : bool :=
  match s with
  | Some s => negb (String.eqb s "")
  | None => false
  end.

(** [if (contractId && (!contractId.match('ctr_'))) contractId = 'ctr_' + contractId]. *)
Definition with_ctr (contractId : option string) : option string :=
  match contractId with
  | Some c =>
      if negb (String.eqb c "") && negb (includes c "ctr_") then Some ("ctr_" +:+ c)
      else Some c
  | None => None
  end.

(** The members [contractId] and [groupId] of [data]. *)
Definition pair_of_ids : Type := option string * option string.

(** Body of [data.groups.items.map(item => ...)].  The state is [Some] of
    the two members once [resolve(data)] has been called: [data] is resolved
    by reference, so a later item still writes into what the caller gets.
    [inr]: the read of [item.contractIds[0]] throws. *)
Definition assign_group (groupId : option string) (s : option pair_of_ids)
    (item : group_item) : option pair_of_ids + option pair_of_ids :=
  if decide (groupId = Some (gi_groupId item)) then
    match gi_contractIds item with
    | Some contractIds => inl (Some (head contractIds, Some (gi_groupId item)))
    | None => inr s
    end
  else inl s.

(** [_getContractAndGroup(data, contractId, groupId)], where
    [groups_items] is [data.groups.items]; resolves to [data], of which the
    two members written are given.  The first [resolve] or [reject] settles
    the promise, and what the executor throws after that is dropped. *)
Definition _getContractAndGroup (groups_items : option (list group_item))
    (contractId groupId : option string) : outcome pair_of_ids :=
  let contractId := with_ctr contractId in
  let resolved :=
    if given groupId && given contractId then Some (contractId, groupId) else None in
  match groups_items with
  | None => from_option Resolved (Rejected TypeError) resolved
  | Some items =>
      match Reconcile.forEach (assign_group groupId) resolved items with
      | inl (Some ids) => Resolved ids
      | inl None => Rejected (Value (VStr "Group/Contract combination doesn't exist"))
      | inr (Some ids) => Resolved ids
      | inr None => Rejected TypeError
      end
  end.

(** *** The list of groups: [_getGroupList] *)

(** The request of [_getGroupList] (the members [followRedirect] and
    [followAllRedirects], both [false], are left out). *)
Definition groups_request : request := Request "GET" "/papi/v1/groups" NoBody.

(** [_getGroupList(fallThrough)], where [again] is the call the callback
    makes when there is no response and [fallThrough] is falsy: the promise
    that call returns is what the callback returns, which the client drops,
    so it settles nothing of the promise at hand. *)
Definition _getGroupList_with (fallThrough : bool) (again : M body) : M body :=
  λ w,
    let w := set_sent (sent w ++ [groups_request]) w in
    match script w with
    | [] => (Pending, w)
    | None :: rest =>
        if fallThrough then (Rejected (Value VUndefined), set_script rest w)
        else (Pending, (again (set_script rest w)).2)
    | Some r :: rest =>
        (if status_in 200 400 r then
           match json r with
           | Some parsed => Resolved parsed
           | None => Uncaught SyntaxError
           end
         else Rejected (OfResponse (Some r)),
         set_script rest w)
    end.

(** [_getGroupList(1)], which calls itself no further, and [_getGroupList()]. *)
Definition _getGroupList_fallThrough : M body :=
  _getGroupList_with true (λ w, (Pending, w)).

Definition _getGroupList : M body :=
  _getGroupList_with false _getGroupList_fallThrough.

(** *** Requests and answers of the statements *)

(** The request of [_searchByValue], of [_getPropertyMetadata] and of
    [_retrieveFormats]. *)
Definition search_request (field v : string) : request :=
  Request "POST" "/papi/v1/search/find-by-value" (SearchQuery field v).

Definition metadata_request (item : version_item) : request :=
  Request "GET"
    ("/papi/v1/properties/" +:+ to_string (vi_propertyId item)
     +:+ "?contractId=" +:+ to_string (vi_contractId item)
     +:+ "&groupId=" +:+ to_string (vi_groupId item)) NoBody.

Definition formats_request : request :=
  Request "GET" "/papi/v1/rule-formats" NoBody.

(** What [retrieveFormats(true)] makes of the rule formats listed: the first
    that contains "v2", the formats taken in descending order. *)
Definition latest_format (items : list string) : value :=
  from_option VStr VUndefined
    (head (filter (λ rule, includes rule "v2" = true) (reverse (sort items)))).

(** A list of strings in the order [sort] leaves it in: every element is at
    most the ones after it. *)
Fixpoint ascending (l : list string) : Prop :=
  match l with
  | [] => True
  | x :: l' => (∀ y, y ∈ l' → String.leb x y = true) ∧ ascending l'
  end.

(** An answer with a status from 200 to 399 whose body parses to [b]. *)
Definition parsed_as (r : response) (b : body) : Prop :=
  status_in 200 400 r = true ∧ json r = Some b.

(** An answer to an activation request that is taken for a parsed body: the
    status goes up to 400 included. *)
Definition accepted_as (r : response) (b : body) : Prop :=
  status_upto_400 r = true ∧ json r = Some b.

(** An answer to an activation request that reports the warnings [ws] as
    not acknowledged, and one that accepts the request and names the
    activation [id]. *)
Definition warns (r : response) (ws : list warning) : Prop :=
  ∃ b, accepted_as r b
       ∧ warnings_not_acknowledged b = Some true
       ∧ warnings b = Some ws.

Definition accepts (r : response) (id : string) : Prop :=
  ∃ b, accepted_as r b
       ∧ warnings_not_acknowledged b = Some false
       ∧ matches b = Some (Some id).

(** [body.warnings.map(warning => warning.messageId)]. *)
Definition message_ids (ws : list warning) : list value := messageId <$> ws.

(** An answer to a status request a status is read from: with an item that
    is not "ACTIVE", and with items that are all "ACTIVE". *)
Definition under_way (r : response) : Prop :=
  ∃ data items,
    polled_body r = Some data
    ∧ activations_items data = Some items
    ∧ ∃ status, status ∈ items ∧ status ≠ VStr "ACTIVE".

Definition all_active (r : response) : Prop :=
  ∃ data items,
    polled_body r = Some data
    ∧ activations_items data = Some items
    ∧ items ≠ []
    ∧ ∀ status, status ∈ items → status = VStr "ACTIVE".

Section WithConstants.

Variables LATEST_VERSION_STAGING LATEST_VERSION_PRODUCTION LATEST_VERSION_LATEST : Z.
Variables AKAMAI_ENV_STAGING AKAMAI_ENV_PRODUCTION : string.

(** [lookupPropertyIdFromHost(hostname, env)]; the caller that leaves [env]
    out passes [LATEST_VERSION.PRODUCTION]. *)
Definition lookupPropertyIdFromHost (hostname : lookup) (env : Z) : M obj :=
  _getProperty LATEST_VERSION_STAGING hostname env.

(** [promoteStagingToProd(propertyLookup, notes, email)].  The local
    [stagingVersion] is declared and never assigned, so [activate] gets
    [undefined] for [version] and takes its default, [LATEST_VERSION.LATEST];
    the two promises made in the other branches are not returned, so the
    callback returns [undefined] there. *)
Definition promoteStagingToProd (propertyLookup : lookup) (notes : string)
    (email : emails) : M value :=
  _getProperty LATEST_VERSION_STAGING propertyLookup LATEST_VERSION_STAGING
  .then (λ property w,
     if negb (truthy (member w property "stagingVersion")) then resolve VUndefined w
     else if negb (bool_decide (member w property "productionVersion"
                                = member w property "stagingVersion"))
     then activate LATEST_VERSION_STAGING LATEST_VERSION_PRODUCTION
                   LATEST_VERSION_LATEST AKAMAI_ENV_STAGING
                   propertyLookup LATEST_VERSION_LATEST AKAMAI_ENV_PRODUCTION
                   notes email true w
     else resolve VUndefined w).

End WithConstants.

End EngineMore.

(** ** Further sample worlds *)

Module EngineMoreExamples.
Import JS Engine EngineExamples EngineMore.

(** Answers of the search end point: one hit, and none. *)
Definition hit : version_item :=
  VersionItem (VStr "prp_2") (VStr "grp_1") (VStr "ctr_1").

Definition search_body (items : list version_item) : body :=
  Body VUndefined None VUndefined None None (Some items) None.

Definition search_response (items : list version_item) : response :=
  Response 200 (Some "application/json") "{...versions...}" (Some (search_body items)).

(** Answer of the property end point. *)
Definition second_property : record :=
  {[ "propertyId" := VStr "prp_2"; "propertyName" := VStr "www.example.org";
     "groupId" := VStr "grp_1"; "contractId" := VStr "ctr_1" ]}.

Definition metadata_body : body :=
  Body VUndefined None VUndefined None None None (Some [second_property]).

Definition metadata_response : response :=
  Response 200 (Some "application/json") "{...properties...}" (Some metadata_body).

(** Answer of the rule-formats end point. *)
Definition formats : list string :=
  ["v2016-11-15"; "latest"; "v2018-02-27"; "v2017-06-19"].

Definition formats_body : body :=
  Body VUndefined None VUndefined None (Some formats) None None.

Definition formats_response : response :=
  Response 200 (Some "application/json") "{...ruleFormats...}" (Some formats_body).

(** An engine that has cached nothing yet. *)
Definition fresh_world (answers : list (option response)) : world :=
  {| heap := ∅;
     next := 1;
     _propertyById := ∅;
     _propertyByName := ∅;
     _propertyByHost := ∅;
     _initComplete := false;
     _newestRulesFormat := VStr "";
     script := answers;
     sent := [];
     clock := 0 |}.

(** An initialised engine whose record 1 has version 4 as the latest,
    version 3 on staging and version 2 on production, and which knows the
    host www.example.com on both networks. *)
Definition versioned : record :=
  {[ "propertyId" := VStr "prp_1"; "groupId" := VStr "grp_1";
     "contractId" := VStr "ctr_1"; "latestVersion" := VNum 4;
     "stagingVersion" := VNum 3; "productionVersion" := VNum 2 ]}.

Definition versioned_world (answers : list (option response)) : world :=
  {| heap := {[ Own 1 := versioned; Own 2 := qualified ]};
     next := 3;
     _propertyById := {[ "prp_1" := Own 1 ]};
     _propertyByName := ∅;
     _propertyByHost := {[ "www.example.com" := Host (Some (Own 1)) (Some (Own 2)) ]};
     _initComplete := true;
     _newestRulesFormat := VUndefined;
     script := answers;
     sent := [];
     clock := 0 |}.

(** Answers of the status end point, and an answer it refuses. *)
Definition status_body (statuses : list string) : body :=
  Body VUndefined None VUndefined (Some (VStr <$> statuses)) None None None.

Definition status_response (statuses : list string) : response :=
  Response 200 (Some "application/json") "{...activations...}"
           (Some (status_body statuses)).

Definition error_500_response : response :=
  Response 500 (Some "text/html") "Internal Server Error" None.

Definition not_found_response : response :=
  Response 404 (Some "text/html") "Not Found" None.

(** The constant [AKAMAI_ENV.PRODUCTION] as the examples take it. *)
Definition PRODUCTION : string := "PRODUCTION".

(** Groups as [_getGroupList] lists them. *)
Definition groups : list group_item :=
  [ GroupItem "grp_1" (Some ["ctr_A"; "ctr_B"]);
    GroupItem "grp_2" (Some ["ctr_C"]);
    GroupItem "grp_1" (Some ["ctr_D"]) ].

End EngineMoreExamples.

(** * Properties of the reconciliation *)

Module ReconcileTheory.
Import JS Reconcile.

(** Induction over rule trees, the children of a node being a list. *)
Lemma rule_ind' (P : rule → Prop) :
  (∀ node bs cs, P (Rule node bs cs None)) →
  (∀ node bs cs kids, Forall P kids → P (Rule node bs cs (Some kids))) →
  ∀ t, P t.
Proof.
  intros Hleaf Hnode. fix IH 1. intros [node bs cs [kids|]].
  - apply Hnode. induction kids as [|k kids IHkids]; constructor.
    + apply IH.
    + exact IHkids.
  - apply Hleaf.
Qed.

Section WithDigest.

Variable md5 : value → string.

Lemma visit_not_advanced st node parents found ds :
  forallb (λ d, negb (is_advanced d)) ds = true →
  foldl (visit md5 st node parents) found ds = found.
Proof.
  revert found. induction ds as [|d ds IH]; intros found H; simpl in *; [done|].
  apply andb_prop in H as [Hd Hds]. unfold visit at 2.
  destruct (is_advanced d); [discriminate|]. by apply IH.
Qed.

Lemma search_no_advanced st t :
  no_advanced t = true → ∀ parents found, search md5 st t parents found = found.
Proof.
  induction t as [node bs cs|node bs cs kids IH] using rule_ind';
    simpl; intros H parents found; apply andb_prop in H as [Hds Hkids].
  - by apply visit_not_advanced.
  - rewrite visit_not_advanced by done.
    generalize (extend_parents st node parents). intros ps.
    revert found. induction IH as [|k kids Hk _ IHk]; intros found; simpl in *; [done|].
    apply andb_prop in Hkids as [H1 H2]. rewrite Hk by done. by apply IHk.
Qed.

(** *** The table [found] *)

Lemma found_get_set found key l key' :
  found_get (found_set found key l) key'
  = if decide (key = key') then Some l else found_get found key'.
Proof.
  induction found as [|[k l0] rest IH]; simpl.
  - by destruct (decide (key = key')).
  - destruct (decide (k = key)); subst; simpl.
    + destruct (decide (key = key')); done.
    + destruct (decide (k = key')); subst.
      * by rewrite decide_False.
      * exact IH.
Qed.

Lemma found_get_elem_of found key l :
  found_get found key = Some l → (key, l) ∈ found.
Proof.
  induction found as [|[k l0] rest IH]; simpl; [done|].
  destruct (decide (k = key)); subst.
  - intros [= ->]. left.
  - intros H. right. by apply IH.
Qed.

Lemma found_get_None found key :
  found_get found key = None → key ∉ found.*1.
Proof.
  induction found as [|[k l0] rest IH]; simpl; [intros _; apply not_elem_of_nil|].
  destruct (decide (k = key)); [done|].
  intros H. apply not_elem_of_cons. split; [done|]. by apply IH.
Qed.

Lemma elem_of_entries found e :
  e ∈ entries found ↔ ∃ key l, (key, l) ∈ found ∧ e ∈ l.
Proof.
  unfold entries. rewrite list_elem_of_join. split.
  - intros (l & He & Hl). apply list_elem_of_fmap in Hl as ([k l'] & -> & Hin).
    by exists k, l'.
  - intros (k & l & Hin & He). exists l. split; [done|].
    apply list_elem_of_fmap. by exists (k, l).
Qed.

Lemma elem_of_found_set found key l k g :
  (k, g) ∈ found_set found key l → (k, g) ∈ found ∨ (k = key ∧ g = l).
Proof.
  induction found as [|[k0 l0] rest IH]; simpl.
  - rewrite list_elem_of_singleton. intros [= -> ->]. by right.
  - destruct (decide (k0 = key)); subst; rewrite !elem_of_cons.
    + intros [[= -> ->]|H]; [by right|left; by right].
    + intros [H|H]; [left; by left|]. destruct (IH H) as [?|?]; [left; by right|by right].
Qed.

Lemma found_set_keys_present found key l l0 :
  found_get found key = Some l0 → (found_set found key l).*1 = found.*1.
Proof.
  induction found as [|[k g] rest IH]; csimpl; [done|].
  destruct (decide (k = key)); subst; csimpl; [done|].
  intros H. by rewrite IH.
Qed.

Lemma found_set_keys_absent found key l :
  found_get found key = None → (found_set found key l).*1 = found.*1 ++ [key].
Proof.
  induction found as [|[k g] rest IH]; csimpl; [done|].
  destruct (decide (k = key)); subst; csimpl; [done|].
  intros H. by rewrite IH.
Qed.

Lemma entries_set_present found key l0 e :
  found_get found key = Some l0 →
  entries (found_set found key (l0 ++ [e])) ≡ₚ entries found ++ [e].
Proof.
  unfold entries. induction found as [|[k g] rest IH]; simpl; [done|].
  destruct (decide (k = key)); subst; simpl.
  - intros [= ->]. rewrite <-!(assoc_L (++)). f_equiv. apply Permutation_app_comm.
  - intros H. rewrite <-(assoc_L (++)). f_equiv. by apply IH.
Qed.

Lemma entries_set_absent found key l :
  found_get found key = None → entries (found_set found key l) = entries found ++ l.
Proof.
  unfold entries. induction found as [|[k g] rest IH]; simpl.
  - intros _. by rewrite (right_id_L [] (++)).
  - destruct (decide (k = key)); subst; simpl; [done|].
    intros H. by rewrite IH, (assoc_L (++)).
Qed.

Lemma entries_file found e : entries (file_entry found e) ≡ₚ entries found ++ [e].
Proof.
  unfold file_entry, found_push. destruct (found_get found (fn_md5 e)) eqn:Hget.
  - by apply entries_set_present.
  - by rewrite entries_set_absent.
Qed.

Lemma entries_foldl_file found l :
  entries (foldl file_entry found l) ≡ₚ entries found ++ l.
Proof.
  revert found. induction l as [|e l IH]; intros found; simpl.
  - by rewrite (right_id_L [] (++)).
  - rewrite IH, entries_file, <-(assoc_L (++)). done.
Qed.

Lemma keyed_file found e : keyed found → keyed (file_entry found e).
Proof.
  intros Hk key l x Hin Hx. unfold file_entry, found_push in Hin.
  destruct (found_get found (fn_md5 e)) as [l0|] eqn:Hget;
    apply elem_of_found_set in Hin as [Hin|[-> ->]]; eauto.
  - apply elem_of_app in Hx as [Hx|Hx].
    + apply found_get_elem_of in Hget. eauto.
    + apply list_elem_of_singleton in Hx. by subst.
  - apply list_elem_of_singleton in Hx. by subst.
Qed.

Lemma keyed_foldl_file found l : keyed found → keyed (foldl file_entry found l).
Proof.
  revert found. induction l as [|e l IH]; intros found H; simpl; [done|].
  by apply IH, keyed_file.
Qed.

Lemma NoDup_keys_file found e : NoDup found.*1 → NoDup (file_entry found e).*1.
Proof.
  intros Hnd. unfold file_entry, found_push.
  destruct (found_get found (fn_md5 e)) as [l0|] eqn:Hget.
  - by erewrite found_set_keys_present.
  - rewrite found_set_keys_absent by done. apply NoDup_app. split_and!; [done| |].
    + intros k Hk Hk'. apply list_elem_of_singleton in Hk'. subst.
      by apply found_get_None in Hget.
    + apply NoDup_singleton.
Qed.

Lemma NoDup_keys_foldl_file found l :
  NoDup found.*1 → NoDup (foldl file_entry found l).*1.
Proof.
  revert found. induction l as [|e l IH]; intros found H; simpl; [done|].
  by apply IH, NoDup_keys_file.
Qed.

(** *** [search] files the entries of [collect] *)

Lemma foldl_visit st node parents found ds :
  foldl (visit md5 st node parents) found ds
  = foldl file_entry found
      (entry_of md5 st node parents <$> filter (λ d, is_advanced d) ds).
Proof.
  revert found. induction ds as [|d ds IH]; intros found; simpl; [done|].
  rewrite IH, filter_cons. unfold visit, entry_of, file_entry.
  destruct (is_advanced d) eqn:Hd.
  - rewrite decide_True by done. done.
  - rewrite decide_False; [done|]. by intros [].
Qed.

Lemma visit_advanced st node parents found d :
  is_advanced d = true →
  visit md5 st node parents found d
  = file_entry found (entry_of md5 st node parents d).
Proof. intros Hd. unfold visit. by rewrite Hd. Qed.

Lemma search_collect st t :
  ∀ parents found,
    search md5 st t parents found = foldl file_entry found (collect md5 st t parents).
Proof.
  induction t as [node bs cs|node bs cs kids IH] using rule_ind';
    intros parents found; simpl.
  - by rewrite foldl_visit, (right_id_L [] (++)).
  - rewrite foldl_visit, foldl_app.
    generalize (extend_parents st node parents). intros ps.
    generalize (foldl file_entry found
      (entry_of md5 st node parents <$> filter (λ d, is_advanced d) (bs ++ default [] cs))).
    clear found. intros found. revert found.
    induction IH as [|k kids Hk _ IHk]; intros found; simpl; [done|].
    by rewrite Hk, IHk, foldl_app.
Qed.

Lemma entries_search st t :
  entries (search md5 st t [] []) ≡ₚ collect md5 st t [].
Proof. by rewrite search_collect, entries_foldl_file. Qed.

Lemma keyed_search st t : keyed (search md5 st t [] []).
Proof.
  rewrite search_collect. apply keyed_foldl_file.
  intros k l e Hin. by apply elem_of_nil in Hin.
Qed.

Lemma NoDup_keys_search st t : NoDup (search md5 st t [] []).*1.
Proof. rewrite search_collect. apply NoDup_keys_foldl_file, NoDup_nil_2. Qed.

(** *** Where the entries of a tree point *)

Lemma elem_of_collect_node st node parents (ds : list directive) e :
  e ∈ entry_of md5 st node parents <$> filter (λ d, is_advanced d) ds →
  ∃ d, e = entry_of md5 st node parents d ∧ is_advanced d = true ∧ d ∈ ds.
Proof.
  intros (d & -> & Hd)%list_elem_of_fmap. apply list_elem_of_filter in Hd as [Hadv Hd].
  exists d. split_and!; [done| |done]. by apply Is_true_eq_true.
Qed.

Lemma collect_shape st t :
  ∀ parents e, e ∈ collect md5 st t parents →
    fn_xml e = payload (options (advNode e))
    ∧ fn_md5 e = md5 (fn_xml e)
    ∧ fn_uuid e = uuid_of st (d_ref (advNode e))
    ∧ is_advanced (advNode e) = true.
Proof.
  induction t as [node bs cs|node bs cs kids IH] using rule_ind';
    intros parents e; simpl; rewrite elem_of_app.
  - intros [(d & -> & Hadv & _)%elem_of_collect_node|[]%elem_of_nil]. done.
  - intros [(d & -> & Hadv & _)%elem_of_collect_node|(k & He & Hk)%list_elem_of_bind];
      [done|].
    eapply Forall_forall in IH; [|exact Hk]. eauto.
Qed.

Lemma collect_directive st t :
  ∀ parents e, e ∈ collect md5 st t parents →
    d_ref (advNode e) ∈ directive_objects t.
Proof.
  induction t as [node bs cs|node bs cs kids IH] using rule_ind';
    intros parents e; simpl; rewrite !elem_of_app.
  - intros [(d & -> & _ & Hd)%elem_of_collect_node|[]%elem_of_nil].
    left. by apply list_elem_of_fmap_2.
  - intros [(d & -> & _ & Hd)%elem_of_collect_node|(k & He & Hk)%list_elem_of_bind].
    + left. by apply list_elem_of_fmap_2.
    + right. apply list_elem_of_bind. exists k. split; [|done].
      eapply Forall_forall in IH; [|exact Hk]. eauto.
Qed.

Lemma collect_directives_sublist st t :
  ∀ parents,
    (d_ref ∘ advNode <$> collect md5 st t parents) `sublist_of` directive_objects t.
Proof.
  assert (Hnode : ∀ node parents (ds : list directive),
    (d_ref ∘ advNode <$> (entry_of md5 st node parents
       <$> filter (λ d, is_advanced d) ds)) `sublist_of` (d_ref <$> ds)).
  { intros. rewrite <-list_fmap_compose.
    apply fmap_sublist, sublist_filter. }
  induction t as [node bs cs|node bs cs kids IH] using rule_ind';
    intros parents; simpl; rewrite fmap_app; apply sublist_app; try apply Hnode.
  - done.
  - generalize (extend_parents st node parents). intros ps.
    induction IH as [|k kids Hk _ IHk]; [done|].
    rewrite !bind_cons, fmap_app. by apply sublist_app.
Qed.

Lemma extend_parents_subseteq st node parents :
  extend_parents st node parents ⊆ parents ++ [node].
Proof. unfold extend_parents. case_decide; set_solver. Qed.

Lemma collect_chain st t :
  ∀ parents e, e ∈ collect md5 st t parents →
    parentRules e ⊆ parents ++ rule_objects t.
Proof.
  induction t as [node bs cs|node bs cs kids IH] using rule_ind';
    intros parents e; simpl; rewrite elem_of_app.
  - intros [(d & -> & _)%elem_of_collect_node|[]%elem_of_nil]. simpl.
    apply extend_parents_subseteq.
  - intros [(d & -> & _)%elem_of_collect_node|(k & He & Hk)%list_elem_of_bind].
    + simpl. pose proof (extend_parents_subseteq st node parents). set_solver.
    + eapply Forall_forall in IH; [|exact Hk]. apply IH in He.
      pose proof (extend_parents_subseteq st node parents) as Hext.
      intros o Ho. apply He, elem_of_app in Ho as [Ho|Ho].
      * apply Hext in Ho. set_solver.
      * apply elem_of_app. right. right. apply list_elem_of_bind. eauto.
Qed.

Lemma extend_parents_NoDup st node parents :
  NoDup parents → node ∉ parents → NoDup (extend_parents st node parents).
Proof.
  intros Hnd Hn. unfold extend_parents. case_decide; [done|].
  apply NoDup_app. split_and!; [done| |apply NoDup_singleton].
  intros o Ho ->%list_elem_of_singleton. done.
Qed.

Lemma collect_chain_NoDup st t :
  ∀ parents e,
    NoDup parents → NoDup (rule_objects t) →
    (∀ o, o ∈ parents → o ∉ rule_objects t) →
    e ∈ collect md5 st t parents → NoDup (parentRules e).
Proof.
  induction t as [node bs cs|node bs cs kids IH] using rule_ind';
    intros parents e Hps Hnd Hdisj; simpl; rewrite elem_of_app.
  - intros [(d & -> & _)%elem_of_collect_node|[]%elem_of_nil]. simpl.
    apply extend_parents_NoDup; [done|]. intros Hn. apply (Hdisj _ Hn). left.
  - simpl in Hnd. apply NoDup_cons in Hnd as [Hnode Hkids].
    assert (node ∉ parents) as Hn.
    { intros Hn. apply (Hdisj _ Hn). left. }
    intros [(d & -> & _)%elem_of_collect_node|(k & He & Hk)%list_elem_of_bind].
    + simpl. by apply extend_parents_NoDup.
    + eapply Forall_forall in IH; [|exact Hk]. eapply IH; [| | |exact He].
      * by apply extend_parents_NoDup.
      * apply (sublist_NoDup _ (kids ≫= rule_objects)); [exact Hkids|].
        apply list_elem_of_split in Hk as (k1 & k2 & ->).
        rewrite bind_app, bind_cons. apply sublist_inserts_l, sublist_inserts_r. done.
      * intros o Ho%extend_parents_subseteq Hok.
        assert (o ∈ kids ≫= rule_objects) by (apply list_elem_of_bind; eauto).
        apply elem_of_app in Ho as [Ho|Ho].
        -- apply (Hdisj _ Ho). by right.
        -- apply list_elem_of_singleton in Ho. by subst.
Qed.

Lemma collect_chain_not_default st t :
  ∀ parents e,
    (∀ o, o ∈ parents → uuid_of st o ≠ VStr "default") →
    e ∈ collect md5 st t parents →
    ∀ o, o ∈ parentRules e → uuid_of st o ≠ VStr "default".
Proof.
  assert (Hext : ∀ node parents,
    (∀ o, o ∈ parents → uuid_of st o ≠ VStr "default") →
    ∀ o, o ∈ extend_parents st node parents → uuid_of st o ≠ VStr "default").
  { intros node parents Hps o. unfold extend_parents. case_decide; [apply Hps|].
    intros [?|Ho]%elem_of_app; [by apply Hps|].
    apply list_elem_of_singleton in Ho. by subst. }
  induction t as [node bs cs|node bs cs kids IH] using rule_ind';
    intros parents e Hps; simpl; rewrite elem_of_app.
  - intros [(d & -> & _)%elem_of_collect_node|[]%elem_of_nil]. simpl. by apply Hext.
  - intros [(d & -> & _)%elem_of_collect_node|(k & He & Hk)%list_elem_of_bind].
    + simpl. by apply Hext.
    + eapply Forall_forall in IH; [|exact Hk]. eapply IH; [|exact He]. by apply Hext.
Qed.

(** *** Loops *)

Lemma forEach_app {A S E} (f : S → A → S + E) s l1 l2 :
  forEach f s (l1 ++ l2)
  = match forEach f s l1 with
    | inl s' => forEach f s' l2
    | inr e => inr e
    end.
Proof.
  revert s. induction l1 as [|x l1 IH]; intros s; simpl; [done|].
  destruct (f s x); [apply IH|done].
Qed.

(** An invariant of the loop body holds of the state the loop ends in, and the
    exception that ends it satisfies what the body guarantees of its own. *)
Lemma forEach_inv {A S E} (f : S → A → S + E) (I : S → Prop) (J : E → Prop) l :
  (∀ s x, x ∈ l → I s → match f s x with inl s' => I s' | inr e => J e end) →
  ∀ s, I s → match forEach f s l with inl s' => I s' | inr e => J e end.
Proof.
  induction l as [|x l IH]; intros Hstep s Hs; simpl; [done|].
  pose proof (Hstep s x ltac:(left) Hs) as Hx.
  destruct (f s x) as [s'|e]; [|done].
  apply IH; [|done]. intros s0 y Hy. apply Hstep. by right.
Qed.

Lemma reconcile_all_flat s found :
  reconcile_all s found = forEach step s (keyed_entries found).
Proof.
  unfold reconcile_all, keyed_entries. revert s.
  induction found as [|[key group] rest IH]; intros s; simpl; [done|].
  rewrite forEach_app.
  assert (Hg : ∀ s, forEach (reconcile key) s group
    = forEach step s (pair key <$> group)).
  { clear. induction group as [|e group IHg]; intros s; simpl; [done|].
    unfold step at 1; cbn [fst snd]. destruct (reconcile key s e); [apply IHg|done]. }
  rewrite <-Hg. destruct (forEach (reconcile key) s group); [apply IH|done].
Qed.

Lemma elem_of_keyed_entries found key e :
  (key, e) ∈ keyed_entries found ↔ ∃ l, (key, l) ∈ found ∧ e ∈ l.
Proof.
  unfold keyed_entries. rewrite list_elem_of_bind. split.
  - intros ([k l] & Hin & Hl). apply list_elem_of_fmap in Hin as (x & [= -> ->] & Hx).
    by exists l.
  - intros (l & Hl & He). exists (key, l). split; [|done].
    apply list_elem_of_fmap. by exists e.
Qed.

(** *** One step of the reconciliation *)

Lemma reconcile_inl key st old e st' old' :
  reconcile key (st, old) e = inl (st', old') →
  ∃ l i eo,
    found_get old key = Some l
    ∧ l !! i = Some eo
    ∧ length (parentRules e) = length (parentRules eo)
    ∧ st' = set_uuid (copy_chain st (parentRules e) (parentRules eo))
                     (d_ref (advNode e))
                     (uuid_of (copy_chain st (parentRules e) (parentRules eo))
                              (d_ref (advNode eo)))
    ∧ old' = found_set old key (delete i l).
Proof.
  unfold reconcile.
  destruct (list_find _ _) as [[i eo]|] eqn:Hfind; [|done].
  intros [= <- <-]. apply list_find_Some in Hfind as (Hi & Hlen & _).
  destruct (found_get old key) as [l|] eqn:Hget; simpl in *.
  - by exists l, i, eo.
  - by rewrite lookup_nil in Hi.
Qed.

Lemma reconcile_inr key st old e st' message :
  reconcile key (st, old) e = inr (st', message) →
  st' = st
  ∧ message = UnmatchedAdvancedMetadata (fn_xml e)
  ∧ ∀ eo, eo ∈ default [] (found_get old key) →
      length (parentRules e) ≠ length (parentRules eo).
Proof.
  unfold reconcile.
  destruct (list_find _ _) as [[i eo]|] eqn:Hfind; [done|].
  intros [= <- <-]. split_and!; [done..|].
  intros eo Heo. eapply list_find_None in Hfind.
  by eapply Forall_forall in Hfind.
Qed.

(** The first old entry of the group serves when its chain has the length
    of the new entry's. *)
Lemma reconcile_head key st old e l eo :
  found_get old key = Some (eo :: l) →
  length (parentRules e) = length (parentRules eo) →
  reconcile key (st, old) e
  = inl (set_uuid (copy_chain st (parentRules e) (parentRules eo))
                  (d_ref (advNode e))
                  (uuid_of (copy_chain st (parentRules e) (parentRules eo))
                           (d_ref (advNode eo))),
         found_set old key l).
Proof.
  intros Hget Hlen. unfold reconcile. rewrite Hget. simpl.
  by rewrite decide_True.
Qed.

(** *** Stores *)

Lemma uuid_of_set_eq st o v : uuid_of (set_uuid st o v) o = v.
Proof. unfold uuid_of, set_uuid. by rewrite lookup_insert_eq. Qed.

Lemma uuid_of_set_ne st o o' v : o ≠ o' → uuid_of (set_uuid st o v) o' = uuid_of st o'.
Proof. intros. unfold uuid_of, set_uuid. by rewrite lookup_insert_ne. Qed.

Lemma copied_from_refl st olds : copied_from st olds st.
Proof. intros o. by left. Qed.

Lemma copied_from_set st olds st' n o :
  o ∈ olds → copied_from st olds st' →
  copied_from st olds (set_uuid st' n (uuid_of st' o)).
Proof.
  intros Ho H x. destruct (decide (n = x)) as [->|Hne].
  - rewrite uuid_of_set_eq. right. destruct (H o) as [->|(o' & ? & ->)]; eauto.
  - rewrite uuid_of_set_ne by done. apply H.
Qed.

Lemma copied_from_chain st olds news os :
  os ⊆ olds → ∀ st', copied_from st olds st' →
  copied_from st olds (copy_chain st' news os).
Proof.
  intros Hos. revert os Hos.
  induction news as [|n news IH]; intros [|o os] Hos st' H; simpl; try done.
  apply IH; [set_solver|]. apply copied_from_set; [set_solver|done].
Qed.

Lemma same_outside_refl written st : same_outside written st st.
Proof. by intros o _. Qed.

Lemma same_outside_set written st st' n v :
  n ∈ written → same_outside written st st' →
  same_outside written st (set_uuid st' n v).
Proof.
  intros Hn H o Ho. unfold set_uuid. rewrite lookup_insert_ne; [by apply H|].
  intros ->. done.
Qed.

Lemma same_outside_chain written st news :
  news ⊆ written → ∀ os st', same_outside written st st' →
  same_outside written st (copy_chain st' news os).
Proof.
  induction news as [|n news IH]; intros Hn [|o os] st' H; simpl; try done.
  apply IH; [set_solver|]. apply same_outside_set; [set_solver|done].
Qed.

(** *** Invariants of the reconciliation loop *)

Lemma snd_keyed_entries found : (keyed_entries found).*2 = entries found.
Proof.
  unfold keyed_entries, entries.
  induction found as [|[key group] rest IH]; csimpl; [done|].
  rewrite fmap_app, IH. f_equal. rewrite <-list_fmap_compose. apply list_fmap_id.
Qed.

Lemma remaining_init found : keyed found → remaining (entries found) found.
Proof.
  intros Hk key l eo Hget Heo. apply found_get_elem_of in Hget. split.
  - apply elem_of_entries. eauto.
  - eauto.
Qed.

Lemma remaining_step initial key st old e st' old' :
  remaining initial old →
  reconcile key (st, old) e = inl (st', old') →
  remaining initial old'.
Proof.
  intros Hrem (l & i & eo & Hget & Hi & Hlen & -> & ->)%reconcile_inl k g x.
  rewrite found_get_set. case_decide; subst; [|apply Hrem].
  intros [= <-] Hx%list_elem_of_delete_inv. eauto.
Qed.

Lemma step_invariant st0 initial written s x :
  entry_objects x.2 ⊆ written →
  remaining initial s.2
  ∧ copied_from st0 (initial ≫= entry_objects) s.1
  ∧ same_outside written st0 s.1 →
  match step s x with
  | inl s' =>
      remaining initial s'.2
      ∧ copied_from st0 (initial ≫= entry_objects) s'.1
      ∧ same_outside written st0 s'.1
  | inr err =>
      copied_from st0 (initial ≫= entry_objects) err.1
      ∧ same_outside written st0 err.1
  end.
Proof.
  destruct s as [st old], x as [key e]. unfold step; cbn [fst snd].
  intros Hw (Hrem & Hcopied & Hsame).
  destruct (reconcile key (st, old) e) as [[st' old']|[st' message]] eqn:Hstep;
    cbn [fst snd].
  - split; [by eapply remaining_step|].
    apply reconcile_inl in Hstep as (l & i & eo & Hget & Hi & Hlen & -> & _).
    assert (eo ∈ initial) as Heo.
    { eapply Hrem; [done|]. by eapply list_elem_of_lookup_2. }
    assert (entry_objects eo ⊆ initial ≫= entry_objects) as Hobjs.
    { intros o Ho. apply list_elem_of_bind. eauto. }
    unfold entry_objects in *. simpl. split.
    + apply copied_from_set; [set_solver|].
      apply copied_from_chain; [set_solver|done].
    + apply same_outside_set; [set_solver|].
      apply same_outside_chain; [set_solver|done].
  - apply reconcile_inr in Hstep as (-> & _). done.
Qed.

Lemma run_invariant st0 initial written pairs s :
  (∀ x, x ∈ pairs → entry_objects x.2 ⊆ written) →
  remaining initial s.2
  ∧ copied_from st0 (initial ≫= entry_objects) s.1
  ∧ same_outside written st0 s.1 →
  match forEach step s pairs with
  | inl s' =>
      remaining initial s'.2
      ∧ copied_from st0 (initial ≫= entry_objects) s'.1
      ∧ same_outside written st0 s'.1
  | inr err =>
      copied_from st0 (initial ≫= entry_objects) err.1
      ∧ same_outside written st0 err.1
  end.
Proof.
  intros Hw Hs.
  apply (forEach_inv step
    (λ s, remaining initial s.2
          ∧ copied_from st0 (initial ≫= entry_objects) s.1
          ∧ same_outside written st0 s.1)
    (λ err, copied_from st0 (initial ≫= entry_objects) err.1
            ∧ same_outside written st0 err.1)); [|done].
  intros s0 x Hx Hs0. apply step_invariant; auto.
Qed.

(** The loop stops at the first entry that finds no counterpart. *)
Lemma forEach_inr_split {A S E} (f : S → A → S + E) l s err :
  forEach f s l = inr err →
  ∃ pre x post s0,
    l = pre ++ x :: post ∧ forEach f s pre = inl s0 ∧ f s0 x = inr err.
Proof.
  revert s. induction l as [|x l IH]; intros s; simpl; [done|].
  destruct (f s x) as [s'|e] eqn:Hx.
  - intros (pre & y & post & s0 & -> & Hpre & Hy)%IH.
    exists (x :: pre), y, post, s0. simpl. by rewrite Hx.
  - intros [= ->]. by exists [], x, l, s.
Qed.

(** An entry whose digest and depth no old entry shares makes the loop throw. *)
Lemma run_unmatched initial pairs key en :
  (key, en) ∈ pairs →
  fn_md5 en = key →
  (∀ eo, eo ∈ initial → fn_md5 eo = fn_md5 en →
         length (parentRules eo) ≠ length (parentRules en)) →
  ∀ s, remaining initial s.2 → ∃ err, forEach step s pairs = inr err.
Proof.
  intros Hin Hkey Hnone.
  induction pairs as [|[k e] pairs IH]; intros [st old] Hrem; cbn [forEach].
  { by apply elem_of_nil in Hin. }
  unfold step at 1; cbn [fst snd].
  destruct (reconcile k (st, old) e) as [[st' old']|err] eqn:Hstep; [|eauto].
  apply elem_of_cons in Hin as [[= <- <-]|Hin].
  - apply reconcile_inl in Hstep as (l & i & eo & Hget & Hi & Hlen & _).
    apply list_elem_of_lookup_2 in Hi.
    destruct (Hrem _ _ _ Hget Hi) as [Heo Hmd5].
    exfalso. apply (Hnone eo); [done|congruence|done].
  - apply IH; [done|]. by eapply remaining_step.
Qed.

(** C5. With no [advanced] or [matchAdvanced] directive anywhere in the old
    and in the new tree, [mergeAdvancedUUIDRules] returns the new tree it was
    given and leaves every [uuid] as it was: reconciliation is the identity. *)
Theorem merge_identity_without_advanced st oldRules newRules :
  no_advanced oldRules = true →
  no_advanced newRules = true →
  mergeAdvancedUUIDRules md5 st oldRules newRules = Return st newRules.
Proof.
  intros Hold Hnew. unfold mergeAdvancedUUIDRules.
  by rewrite !search_no_advanced.
Qed.

(** *** Counting candidates *)

Lemma length_filter_delete {A} (P : A → Prop) `{!∀ x, Decision (P x)}
    (l : list A) i x :
  l !! i = Some x →
  length (filter P l)
  = (length (filter P (delete i l)) + if decide (P x) then 1 else 0)%nat.
Proof.
  revert i. induction l as [|y l IH]; intros i Hi; [by rewrite lookup_nil in Hi|].
  destruct i as [|i]; simpl in Hi.
  - injection Hi as ->. change (delete 0 (x :: l)) with l.
    rewrite filter_cons. case_decide; simpl; lia.
  - change (delete (S i) (y :: l)) with (y :: delete i l).
    rewrite !filter_cons. specialize (IH _ Hi).
    destruct (decide (P y)); simpl; rewrite IH; lia.
Qed.

Lemma filter_none {A} (P : A → Prop) `{!∀ x, Decision (P x)} (l : list A) :
  (∀ x, x ∈ l → ¬ P x) → filter P l = [].
Proof.
  induction l as [|x l IH]; intros Hall; [done|].
  rewrite filter_cons, decide_False by (apply Hall; left).
  apply IH. intros y Hy. apply Hall. by right.
Qed.

Lemma reconcile_candidates key st old e st' old' :
  reconcile key (st, old) e = inl (st', old') →
  ∀ k n,
    candidates k n old
    = (candidates k n old'
       + if decide (key = k ∧ length (parentRules e) = n) then 1 else 0)%nat.
Proof.
  intros (l & i & eo & Hget & Hi & Hlen & _ & ->)%reconcile_inl k n.
  unfold candidates. rewrite found_get_set.
  destruct (decide (key = k)) as [->|Hk]; simpl.
  - rewrite Hget; simpl. rewrite (length_filter_delete _ l i eo Hi).
    rewrite Hlen. repeat case_decide; naive_solver lia.
  - rewrite decide_False by naive_solver. lia.
Qed.

Lemma run_candidates pairs :
  ∀ s s', forEach step s pairs = inl s' →
  ∀ k n,
    candidates k n s.2
    = (candidates k n s'.2
       + length (filter (λ x, x.1 = k ∧ length (parentRules x.2) = n) pairs))%nat.
Proof.
  induction pairs as [|[key e] pairs IH]; intros [st old] s'; cbn [forEach].
  - intros [= <-] k n. simpl. lia.
  - unfold step at 1; cbn [fst snd].
    destruct (reconcile key (st, old) e) as [[st1 old1]|] eqn:Hstep; [|done].
    intros Hrun k n. rewrite (reconcile_candidates _ _ _ _ _ _ Hstep k n).
    pose proof (IH _ _ Hrun k n) as Hrest. cbn [snd] in Hrest.
    rewrite Hrest, filter_cons. simpl.
    repeat case_decide; simpl; lia.
Qed.

Lemma filter_keyed_entries_absent found k n :
  k ∉ found.*1 →
  filter (λ x, x.1 = k ∧ length (parentRules x.2) = n) (keyed_entries found) = [].
Proof.
  intros Hk. apply filter_none. intros [key e] Hin [Heq _].
  simpl in *. subst. apply elem_of_keyed_entries in Hin as (l & Hl & _).
  apply Hk. by apply (list_elem_of_fmap_2 fst) in Hl.
Qed.

Lemma candidates_keyed_entries found k n :
  NoDup found.*1 →
  length (filter (λ x, x.1 = k ∧ length (parentRules x.2) = n) (keyed_entries found))
  = candidates k n found.
Proof.
  unfold candidates, keyed_entries.
  induction found as [|[key group] rest IH]; csimpl; [done|].
  intros [Hkey Hnd]%NoDup_cons. rewrite filter_app, length_app.
  destruct (decide (key = k)) as [->|Hne]; simpl.
  - fold (keyed_entries rest). rewrite filter_keyed_entries_absent by done.
    simpl. rewrite Nat.add_0_r. clear.
    induction group as [|e group IHg]; [done|]. csimpl.
    rewrite !filter_cons. simpl. repeat case_decide; simpl; naive_solver lia.
  - rewrite IH by done.
    assert (filter (λ x, x.1 = k ∧ length (parentRules x.2) = n) (pair key <$> group)
            = []) as ->; [|done].
    apply filter_none.
    intros x (e & -> & _)%list_elem_of_fmap [? _]. done.
Qed.

Lemma elem_of_entries_search st t e :
  e ∈ entries (search md5 st t [] []) ↔ e ∈ collect md5 st t [].
Proof. by rewrite entries_search. Qed.

(** What the entries of a tree point to: an advanced directive of the tree,
    under rule nodes of the tree none of which has the [uuid] "default". *)
Lemma entries_search_objects st t e :
  e ∈ entries (search md5 st t [] []) →
  is_advanced (advNode e) = true
  ∧ d_ref (advNode e) ∈ directive_objects t
  ∧ ∀ o, o ∈ parentRules e → o ∈ rule_objects t ∧ uuid_of st o ≠ VStr "default".
Proof.
  intros He%elem_of_entries_search. split_and!.
  - by eapply collect_shape.
  - by eapply collect_directive.
  - intros o Ho. split.
    + by apply (collect_chain _ _ _ _ He) in Ho.
    + eapply collect_chain_not_default; [|done..]. by intros ? ?%elem_of_nil.
Qed.

Lemma entries_search_written st t :
  entries (search md5 st t [] []) ≫= entry_objects ⊆ objects t.
Proof.
  intros o (e & Ho & He)%list_elem_of_bind.
  apply entries_search_objects in He as (_ & Hd & Hchain).
  unfold objects. apply elem_of_app.
  apply elem_of_cons in Ho as [->|Ho]; [by right|left]. by apply Hchain.
Qed.

(** On the digest as the code computes it.  If the new tree holds an
    [advanced]/[matchAdvanced] directive whose digest no entry of the old
    tree with an ancestor chain of the same length shares,
    [mergeAdvancedUUIDRules] throws.  The message is the sentence of the
    source followed by the payload of an advanced directive [e] of the new
    tree, the one at which the loop stopped: the old entries of the digest of
    [e] with a chain of its length are as many as the new entries of that
    digest and length visited before [e], each of which used one up, so that
    none is left for [e].  No [uuid] in the store was made up (each is the
    one the object had, or one copied from an object of the old entries);
    and, the new tree being made of distinct objects, the directive named by
    the message has the [uuid] member it had before the call. *)
Theorem unmatched_advanced_metadata_fails st oldRules newRules en :
  en ∈ entries (search md5 st newRules [] []) →
  (∀ eo, eo ∈ entries (search md5 st oldRules [] []) →
         fn_md5 eo = fn_md5 en →
         length (parentRules eo) ≠ length (parentRules en)) →
  ∃ st' e pre post,
    mergeAdvancedUUIDRules md5 st oldRules newRules
    = Throw st'
        ("Cannot find Advanced Metadata in the destination rules. For safety, the Advanced behavior has to have been previously pushed on the destination config: "
         +:+ to_string (payload (options (advNode e))))
    ∧ keyed_entries (search md5 st newRules [] []) = pre ++ (fn_md5 e, e) :: post
    ∧ candidates (fn_md5 e) (length (parentRules e)) (search md5 st oldRules [] [])
      = length (filter (λ x, x.1 = fn_md5 e
                             ∧ length (parentRules x.2) = length (parentRules e)) pre)
    ∧ e ∈ entries (search md5 st newRules [] [])
    ∧ is_advanced (advNode e) = true
    ∧ copied_from st (entries (search md5 st oldRules [] []) ≫= entry_objects) st'
    ∧ (NoDup (objects newRules) →
       st' !! d_ref (advNode e) = st !! d_ref (advNode e)).
Proof.
  intros Hen Hnone. unfold mergeAdvancedUUIDRules. rewrite reconcile_all_flat.
  set (old0 := search md5 st oldRules [] []) in *.
  set (new0 := search md5 st newRules [] []) in *.
  assert (∃ err, forEach step (st, old0) (keyed_entries new0) = inr err)
    as [[st' message] Hrun].
  { apply elem_of_entries in Hen as (key & l & Hl & Hen).
    apply (run_unmatched (entries old0) _ key en).
    - apply elem_of_keyed_entries. eauto.
    - by eapply keyed_search.
    - done.
    - apply remaining_init, keyed_search. }
  rewrite Hrun.
  apply forEach_inr_split in Hrun as (pre & [k e] & post & [st1 old1] & Hsplit & Hpre & Hstep).
  apply reconcile_inr in Hstep as (-> & -> & Hleft).
  assert (entries new0 = pre.*2 ++ e :: post.*2) as Hentries.
  { by rewrite <-snd_keyed_entries, Hsplit, fmap_app, fmap_cons. }
  assert (e ∈ entries new0) as He.
  { rewrite Hentries. apply elem_of_app. right. left. }
  assert (fn_md5 e = k) as Hk.
  { assert ((k, e) ∈ keyed_entries new0) as Hin
      by (rewrite Hsplit; apply elem_of_app; right; left).
    apply elem_of_keyed_entries in Hin as (l & Hl & Hel).
    by eapply keyed_search. }
  pose proof (run_invariant st (entries old0) (pre.*2 ≫= entry_objects) pre (st, old0)) as Hinv.
  rewrite Hpre in Hinv. destruct Hinv as (_ & Hcopied & Hsame).
  { intros x Hx o Ho. apply list_elem_of_bind. exists x.2. split; [done|].
    by apply list_elem_of_fmap_2. }
  { split_and!.
    - apply remaining_init, keyed_search.
    - apply copied_from_refl.
    - apply same_outside_refl. }
  simpl in *. exists st1, e, pre, post. split_and!.
  - apply elem_of_entries_search, collect_shape in He as (-> & _). done.
  - by rewrite Hk.
  - rewrite Hk.
    pose proof (run_candidates _ _ _ Hpre k (length (parentRules e))) as Hcount.
    cbn [snd] in Hcount. rewrite Hcount.
    assert (candidates k (length (parentRules e)) old1 = 0%nat) as ->; [|done].
    unfold candidates. rewrite filter_none; [done|].
    intros eo Heo Hlen. by apply (Hleft eo).
  - done.
  - by eapply entries_search_objects.
  - done.
  - intros Hnd. apply Hsame. intros (e' & Ho & He')%list_elem_of_bind.
    unfold objects in Hnd. apply NoDup_app in Hnd as (_ & Hdisj & Hdir).
    assert (e' ∈ entries new0) as He'0.
    { rewrite Hentries. apply elem_of_app. by left. }
    apply elem_of_cons in Ho as [Heq|Ho].
    + assert (NoDup (d_ref ∘ advNode <$> entries new0)) as Hnd'.
      { unfold new0. rewrite entries_search.
        eapply sublist_NoDup; [exact Hdir|]. apply collect_directives_sublist. }
      rewrite Hentries, fmap_app, fmap_cons in Hnd'.
      apply NoDup_app in Hnd' as (_ & Hfresh & _).
      apply (Hfresh (d_ref (advNode e'))).
      * by apply (list_elem_of_fmap_2 (d_ref ∘ advNode)).
      * simpl. rewrite <-Heq. left.
    + apply entries_search_objects in He'0 as (_ & _ & Hchain).
      apply entries_search_objects in He as (_ & Hd & _).
      by apply (Hdisj _ (proj1 (Hchain _ Ho))).
Qed.

(** *** The rules above a directive *)

Lemma subtrees_self t : t ∈ subtrees t.
Proof. destruct t. left. Qed.




Lemma search_single st t e :
  entries (search md5 st t [] []) = [e] →
  search md5 st t [] [] = [(fn_md5 e, [e])] ∧ collect md5 st t [] = [e].
Proof.
  intros He. pose proof (entries_search st t) as Hperm. rewrite He in Hperm.
  symmetry in Hperm. apply Permutation_singleton_r in Hperm.
  split; [|done]. by rewrite search_collect, Hperm.
Qed.

(** C4. First part: when the old tree holds one advanced directive, under a
    chain of two ancestors, and the new tree holds one advanced directive with
    the same payload, also under two ancestors, the trees being made of
    distinct objects, [mergeAdvancedUUIDRules] returns the new tree, where
    the directive and its two ancestors now carry the [uuid] of the old
    directive and of the old ancestor at the same position, the old objects
    keeping theirs.  Second part: whenever the call returns, the new entries
    of a given digest and depth are at most as many as the old ones, since an
    old entry that served is dropped from the table. *)
Theorem merge_propagates_uuids :
  (∀ st oldRules newRules eo en a1 a2 a1' a2',
     entries (search md5 st oldRules [] []) = [eo] →
     entries (search md5 st newRules [] []) = [en] →
     parentRules eo = [a1; a2] →
     parentRules en = [a1'; a2'] →
     options (advNode eo) = options (advNode en) →
     NoDup (objects oldRules ++ objects newRules) →
     ∃ st',
       mergeAdvancedUUIDRules md5 st oldRules newRules = Return st' newRules
       ∧ uuid_of st' (d_ref (advNode en)) = uuid_of st (d_ref (advNode eo))
       ∧ uuid_of st' a1' = uuid_of st a1
       ∧ uuid_of st' a2' = uuid_of st a2
       ∧ uuid_of st' (d_ref (advNode eo)) = uuid_of st (d_ref (advNode eo))
       ∧ uuid_of st' a1 = uuid_of st a1
       ∧ uuid_of st' a2 = uuid_of st a2)
  ∧ (∀ st oldRules newRules st' rules,
       mergeAdvancedUUIDRules md5 st oldRules newRules = Return st' rules →
       ∀ key n,
         (candidates key n (search md5 st newRules [] [])
          ≤ candidates key n (search md5 st oldRules [] []))%nat).
Proof.
  split.
  - intros st oldRules newRules eo en a1 a2 a1' a2' Hold Hnew Hca Hcb Hopts Hnd.
    assert (eo ∈ entries (search md5 st oldRules [] [])) as Heo
      by (rewrite Hold; left).
    assert (en ∈ entries (search md5 st newRules [] [])) as Hen
      by (rewrite Hnew; left).
    apply search_single in Hold as [Hold Hcold], Hnew as [Hnew Hcnew].
    assert (fn_md5 eo = fn_md5 en) as Hkey.
    { apply elem_of_entries_search, collect_shape in Heo as (Hx & Hm & _).
      apply elem_of_entries_search, collect_shape in Hen as (Hx' & Hm' & _).
      by rewrite Hm, Hm', Hx, Hx', Hopts. }
    pose proof (entries_search_objects _ _ _ Heo) as (_ & Hd & Hchain).
    pose proof (entries_search_objects _ _ _ Hen) as (_ & Hd' & Hchain').
    assert (NoDup (parentRules en)) as Hndc.
    { apply elem_of_entries_search in Hen.
      eapply (collect_chain_NoDup _ _ [] en); [apply NoDup_nil_2| |by intros ? ?%elem_of_nil|done].
      unfold objects in Hnd. by apply NoDup_app in Hnd as (_ & _ & (Hnd & _)%NoDup_app). }
    rewrite Hca in Hchain. rewrite Hcb in Hchain', Hndc.
    unfold objects in Hnd.
    assert (a1 ∈ rule_objects oldRules) as Ha1 by (apply Hchain; set_solver).
    assert (a2 ∈ rule_objects oldRules) as Ha2 by (apply Hchain; set_solver).
    assert (a1' ∈ rule_objects newRules) as Ha1' by (apply Hchain'; set_solver).
    assert (a2' ∈ rule_objects newRules) as Ha2' by (apply Hchain'; set_solver).
    apply NoDup_app in Hnd as (Holdnd & Hdisj & Hnewnd).
    apply NoDup_app in Hnewnd as (_ & Hdisj' & _).
    apply NoDup_app in Holdnd as (_ & Hdisjo & _).
    assert (a1' ≠ a2') as Hne by (intros ->; apply NoDup_cons in Hndc; set_solver).
    assert (∀ o o', o ∈ [a1; a2; d_ref (advNode eo)] →
                    o' ∈ [a1'; a2'; d_ref (advNode en)] → o' ≠ o) as Hfresh.
    { intros o o' Ho Ho' ->. apply (Hdisj o).
      - apply elem_of_app.
        repeat (apply elem_of_cons in Ho as [->|Ho]); [by left..|by right|].
        by apply elem_of_nil in Ho.
      - apply elem_of_app.
        repeat (apply elem_of_cons in Ho' as [->|Ho']); [by left..|by right|].
        by apply elem_of_nil in Ho'. }
    assert (d_ref (advNode en) ≠ a1') as Hd1 by (intros Heq; apply (Hdisj' a1'); congruence).
    assert (d_ref (advNode en) ≠ a2') as Hd2 by (intros Heq; apply (Hdisj' a2'); congruence).
    unfold mergeAdvancedUUIDRules. rewrite Hold, Hnew.
    unfold reconcile_all; cbn [forEach].
    rewrite (reconcile_head _ st _ en [] eo)
      by (by rewrite ?Hca, ?Hcb; cbn [found_get]; rewrite ?decide_True).
    rewrite Hca, Hcb. cbn [copy_chain].
    eexists. split; [done|].
    assert (∀ o o', o ∈ [a1; a2; d_ref (advNode eo)] →
                    o' ∈ [a1'; a2'; d_ref (advNode en)] → o ≠ o') as Hfresh'.
    { intros o o' Ho Ho' Heq. by apply (Hfresh o o'). }
    repeat first
      [ rewrite uuid_of_set_eq
      | rewrite uuid_of_set_ne
          by first [ done | congruence
                   | apply Hfresh; repeat constructor
                   | apply Hfresh'; repeat constructor ] ].
    done.
  - intros st oldRules newRules st' rules.
    unfold mergeAdvancedUUIDRules. rewrite reconcile_all_flat.
    destruct (forEach step _ _) as [[st1 old1]|[st1 m]] eqn:Hrun; [|done].
    intros _ key n. pose proof (run_candidates _ _ _ Hrun key n) as Hcount.
    rewrite candidates_keyed_entries in Hcount by apply NoDup_keys_search.
    simpl in Hcount. lia.
Qed.

End WithDigest.

(** *** The payload that is hashed *)

Import ReconcileExamples.

(** The expression of the source, case by case: [xml] alone when it is
    truthy; otherwise the string form of [openXml] when that is not empty,
    which for an absent [openXml] is the nine letters of "undefined". *)
Lemma payload_cases o :
  payload o
  = if truthy (xml o) then xml o
    else if truthy (VStr (to_string (openXml o))) then VStr (to_string (openXml o))
    else if truthy (VStr (to_string (closeXml o))) then VStr (to_string (closeXml o))
    else VStr "".
Proof.
  unfold payload, or_else.
  destruct (truthy (xml o)) eqn:Hx; [by repeat (rewrite Hx; cbv iota)|].
  destruct (truthy (VStr (to_string (openXml o)))) eqn:Ho;
    [by repeat (rewrite Ho; cbv iota)|].
  by destruct (truthy (VStr (to_string (closeXml o)))).
Qed.

(** C6. The string that is hashed is not the concatenation of [xml],
    [openXml] and [closeXml]: with [xml] "<a/>", the payload is "<a/>"
    whatever [openXml] is, so two directives that differ in [openXml] only are
    filed in the same group, under the digest of "<a/>"; and a directive with
    [closeXml] alone has the payload "undefined". *)
Theorem payload_is_not_the_concatenation :
  payload (AdvancedOptions (VStr "<a/>") (VStr "<b>") VUndefined) = VStr "<a/>"
  ∧ payload (AdvancedOptions (VStr "<a/>") (VStr "<c>") VUndefined) = VStr "<a/>"
  ∧ payload (AdvancedOptions VUndefined VUndefined (VStr "<z/>")) = VStr "undefined"
  ∧ ∀ md5 st,
      (search md5 st twin_tree [] []).*1 = [md5 (VStr "<a/>")]
      ∧ advNode <$> entries (search md5 st twin_tree [] [])
        = [ Directive 2 "advanced" (AdvancedOptions (VStr "<a/>") (VStr "<b>") VUndefined);
            Directive 3 "advanced" (AdvancedOptions (VStr "<a/>") (VStr "<c>") VUndefined) ].
Proof.
  split_and!; try reflexivity.
  intros md5 st. unfold twin_tree. cbn [search app default foldl from_option].
  unfold id. cbn [foldl].
  rewrite !visit_advanced by reflexivity.
  unfold file_entry, found_push, entry_of, payload, or_else.
  cbn [fn_md5 options xml truthy String.eqb Ascii.eqb Bool.eqb negb found_get found_set].
  rewrite decide_True by done. cbn [found_set app].
  rewrite decide_True by done. done.
Qed.

(** C3. A payload the old tree has never seen is accepted.  The only
    advanced directive of [new_match_tree] has the content "<m></n>", the
    only one of [old_match_tree], under a chain of the same length, has the
    content "<m></m>".  No entry of the old tree has the content of the new
    directive, and yet, whatever the digest function, the reconciliation
    returns, and gives the new directive the [uuid] of the old one: the code
    hashes [openXml] alone there, and the two agree on it. *)
Theorem unseen_payload_is_accepted :
  content (options (match_advanced 4 "<m>" "</m>")) = "<m></m>"
  ∧ content (options (match_advanced 14 "<m>" "</n>")) = "<m></n>"
  ∧ payload (options (match_advanced 4 "<m>" "</m>")) = VStr "<m>"
  ∧ payload (options (match_advanced 14 "<m>" "</n>")) = VStr "<m>"
  ∧ ∀ md5,
      entries (search md5 sample_store old_match_tree [] [])
      = [entry_of md5 sample_store 2 [] (match_advanced 4 "<m>" "</m>")]
      ∧ entries (search md5 sample_store new_match_tree [] [])
        = [entry_of md5 sample_store 12 [] (match_advanced 14 "<m>" "</n>")]
      ∧ (∀ eo, eo ∈ entries (search md5 sample_store old_match_tree [] []) →
           content (options (advNode eo))
           ≠ content (options (match_advanced 14 "<m>" "</n>")))
      ∧ mergeAdvancedUUIDRules md5 sample_store old_match_tree new_match_tree
        = Return merged_match_store new_match_tree
      ∧ uuid_of sample_store 14 = VStr "n14"
      ∧ uuid_of merged_match_store 14 = uuid_of sample_store 4.
Proof.
  split_and!; try reflexivity.
  intros md5.
  assert (search md5 sample_store old_match_tree [] []
          = [(md5 (VStr "<m>"),
              [entry_of md5 sample_store 2 [] (match_advanced 4 "<m>" "</m>")])])
    as Hold.
  { reflexivity. }
  assert (search md5 sample_store new_match_tree [] []
          = [(md5 (VStr "<m>"),
              [entry_of md5 sample_store 12 [] (match_advanced 14 "<m>" "</n>")])])
    as Hnew.
  { reflexivity. }
  split_and!.
  - by rewrite Hold.
  - by rewrite Hnew.
  - rewrite Hold. intros eo Heo.
    change (eo ∈ [entry_of md5 sample_store 2 [] (match_advanced 4 "<m>" "</m>")])
      in Heo.
    apply list_elem_of_singleton in Heo. by subst eo.
  - unfold mergeAdvancedUUIDRules. rewrite Hold, Hnew.
    unfold reconcile_all. cbn [forEach].
    erewrite reconcile_head; [|cbn [found_get]; by rewrite decide_True|reflexivity].
    cbn [found_set]. reflexivity.
  - reflexivity.
  - reflexivity.
Qed.


(** *** The theorems at the sample trees *)

Lemma merge_identity_without_advanced_witness :
  mergeAdvancedUUIDRules plain_digest sample_store plain_old plain_new
  = Return sample_store plain_new.
Proof.
  apply (merge_identity_without_advanced plain_digest sample_store plain_old plain_new);
    reflexivity.
Defined.

Lemma unmatched_advanced_metadata_fails_witness :
  ∃ st' e pre post,
    mergeAdvancedUUIDRules plain_digest sample_store old_tree unseen_tree
    = Throw st'
        ("Cannot find Advanced Metadata in the destination rules. For safety, the Advanced behavior has to have been previously pushed on the destination config: "
         +:+ to_string (payload (options (advNode e))))
    ∧ keyed_entries (search plain_digest sample_store unseen_tree [] [])
      = pre ++ (fn_md5 e, e) :: post
    ∧ candidates (fn_md5 e) (length (parentRules e))
        (search plain_digest sample_store old_tree [] [])
      = length (filter (λ x, x.1 = fn_md5 e
                             ∧ length (parentRules x.2) = length (parentRules e)) pre)
    ∧ e ∈ entries (search plain_digest sample_store unseen_tree [] [])
    ∧ is_advanced (advNode e) = true
    ∧ copied_from sample_store
        (entries (search plain_digest sample_store old_tree [] []) ≫= entry_objects) st'
    ∧ (NoDup (objects unseen_tree) →
       st' !! d_ref (advNode e) = sample_store !! d_ref (advNode e)).
Proof.
  apply (unmatched_advanced_metadata_fails plain_digest sample_store
           old_tree unseen_tree (unseen_entry sample_store)).
  - change (unseen_entry sample_store ∈ [unseen_entry sample_store]). left.
  - change (∀ eo, eo ∈ [old_entry sample_store] →
              fn_md5 eo = "<b/>" →
              length (parentRules eo) ≠ length (parentRules (unseen_entry sample_store))).
    intros eo Heo%list_elem_of_singleton Hmd5. subst eo. discriminate Hmd5.
Defined.

Lemma merge_propagates_uuids_witness :
  ∃ st',
    mergeAdvancedUUIDRules plain_digest sample_store old_tree new_tree
    = Return st' new_tree
    ∧ uuid_of st' 14 = uuid_of sample_store 4
    ∧ uuid_of st' 12 = uuid_of sample_store 2
    ∧ uuid_of st' 13 = uuid_of sample_store 3
    ∧ uuid_of st' 4 = uuid_of sample_store 4
    ∧ uuid_of st' 2 = uuid_of sample_store 2
    ∧ uuid_of st' 3 = uuid_of sample_store 3.
Proof.
  apply (proj1 (merge_propagates_uuids plain_digest) sample_store old_tree new_tree
           (old_entry sample_store) (new_entry sample_store) 2 3 12 13);
    try reflexivity.
  compute_done.
Defined.


(** What the three calls give, evaluated. *)
Example merge_sample :
  mergeAdvancedUUIDRules plain_digest sample_store old_tree new_tree
  = Return merged_store new_tree.
Proof. vm_compute. reflexivity. Qed.

Example merge_unseen :
  mergeAdvancedUUIDRules plain_digest sample_store old_tree unseen_tree
  = Throw sample_store (UnmatchedAdvancedMetadata (VStr "<b/>")).
Proof. vm_compute. reflexivity. Qed.

End ReconcileTheory.

(** * Properties of the engine *)

Module EngineTheory.
Import JS Engine EngineExamples.

(** *** Promise chains *)

Lemma then_resolved {A B} (p : M A) (f : A → M B) w a w' :
  p w = (Resolved a, w') →
  (p .then f) w
  = match f a w' with
    | (Thrown e, w'') => (Rejected e, w'')
    | r => r
    end.
Proof. intros Hp. unfold then_. by rewrite Hp. Qed.

Section WithConstants.

Variables LATEST_VERSION_STAGING LATEST_VERSION_PRODUCTION LATEST_VERSION_LATEST : Z.
Variable AKAMAI_ENV_STAGING : string.

Lemma _getProperty_qualified w o hostnameEnvironment :
  qualified_in w o →
  _getProperty LATEST_VERSION_STAGING (LObj o) hostnameEnvironment w = (Resolved o, w).
Proof. intros (Hg & Hp & Hc). simpl. by rewrite Hg, Hp, Hc. Qed.

(** C7, as amended. A lookup key that is a record with truthy [groupId],
    [propertyId] and [contractId] is resolved to that very object, and the
    engine, its cache, the records and the remote service are left as they
    were; resolving again gives the same. *)
Theorem _getProperty_passthrough w o hostnameEnvironment :
  truthy (member w o "groupId") = true →
  truthy (member w o "propertyId") = true →
  truthy (member w o "contractId") = true →
  _getProperty LATEST_VERSION_STAGING (LObj o) hostnameEnvironment w = (Resolved o, w)
  ∧ (_getProperty LATEST_VERSION_STAGING (LObj o) hostnameEnvironment
     .then (λ o', _getProperty LATEST_VERSION_STAGING (LObj o') hostnameEnvironment)) w
    = (Resolved o, w).
Proof.
  intros Hg Hp Hc.
  assert (_getProperty LATEST_VERSION_STAGING (LObj o) hostnameEnvironment w
          = (Resolved o, w)) as Hres by (by apply _getProperty_qualified).
  split; [done|]. by rewrite (then_resolved _ _ _ _ _ Hres), Hres.
Qed.

Lemma then_rejected {A B} (p : M A) (f : A → M B) w e w' :
  p w = (Rejected e, w') → (p .then f) w = (Rejected e, w').
Proof. intros Hp. unfold then_. by rewrite Hp. Qed.

(** *** Sanitised names *)

Lemma sanitize_unit_class c :
  sanitize_unit c = if bool_decide (c ∈ safe_characters) then c else "_"%char.
Proof. destruct c as [[] [] [] [] [] [] [] []]; vm_compute; reflexivity. Qed.

Lemma sanitize_length s : String.length (sanitize s) = String.length s.
Proof. induction s as [|c s IH]; simpl; [done|]. by rewrite IH. Qed.

Lemma sanitize_get s i c :
  String.get i s = Some c → String.get i (sanitize s) = Some (sanitize_unit c).
Proof.
  revert i. induction s as [|c' s IH]; intros i; simpl; [done|].
  destruct i as [|i]; [by intros [= ->]|]. apply IH.
Qed.

Lemma _init_complete w : _initComplete w = true → _init w = (Resolved tt, w).
Proof. intros H. unfold _init. by rewrite H. Qed.

(** C8, as amended. The key of a lookup by string has the length of the
    string and, place by place, its character when that is one of
    [[A-Za-z0-9_.-]] and an underscore otherwise; "my example.com" becomes
    "my_example.com", the dot kept; and an initialised engine resolves a
    string to the record its cache holds under the sanitised key, by id, by
    name or by host name. *)
Theorem lookup_key_is_sanitized :
  (∀ s,
     String.length (sanitize s) = String.length s
     ∧ ∀ i c, String.get i s = Some c →
         String.get i (sanitize s)
         = Some (if bool_decide (c ∈ safe_characters) then c else "_"%char))
  ∧ sanitize "my example.com" = "my_example.com"
  ∧ (∀ w s hostnameEnvironment o,
       _initComplete w = true →
       cached LATEST_VERSION_STAGING w (sanitize s) hostnameEnvironment = Some o →
       _getProperty LATEST_VERSION_STAGING (LStr s) hostnameEnvironment w
       = (Resolved o, w)).
Proof.
  split_and!.
  - intros s. split; [apply sanitize_length|]. intros i c Hc.
    rewrite <-sanitize_unit_class. by apply sanitize_get.
  - reflexivity.
  - intros w s env o Hinit Hcached. cbn [_getProperty].
    erewrite then_resolved; last first.
    { erewrite then_resolved by (by apply _init_complete).
      rewrite Hcached. reflexivity. }
    reflexivity.
Qed.

(** *** Deactivation *)

Lemma send_answered {A} request (callback : option response → outcome A) w answer rest :
  script w = answer :: rest →
  send request callback w = (callback answer, answered w request rest).
Proof. intros Hs. unfold send, answered. simpl. by rewrite Hs. Qed.

Lemma qualified_in_heap w w' o : heap w' = heap w → qualified_in w o → qualified_in w' o.
Proof. intros Hh. unfold qualified_in, member. by rewrite Hh. Qed.

(** C9, as amended. When the answer to the deactivation request has a status
    below 200 or above 400 and its body contains "property_version_not_active",
    [_deactivateProperty] resolves (to [undefined]) after that one request,
    and [deactivate] resolves to [undefined] in turn, without touching the
    record and without polling. *)
Theorem deactivation_of_inactive_version_resolves
    w o versionId env networkEnv notes email wait r rest :
  truthy (member w o "groupId") = true →
  truthy (member w o "propertyId") = true →
  truthy (member w o "contractId") = true →
  script w = Some r :: rest →
  status_upto_400 r = false →
  includes (text r) "property_version_not_active" = true →
  _deactivateProperty LATEST_VERSION_STAGING (LObj o) versionId env notes
                      (as_array email) w
  = (Resolved None,
     answered w (Request "POST" (activations_path w o)
                   (DeactivationData versionId env (as_array email))) rest)
  ∧ ∃ version,
      deactivate LATEST_VERSION_STAGING LATEST_VERSION_PRODUCTION
                 LATEST_VERSION_LATEST AKAMAI_ENV_STAGING
                 (LObj o) networkEnv notes email wait w
      = (Resolved VUndefined,
         answered w (Request "POST" (activations_path w o)
                       (DeactivationData version (VStr networkEnv) (as_array email)))
                  rest).
Proof.
  intros Hg Hp Hc Hscript Hstatus Hbody.
  assert (qualified_in w o) as Hq by done.
  assert (∀ v e,
    _deactivateProperty LATEST_VERSION_STAGING (LObj o) v e notes (as_array email) w
    = (Resolved None,
       answered w (Request "POST" (activations_path w o)
                     (DeactivationData v e (as_array email))) rest)) as Hdeact.
  { intros v e. unfold _deactivateProperty.
    rewrite (then_resolved _ _ _ _ _ (_getProperty_qualified w o _ Hq)).
    rewrite (send_answered _ _ _ _ _ Hscript). by rewrite Hstatus, Hbody. }
  split; [apply Hdeact|].
  eexists. unfold deactivate.
  erewrite then_resolved; last first.
  { rewrite (then_resolved _ _ _ _ _ (_getProperty_qualified w o _ Hq)).
    rewrite (then_resolved _ _ _ _ _ (Hdeact _ _)). reflexivity. }
  reflexivity.
Qed.

(** *** Activation *)

(** One call of [_activateProperty] on a qualified record, the answer being
    a parsed body with a status of at most 400. *)
Lemma _activateProperty_answer fuel w o versionId env notes email acks r rest parsed :
  qualified_in w o →
  script w = Some r :: rest →
  status_upto_400 r = true →
  json r = Some parsed →
  _activateProperty_rec LATEST_VERSION_STAGING (S fuel) (LObj o) versionId env
                        notes email acks w
  = let w' := answered w (Request "POST" (activations_path w o)
                            (ActivationData versionId env notes email acks)) rest in
    match warnings_not_acknowledged parsed with
    | None => (Rejected TypeError, w')
    | Some true =>
        match warnings parsed with
        | None => (Rejected TypeError, w')
        | Some ws =>
            caught (_activateProperty_rec LATEST_VERSION_STAGING fuel (LObj o)
                      versionId env notes email (messageId <$> ws) w')
        end
    | Some false =>
        match matches parsed with
        | None => (Rejected TypeError, w')
        | Some None => (Rejected (OfBody parsed), w')
        | Some (Some id) => (Resolved id, w')
        end
    end.
Proof.
  intros Hq Hscript Hstatus Hjson. cbn [_activateProperty_rec].
  erewrite then_resolved; last first.
  { rewrite (then_resolved _ _ _ _ _ (_getProperty_qualified w o _ Hq)).
    rewrite (send_answered _ _ _ _ _ Hscript). by rewrite Hstatus, Hjson. }
  cbv zeta. destruct (warnings_not_acknowledged parsed) as [[]|]; [|..].
  - destruct (warnings parsed) as [ws|]; [|done]. unfold caught.
    by destruct (_activateProperty_rec _ _ _ _ _ _ _ _ _) as [[] ?].
  - by destruct (matches parsed) as [[id|]|].
  - done.
Qed.

(** As many resubmissions as the service sends sets of warnings. *)
Lemma retried_as_often_as_warned o versionId env notes email ids n :
  ∀ fuel w acks,
    (n < fuel)%nat →
    qualified_in w o →
    script w = replicate n (warnings_answer ids) ++ [accepted_answer] →
    ∃ w',
      _activateProperty_rec LATEST_VERSION_STAGING fuel (LObj o) versionId env
                            notes email acks w
      = (Resolved "atv_1", w')
      ∧ length (sent w') = (length (sent w) + S n)%nat
      ∧ script w' = [].
Proof.
  induction n as [|n IH]; intros [|fuel] w acks Hfuel Hq Hscript; try lia.
  - rewrite (_activateProperty_answer fuel w o versionId env notes email acks
               accepted_response [] accepted_body Hq Hscript eq_refl eq_refl).
    eexists. split_and!; [reflexivity| |done].
    simpl. by rewrite length_app.
  - cbn [replicate app] in Hscript.
    rewrite (_activateProperty_answer fuel w o versionId env notes email acks
               (warnings_response ids) _ (warnings_body ids) Hq Hscript eq_refl eq_refl).
    cbv zeta.
    assert (warnings_not_acknowledged (warnings_body ids) = Some true) as ->
      by reflexivity.
    cbn [warnings warnings_body].
    set (w1 := answered w _ _).
    destruct (IH fuel w1 (messageId <$>
                ((λ i, Warning (VStr "a warning") (VStr i)) <$> ids)))
      as (w' & Hrun & Hsent & Hrest); [lia|done|done|].
    rewrite Hrun. exists w'. split_and!; [done| |done].
    rewrite Hsent. unfold w1. simpl. rewrite length_app. simpl. lia.
Qed.

(** *** Polling *)

Lemma then_not_thrown {A B} (p : M A) (f : A → M B) w :
  (∀ e w', p w ≠ (Thrown e, w')) → ∀ e w', (p .then f) w ≠ (Thrown e, w').
Proof.
  intros Hp e w'. unfold then_. destruct (p w) as [[a|?|e0|?| |] w0] eqn:Hpw; try done.
  - by destruct (f a w0) as [[] ?].
  - by destruct (Hp e0 w0).
Qed.

Lemma caught_not_thrown {A} (r : outcome A * world) :
  (∀ e w', r ≠ (Thrown e, w')) → caught r = r.
Proof. destruct r as [[] w]; try done. intros H. by destruct (H e w). Qed.

Lemma _getProperty_not_thrown w o hostnameEnvironment :
  qualified_in w o →
  ∀ e w', _getProperty LATEST_VERSION_STAGING (LObj o) hostnameEnvironment w
          ≠ (Thrown e, w').
Proof. intros Hq e w'. by rewrite _getProperty_qualified. Qed.

Lemma _pollActivation_rec_not_thrown fuel w o activationID :
  qualified_in w o →
  ∀ e w', _pollActivation_rec LATEST_VERSION_STAGING fuel (LObj o) activationID w
          ≠ (Thrown e, w').
Proof.
  intros Hq. destruct fuel as [|fuel]; [done|]. cbn [_pollActivation_rec].
  by apply then_not_thrown, then_not_thrown, _getProperty_not_thrown.
Qed.

(** The two flags after the loop over the items: [pending] when some status
    is not "ACTIVE", and [active] when there are items and none is pending. *)
Lemma poll_flags_fold items : ∀ pending active,
  foldl (λ '(pending, active) status,
           let pending := pending || negb (bool_decide (status = VStr "ACTIVE")) in
           (pending, negb pending && bool_decide (status = VStr "ACTIVE")))
        (pending, active) items
  = (pending || existsb (λ status, negb (bool_decide (status = VStr "ACTIVE"))) items,
     match items with
     | [] => active
     | _ => negb (pending
                  || existsb (λ status, negb (bool_decide (status = VStr "ACTIVE"))) items)
     end).
Proof.
  induction items as [|status items IH]; intros pending active; simpl.
  - by rewrite orb_false_r.
  - rewrite IH. rewrite orb_assoc. f_equal.
    destruct items as [|status' items]; [|done]. simpl. rewrite orb_false_r.
    destruct pending, (bool_decide (status = VStr "ACTIVE")); done.
Qed.

Lemma poll_flags_pending items :
  (∃ status, status ∈ items ∧ status ≠ VStr "ACTIVE") →
  poll_flags items = (true, false).
Proof.
  intros (status & Hin & Hne). unfold poll_flags. rewrite poll_flags_fold. simpl.
  assert (existsb (λ status, negb (bool_decide (status = VStr "ACTIVE"))) items = true)
    as ->.
  { apply existsb_exists. exists status. split; [by apply list_elem_of_In|].
    by rewrite bool_decide_eq_false_2. }
  by destruct items.
Qed.

Lemma poll_flags_active items :
  items ≠ [] → (∀ status, status ∈ items → status = VStr "ACTIVE") →
  poll_flags items = (false, true).
Proof.
  intros Hne Hall. unfold poll_flags. rewrite poll_flags_fold. simpl.
  assert (existsb (λ status, negb (bool_decide (status = VStr "ACTIVE"))) items = false)
    as ->.
  { apply not_true_is_false. intros (status & Hin & Hs)%existsb_exists.
    apply list_elem_of_In, Hall in Hin. subst. done. }
  by destruct items.
Qed.

(** One call of [_pollActivation] on a qualified record, the answer being
    one a status is read from. *)
Lemma _pollActivation_answer fuel w o activationID r rest data items :
  qualified_in w o →
  script w = Some r :: rest →
  polled_body r = Some data →
  activations_items data = Some items →
  _pollActivation_rec LATEST_VERSION_STAGING (S fuel) (LObj o) activationID w
  = match poll_flags items with
    | (true, _) =>
        _pollActivation_rec LATEST_VERSION_STAGING fuel (LObj o) activationID
                            (polled w o activationID rest)
    | (false, true) =>
        (Resolved true, answered w (status_request w o activationID) rest)
    | (false, false) =>
        (Rejected (OfBody data), answered w (status_request w o activationID) rest)
    end.
Proof.
  intros Hq Hscript Hbody Hitems. cbn [_pollActivation_rec].
  erewrite then_resolved; last first.
  { rewrite (then_resolved _ _ _ _ _ (_getProperty_qualified w o _ Hq)).
    rewrite (send_answered _ _ _ _ _ Hscript).
    unfold polled_body in Hbody.
    destruct ((statusCode r =? 200)%Z && is_json r).
    - rewrite Hbody. reflexivity.
    - destruct (statusCode r =? 500)%Z; [|done]. injection Hbody as <-. reflexivity. }
  rewrite Hitems. destruct (poll_flags items) as [[] []]; try done.
  - unfold then_, sleep. fold (status_request w o activationID).
    fold (polled w o activationID rest).
    pose proof (_pollActivation_rec_not_thrown fuel (polled w o activationID rest)
                  o activationID (qualified_in_heap w _ o eq_refl Hq)) as Hnt.
    destruct (_pollActivation_rec _ _ _ _ _) as [[] ?]; try done.
    by destruct (Hnt e w0).
  - unfold then_, sleep. fold (status_request w o activationID).
    fold (polled w o activationID rest).
    pose proof (_pollActivation_rec_not_thrown fuel (polled w o activationID rest)
                  o activationID (qualified_in_heap w _ o eq_refl Hq)) as Hnt.
    destruct (_pollActivation_rec _ _ _ _ _) as [[] ?]; try done.
    by destruct (Hnt e w0).
Qed.

Lemma _pollActivation_continues w o activationID r rest data items :
  qualified_in w o →
  script w = Some r :: rest →
  polled_body r = Some data →
  activations_items data = Some items →
  (∃ status, status ∈ items ∧ status ≠ VStr "ACTIVE") →
  _pollActivation LATEST_VERSION_STAGING (LObj o) activationID w
  = _pollActivation LATEST_VERSION_STAGING (LObj o) activationID
                    (polled w o activationID rest).
Proof.
  intros Hq Hscript Hbody Hitems Hpending. unfold _pollActivation.
  rewrite Hscript. cbn [length].
  rewrite (_pollActivation_answer _ _ _ _ _ _ _ _ Hq Hscript Hbody Hitems).
  by rewrite (poll_flags_pending _ Hpending).
Qed.

Lemma _pollActivation_settles w o activationID r rest data items :
  qualified_in w o →
  script w = Some r :: rest →
  polled_body r = Some data →
  activations_items data = Some items →
  (∀ status, status ∈ items → status = VStr "ACTIVE") →
  _pollActivation LATEST_VERSION_STAGING (LObj o) activationID w
  = (if bool_decide (items = []) then Rejected (OfBody data) else Resolved true,
     answered w (status_request w o activationID) rest).
Proof.
  intros Hq Hscript Hbody Hitems Hall. unfold _pollActivation.
  rewrite Hscript. cbn [length].
  rewrite (_pollActivation_answer _ _ _ _ _ _ _ _ Hq Hscript Hbody Hitems).
  destruct items as [|status items]; [done|].
  by rewrite poll_flags_active.
Qed.

Lemma _pollActivation_other_answer w o activationID r rest :
  qualified_in w o →
  script w = Some r :: rest →
  statusCode r ≠ 500%Z →
  (statusCode r =? 200)%Z && is_json r = false →
  _pollActivation LATEST_VERSION_STAGING (LObj o) activationID w
  = (Rejected (OfResponse (Some r)), answered w (status_request w o activationID) rest).
Proof.
  intros Hq Hscript H500 H200. unfold _pollActivation.
  rewrite Hscript. cbn [length _pollActivation_rec].
  apply then_rejected.
  rewrite (then_resolved _ _ _ _ _ (_getProperty_qualified w o _ Hq)).
  rewrite (send_answered _ _ _ _ _ Hscript). rewrite H200.
  apply Z.eqb_neq in H500. rewrite H500. reflexivity.
Qed.

End WithConstants.

(** C1. The scenario of the claim, evaluated: the first answer reports the
    warnings w1 and w2, the answer to the resubmission reports the warning
    w3, a second distinct set.  The engine does not fail there: it submits
    the request a third time, acknowledging w3, and resolves to the activation
    id the third answer carries.  The three requests differ in the
    acknowledged warnings only. *)
Theorem warnings_acknowledged_without_ceiling :
  ∃ w',
    _activateProperty STAGING_VERSION (LObj (Own 1)) (VNum 3) (VStr "STAGING") ""
                      test_email [] (world_with [] two_warning_sets)
    = (Resolved "atv_1", w')
    ∧ sent w'
      = [ activation_request (world_with [] []) (Own 1) (VNum 3) (VStr "STAGING") ""
            test_email [];
          activation_request (world_with [] []) (Own 1) (VNum 3) (VStr "STAGING") ""
            test_email [VStr "w1"; VStr "w2"];
          activation_request (world_with [] []) (Own 1) (VNum 3) (VStr "STAGING") ""
            test_email [VStr "w3"] ]
    ∧ script w' = [].
Proof. eexists. split_and!; vm_compute; reflexivity. Qed.

(** The polling as the code runs it. Polling a qualified record, on an
    answer a status is read from (a 200 answer of JSON content, or a 500
    answer, which is taken for one item of status "PENDING"): while some item
    has a status other than "ACTIVE", whatever it is, the engine waits
    30000 ms and polls again; when every item is "ACTIVE" it resolves to
    [true] at once; and it fails with the parsed payload only when there is
    no item at all.  With the
    statuses PENDING, PENDING, ACTIVE scripted after the answer that accepts
    the activation, [activate] resolves to [true] after the third status
    request, 60000 ms later, and is still pending when the third answer does
    not come. *)
Theorem polls_until_every_item_is_active :
  (∀ L w o activationID r rest data items,
     truthy (member w o "groupId") = true →
     truthy (member w o "propertyId") = true →
     truthy (member w o "contractId") = true →
     script w = Some r :: rest →
     polled_body r = Some data →
     activations_items data = Some items →
     (∃ status, status ∈ items ∧ status ≠ VStr "ACTIVE") →
     _pollActivation L (LObj o) activationID w
     = _pollActivation L (LObj o) activationID (polled w o activationID rest))
  ∧ (∀ L w o activationID r rest data items,
       truthy (member w o "groupId") = true →
       truthy (member w o "propertyId") = true →
       truthy (member w o "contractId") = true →
       script w = Some r :: rest →
       polled_body r = Some data →
       activations_items data = Some items →
       (∀ status, status ∈ items → status = VStr "ACTIVE") →
       _pollActivation L (LObj o) activationID w
       = (if bool_decide (items = []) then Rejected (OfBody data) else Resolved true,
          answered w (status_request w o activationID) rest))
  ∧ (∀ r, statusCode r = 500%Z →
       polled_body r = Some pending_body
       ∧ activations_items pending_body = Some [VStr "PENDING"])
  ∧ (∃ w',
       activate STAGING_VERSION PRODUCTION_VERSION LATEST STAGING
                (LObj (Own 1)) 3 "STAGING" "" (Addresses test_email) true
                (world_with [] pending_twice_then_active)
       = (Resolved (VBool true), w')
       ∧ sent w'
         = [ activation_request (world_with [] []) (Own 1) (VNum 3) (VStr "STAGING") ""
               test_email [];
             status_request (world_with [] []) (Own 1) "atv_1";
             status_request (world_with [] []) (Own 1) "atv_1";
             status_request (world_with [] []) (Own 1) "atv_1" ]
       ∧ clock w' = 60000%Z)
  ∧ (∃ w',
       activate STAGING_VERSION PRODUCTION_VERSION LATEST STAGING
                (LObj (Own 1)) 3 "STAGING" "" (Addresses test_email) true
                (world_with [] (take 3 pending_twice_then_active))
       = (Pending, w')
       ∧ length (sent w') = 4%nat
       ∧ clock w' = 60000%Z).
Proof.
  split_and!.
  - intros L w o activationID r rest data items Hg Hp Hc.
    by apply _pollActivation_continues.
  - intros L w o activationID r rest data items Hg Hp Hc.
    by apply _pollActivation_settles.
  - intros r H500. unfold polled_body. rewrite H500. done.
  - eexists. split_and!; vm_compute; reflexivity.
  - eexists. split_and!; vm_compute; reflexivity.
Qed.

Lemma polls_until_every_item_is_active_witness :
  _pollActivation STAGING_VERSION (LObj (Own 1)) "atv_1"
    (world_with [] [status_answer ["PENDING"]; status_answer ["ACTIVE"]])
  = _pollActivation STAGING_VERSION (LObj (Own 1)) "atv_1"
      (polled (world_with [] [status_answer ["PENDING"]; status_answer ["ACTIVE"]])
              (Own 1) "atv_1" [status_answer ["ACTIVE"]]).
Proof.
  apply (proj1 polls_until_every_item_is_active STAGING_VERSION
           (world_with [] [status_answer ["PENDING"]; status_answer ["ACTIVE"]])
           (Own 1) "atv_1"
           (Response 200 (Some "application/json") "{...activations...}"
              (Some (Body VUndefined None VUndefined (Some [VStr "PENDING"])
                          None None None)))
           [status_answer ["ACTIVE"]]
           (Body VUndefined None VUndefined (Some [VStr "PENDING"]) None None None)
           [VStr "PENDING"]); try reflexivity.
  exists (VStr "PENDING"). split; [left|discriminate].
Defined.

(** C2. A status FAILED does not end the poll with a failure.  The last
    line of [_pollActivation] rejects with the payload when no item is
    pending and the last one is not active, but [pending] is set by every
    item whose status is not "ACTIVE", so that with an item FAILED the engine
    waits 30000 ms and polls again: it resolves to [true] when the next
    answer says ACTIVE, and with no further answer the promise stays
    pending, a second request sent. *)
Lemma failed_status_keeps_polling :
  (∃ w',
     _pollActivation STAGING_VERSION (LObj (Own 1)) "atv_1"
       (world_with [] [status_answer ["FAILED"]; status_answer ["ACTIVE"]])
     = (Resolved true, w')
     ∧ length (sent w') = 2%nat ∧ clock w' = 30000%Z)
  ∧ (∃ w',
       _pollActivation STAGING_VERSION (LObj (Own 1)) "atv_1"
         (world_with [] [status_answer ["FAILED"]])
       = (Pending, w')
       ∧ length (sent w') = 2%nat ∧ clock w' = 30000%Z).
Proof. split; eexists; split_and!; vm_compute; reflexivity. Qed.

(** C8, as stated: "my example.com" is not looked up as "my_example_com";
    an engine that knows a record under that name only does not find it. *)
Lemma my_example_com_keeps_its_dot :
  sanitize "my example.com" = "my_example.com"
  ∧ String.eqb (sanitize "my example.com") "my_example_com" = false
  ∧ _getProperty STAGING_VERSION (LStr "my example.com") STAGING_VERSION
      (world_with ["my_example_com"] [])
    = (Rejected (Value (VStr "Cannot find property:  my_example.com")),
       world_with ["my_example_com"] []).
Proof. split_and!; vm_compute; reflexivity. Qed.

Lemma lookup_key_is_sanitized_witness :
  _getProperty STAGING_VERSION (LStr "my example.com") STAGING_VERSION
    (world_with ["my_example.com"] [])
  = (Resolved (Own 1), world_with ["my_example.com"] []).
Proof.
  apply (proj2 (proj2 (lookup_key_is_sanitized STAGING_VERSION))
           (world_with ["my_example.com"] []) "my example.com" STAGING_VERSION (Own 1));
    reflexivity.
Defined.

(** C9, as stated: the same body with status 400 is parsed like an accepted
    request, has no activation link, and the promise is rejected with it. *)
Lemma deactivation_rejected_at_status_400 :
  includes (text (default (Response 0 None "" None) (not_active_answer 400)))
           "property_version_not_active" = true
  ∧ _deactivateProperty STAGING_VERSION (LObj (Own 1)) (VNum 3) (VStr "STAGING") ""
      ["test@example.com"] (world_with [] [not_active_answer 400])
    = (Rejected (OfBody (Body (VStr "/papi/v1/errors/property_version_not_active")
                              None VUndefined None None None None)),
       answered (world_with [] [not_active_answer 400])
         (Request "POST"
            "/papi/v1/properties/prp_1/activations?contractId=ctr_1&groupId=grp_1"
            (DeactivationData (VNum 3) (VStr "STAGING") ["test@example.com"])) []).
Proof. split; vm_compute; reflexivity. Qed.

Lemma deactivation_of_inactive_version_resolves_witness :
  _deactivateProperty STAGING_VERSION (LObj (Own 1)) (VNum 3) (VStr "STAGING") ""
    ["test@example.com"] (world_with [] [not_active_answer 422])
  = (Resolved None,
     answered (world_with [] [not_active_answer 422])
       (Request "POST" (activations_path (world_with [] [not_active_answer 422]) (Own 1))
          (DeactivationData (VNum 3) (VStr "STAGING") ["test@example.com"])) [])
  ∧ ∃ version,
      deactivate STAGING_VERSION PRODUCTION_VERSION LATEST STAGING
        (LObj (Own 1)) "STAGING" "" (Addresses ["test@example.com"]) true
        (world_with [] [not_active_answer 422])
      = (Resolved VUndefined,
         answered (world_with [] [not_active_answer 422])
           (Request "POST"
              (activations_path (world_with [] [not_active_answer 422]) (Own 1))
              (DeactivationData version (VStr "STAGING") ["test@example.com"])) []).
Proof.
  apply (deactivation_of_inactive_version_resolves
           STAGING_VERSION PRODUCTION_VERSION LATEST STAGING
           (world_with [] [not_active_answer 422]) (Own 1) (VNum 3) (VStr "STAGING")
           "STAGING" "" (Addresses ["test@example.com"]) true
           (Response 422 (Some "application/json")
              ("{" +:+ quoted "type" +:+ ": "
               +:+ quoted "/papi/v1/errors/property_version_not_active" +:+ "}")
              (Some (Body (VStr "/papi/v1/errors/property_version_not_active")
                          None VUndefined None None None None))) []);
    reflexivity.
Defined.

(** C7, as stated, at the record literal of the claim: the object has [id]
    and no [propertyId], is not taken for a record, and the call throws a
    TypeError ([propertyLookup.replace] is not a function). *)
Lemma _getProperty_record_with_id_throws :
  _getProperty STAGING_VERSION (LObj (Own 2)) STAGING_VERSION (world_with [] [])
  = (Thrown TypeError, world_with [] []).
Proof. vm_compute. reflexivity. Qed.

Lemma _getProperty_passthrough_witness :
  _getProperty STAGING_VERSION (LObj (Own 1)) STAGING_VERSION (world_with [] [])
  = (Resolved (Own 1), world_with [] [])
  ∧ (_getProperty STAGING_VERSION (LObj (Own 1)) STAGING_VERSION
     .then (λ o', _getProperty STAGING_VERSION (LObj o') STAGING_VERSION))
      (world_with [] [])
    = (Resolved (Own 1), world_with [] []).
Proof.
  apply (_getProperty_passthrough STAGING_VERSION (world_with [] []) (Own 1)
           STAGING_VERSION); reflexivity.
Defined.

End EngineTheory.

(** * Further properties of the reconciliation *)

Module ReconcileExtras.
Import JS Reconcile ReconcileMore ReconcileTheory ReconcileExamples.

Section WithDigest.

Variable md5 : value → string.

(** *** What [search] collects *)

Lemma advNode_collect st t :
  ∀ parents,
    advNode <$> collect md5 st t parents = filter (λ d, is_advanced d) (directives t).
Proof.
  assert (Hnode : ∀ node parents (ds : list directive),
    advNode <$> (entry_of md5 st node parents <$> filter (λ d, is_advanced d) ds)
    = filter (λ d, is_advanced d) ds).
  { intros. rewrite <-list_fmap_compose. apply list_fmap_id. }
  induction t as [node bs cs|node bs cs kids IH] using rule_ind';
    intros parents; cbn [collect directives];
    rewrite fmap_app, Hnode, (filter_app _ (bs ++ default [] cs)); f_equal.
  generalize (extend_parents st node parents). intros ps.
  induction IH as [|k kids Hk _ IHk]; [done|].
  rewrite !bind_cons, fmap_app, filter_app. by rewrite Hk, IHk.
Qed.

(** The entries [search] files are those of the directives named [advanced]
    or [matchAdvanced], among the behaviors and the criteria of every node of
    the tree: each of them once, and no other directive. *)
Theorem search_collects_the_advanced_directives st t :
  advNode <$> entries (search md5 st t [] [])
  ≡ₚ filter (λ d, is_advanced d) (directives t).
Proof. rewrite entries_search. by rewrite advNode_collect. Qed.

(** *** When the reconciliation returns *)

Lemma candidates_positive key n found :
  (0 < candidates key n found)%nat →
  ∃ l eo, found_get found key = Some l ∧ eo ∈ l ∧ length (parentRules eo) = n.
Proof.
  unfold candidates. destruct (found_get found key) as [l|]; simpl; [|lia].
  destruct (filter _ l) as [|eo l'] eqn:Hf; simpl; [lia|]. intros _.
  assert (eo ∈ filter (λ x, length (parentRules x) = n) l) as Heo
    by (rewrite Hf; left).
  apply list_elem_of_filter in Heo as [Hlen Heo]. eauto.
Qed.

Lemma reconcile_succeeds key st old e :
  (0 < candidates key (length (parentRules e)) old)%nat →
  ∃ s', reconcile key (st, old) e = inl s'.
Proof.
  intros (l & eo & Hget & Heo & Hlen)%candidates_positive.
  unfold reconcile. rewrite Hget. simpl.
  destruct (list_find_elem_of
              (λ x, length (parentRules e) = length (parentRules x)) l eo Heo)
    as [[i x] Hfind]; [done|].
  rewrite Hfind. eauto.
Qed.

Lemma run_enough pairs :
  ∀ s,
    (∀ k n,
       (length (filter (λ x, x.1 = k ∧ length (parentRules x.2) = n) pairs)
        ≤ candidates k n s.2)%nat) →
    ∃ s', forEach step s pairs = inl s'.
Proof.
  induction pairs as [|[key e] pairs IH]; intros [st old] Henough; cbn [forEach].
  { eauto. }
  unfold step at 1; cbn [fst snd].
  destruct (reconcile_succeeds key st old e) as [[st1 old1] Hstep].
  { pose proof (Henough key (length (parentRules e))) as H.
    rewrite filter_cons, decide_True in H by done. simpl in H. lia. }
  rewrite Hstep. apply IH. intros k n. cbn [snd].
  pose proof (Henough k n) as H. cbn [snd] in H.
  rewrite (reconcile_candidates _ _ _ _ _ _ Hstep k n) in H.
  rewrite filter_cons in H. simpl in H.
  repeat case_decide; simpl in H; naive_solver lia.
Qed.

(** [mergeAdvancedUUIDRules] returns, rather than throws, exactly when for
    every digest and every length of ancestor chain the old tree holds at
    least as many advanced entries as the new tree. *)
Theorem merge_returns_iff_enough_candidates st oldRules newRules :
  (∃ st', mergeAdvancedUUIDRules md5 st oldRules newRules = Return st' newRules)
  ↔ ∀ key n,
      (candidates key n (search md5 st newRules [] [])
       ≤ candidates key n (search md5 st oldRules [] []))%nat.
Proof.
  unfold mergeAdvancedUUIDRules. rewrite reconcile_all_flat. split.
  - intros [st' Hret] key n.
    destruct (forEach step _ _) as [[st1 old1]|[st1 m]] eqn:Hrun; [|done].
    pose proof (run_candidates _ _ _ Hrun key n) as Hcount.
    rewrite candidates_keyed_entries in Hcount by apply NoDup_keys_search.
    simpl in Hcount. lia.
  - intros Henough.
    destruct (run_enough (keyed_entries (search md5 st newRules [] []))
                (st, search md5 st oldRules [] [])) as [[st' old'] Hrun].
    { intros k n. rewrite candidates_keyed_entries by apply NoDup_keys_search.
      apply Henough. }
    rewrite Hrun. eauto.
Qed.

(** *** A tree against itself *)

Lemma same_uuids_refl st : same_uuids st st.
Proof. by intros o. Qed.

Lemma same_uuids_set st st' o :
  same_uuids st st' → same_uuids st (set_uuid st' o (uuid_of st' o)).
Proof.
  intros H x. destruct (decide (o = x)) as [->|Hne].
  - by rewrite uuid_of_set_eq.
  - by rewrite uuid_of_set_ne.
Qed.

Lemma copy_chain_self st chain : ∀ st', same_uuids st st' →
  same_uuids st (copy_chain st' chain chain).
Proof.
  induction chain as [|o chain IH]; intros st' H; simpl; [done|].
  by apply IH, same_uuids_set.
Qed.

Lemma found_set_set found key l l' :
  found_set (found_set found key l) key l' = found_set found key l'.
Proof.
  induction found as [|[k g] rest IH]; simpl.
  - by rewrite decide_True.
  - destruct (decide (k = key)); simpl.
    + by rewrite decide_True.
    + rewrite decide_False by done. by rewrite IH.
Qed.

Lemma self_group key group :
  ∀ st0 st old,
    same_uuids st0 st →
    found_get old key = Some group →
    ∃ st',
      forEach (reconcile key) (st, old) group = inl (st', found_set old key [])
      ∧ same_uuids st0 st'.
Proof.
  induction group as [|e group IH]; intros st0 st old Hsame Hget; cbn [forEach].
  - exists st. split; [|done]. f_equal. f_equal.
    clear -Hget. induction old as [|[k g] rest IH]; simpl in *; [done|].
    destruct (decide (k = key)); [by simplify_eq|]. by rewrite <-IH.
  - rewrite (reconcile_head key st old e group e Hget eq_refl).
    edestruct (IH st0) as (st' & Hrun & Hsame'); last first.
    { exists st'. rewrite Hrun. split; [|done]. by rewrite found_set_set. }
    + rewrite found_get_set. by rewrite decide_True.
    + apply same_uuids_set, copy_chain_self, Hsame.
Qed.

Lemma self_groups rest :
  ∀ st0 st old,
    same_uuids st0 st →
    NoDup rest.*1 →
    (∀ key group, (key, group) ∈ rest → found_get old key = Some group) →
    ∃ st' old', reconcile_all (st, old) rest = inl (st', old') ∧ same_uuids st0 st'.
Proof.
  unfold reconcile_all.
  induction rest as [|[key group] rest IH]; intros st0 st old Hsame Hnd Hget;
    cbn [forEach].
  { eauto. }
  apply NoDup_cons in Hnd as [Hkey Hnd].
  destruct (self_group key group st0 st old Hsame) as (st1 & Hrun & Hsame1).
  { apply Hget. left. }
  rewrite Hrun. apply IH; [done..|].
  intros k g Hin. rewrite found_get_set, decide_False; [apply Hget; by right|].
  intros ->. apply Hkey. by apply (list_elem_of_fmap_2 fst) in Hin.
Qed.

Lemma found_get_elem_of_NoDup found key group :
  NoDup found.*1 → (key, group) ∈ found → found_get found key = Some group.
Proof.
  induction found as [|[k g] rest IH]; csimpl; [by intros _ ?%elem_of_nil|].
  intros [Hk Hnd]%NoDup_cons [[= -> ->]|Hin]%elem_of_cons.
  - by rewrite decide_True.
  - rewrite decide_False; [by apply IH|]. intros ->. apply Hk.
    by apply (list_elem_of_fmap_2 fst) in Hin.
Qed.

(** Reconciling a tree against itself never throws, returns the tree, and
    leaves every object with the [uuid] it had. *)
Theorem merge_of_a_tree_with_itself st t :
  ∃ st', mergeAdvancedUUIDRules md5 st t t = Return st' t ∧ same_uuids st st'.
Proof.
  unfold mergeAdvancedUUIDRules.
  destruct (self_groups (search md5 st t [] []) st st (search md5 st t [] []))
    as (st' & old' & Hrun & Hsame).
  - apply same_uuids_refl.
  - apply NoDup_keys_search.
  - intros key group. apply found_get_elem_of_NoDup, NoDup_keys_search.
  - rewrite Hrun. eauto.
Qed.


(** *** Where the [uuid] of a new directive comes from *)

Lemma uuid_of_copy_chain_ne st news olds o :
  o ∉ news → uuid_of (copy_chain st news olds) o = uuid_of st o.
Proof.
  intros Ho. unfold uuid_of.
  by rewrite (same_outside_chain news st news (reflexivity _) olds st
                (same_outside_refl _ _) o Ho).
Qed.

Lemma run_same_outside pairs s s' o :
  forEach step s pairs = inl s' →
  o ∉ pairs.*2 ≫= entry_objects →
  uuid_of s'.1 o = uuid_of s.1 o.
Proof.
  revert s. induction pairs as [|[key e] pairs IH]; intros [st old]; cbn [forEach].
  { by intros [= <-]. }
  unfold step at 1; cbn [fst snd].
  destruct (reconcile key (st, old) e) as [[st1 old1]|] eqn:Hstep; [|done].
  intros Hrun Ho. rewrite fmap_cons, bind_cons, elem_of_app in Ho. cbn [snd] in Ho.
  rewrite (IH _ Hrun) by tauto. cbn [fst].
  apply reconcile_inl in Hstep as (l & i & eo & _ & _ & _ & -> & _).
  unfold entry_objects in Ho. rewrite elem_of_cons in Ho.
  rewrite uuid_of_set_ne by naive_solver.
  apply uuid_of_copy_chain_ne. tauto.
Qed.

Lemma run_directives st0 initial pairs :
  ∀ s s',
    (∀ eo o, eo ∈ initial → o ∈ pairs.*2 ≫= entry_objects →
             d_ref (advNode eo) ≠ o) →
    NoDup (d_ref ∘ advNode <$> pairs.*2) →
    (∀ e e', e ∈ pairs.*2 → e' ∈ pairs.*2 → d_ref (advNode e) ∉ parentRules e') →
    remaining initial s.2 →
    (∀ eo, eo ∈ initial →
       uuid_of s.1 (d_ref (advNode eo)) = uuid_of st0 (d_ref (advNode eo))) →
    forEach step s pairs = inl s' →
    ∀ x, x ∈ pairs →
      ∃ eo, eo ∈ initial
        ∧ fn_md5 eo = x.1
        ∧ length (parentRules eo) = length (parentRules x.2)
        ∧ uuid_of s'.1 (d_ref (advNode x.2)) = uuid_of st0 (d_ref (advNode eo)).
Proof.
  induction pairs as [|[key e] pairs IH];
    intros [st old] s' Hold Hnd Hdir Hrem Hsame; cbn [forEach].
  { by intros _ x ?%elem_of_nil. }
  unfold step at 1; cbn [fst snd] in *.
  destruct (reconcile key (st, old) e) as [[st1 old1]|] eqn:Hstep; [|done].
  intros Hrun x Hx. rewrite fmap_cons in Hold, Hnd, Hdir. cbn [snd] in *.
  rewrite fmap_cons in Hnd. apply NoDup_cons in Hnd as [Hfresh Hnd].
  pose proof (remaining_step _ _ _ _ _ _ _ Hrem Hstep) as Hrem1.
  apply reconcile_inl in Hstep as (l & i & eo & Hget & Hi & Hlen & -> & ->).
  apply list_elem_of_lookup_2 in Hi. destruct (Hrem _ _ _ Hget Hi) as [Heo Hkey].
  apply elem_of_cons in Hx as [->|Hx].
  - exists eo. split_and!; [done..|]. cbn [fst snd].
    rewrite (run_same_outside _ _ _ _ Hrun); cbn [fst].
    + rewrite uuid_of_set_eq, uuid_of_copy_chain_ne; [by apply Hsame|].
      intros Hin. apply (Hold eo (d_ref (advNode eo)) Heo); [|done].
      apply elem_of_app. left. by right.
    + intros (e' & Ho & He')%list_elem_of_bind.
      apply elem_of_cons in Ho as [Ho|Ho].
      * apply Hfresh. simpl. rewrite Ho.
        by apply (list_elem_of_fmap_2 (d_ref ∘ advNode)) in He'.
      * apply (Hdir e e'); [by left|by right|done].
  - eapply (IH (_, _) s'); [| | | | |exact Hrun|exact Hx]; cbn [fst snd].
    + intros eo' o Heo' Ho. apply Hold; [done|]. apply elem_of_app. by right.
    + done.
    + intros e1 e2 H1 H2. apply Hdir; by right.
    + done.
    + intros eo' Heo'. rewrite uuid_of_set_ne, uuid_of_copy_chain_ne.
      * by apply Hsame.
      * intros Hin. apply (Hold eo' (d_ref (advNode eo')) Heo'); [|done].
        apply elem_of_app. left. by right.
      * intros Heq. apply (Hold eo' (d_ref (advNode e)) Heo'); [|done].
        apply elem_of_app. left. by left.
Qed.

(** When [mergeAdvancedUUIDRules] returns, the new tree being made of
    distinct objects none of which belongs to the old tree, every advanced
    directive of the new tree carries the [uuid] that an advanced directive
    of the old tree had before the call: one with the same digest, under an
    ancestor chain of the same length. *)
Theorem merge_gives_each_directive_an_old_uuid st oldRules newRules st' rules :
  mergeAdvancedUUIDRules md5 st oldRules newRules = Return st' rules →
  NoDup (objects newRules) →
  (∀ o, o ∈ objects oldRules → o ∉ objects newRules) →
  ∀ e, e ∈ entries (search md5 st newRules [] []) →
    ∃ eo, eo ∈ entries (search md5 st oldRules [] [])
      ∧ fn_md5 eo = fn_md5 e
      ∧ length (parentRules eo) = length (parentRules e)
      ∧ uuid_of st' (d_ref (advNode e)) = uuid_of st (d_ref (advNode eo)).
Proof.
  unfold mergeAdvancedUUIDRules. rewrite reconcile_all_flat.
  set (old0 := search md5 st oldRules [] []).
  set (new0 := search md5 st newRules [] []).
  destruct (forEach step (st, old0) (keyed_entries new0)) as [[st1 old1]|[st1 m]]
    eqn:Hrun; [|done].
  intros [= <- <-] Hnd Hdisj e He.
  apply elem_of_entries in He as (key & l & Hl & He).
  assert (fn_md5 e = key) as Hkey by (by eapply keyed_search).
  destruct (run_directives st (entries old0) (keyed_entries new0)
              (st, old0) (st1, old1)) with (x := (key, e))
    as (eo & Heo & Hmd5 & Hlen & Huuid); cbn [fst snd] in *.
  - rewrite snd_keyed_entries. intros eo o Heo Ho Heq. subst o.
    apply entries_search_written in Ho.
    apply (Hdisj (d_ref (advNode eo))); [|done].
    apply entries_search_objects in Heo as (_ & Hd & _).
    unfold objects. apply elem_of_app. by right.
  - rewrite snd_keyed_entries. unfold new0. rewrite list_fmap_compose.
    rewrite entries_search, <-list_fmap_compose.
    unfold objects in Hnd. apply NoDup_app in Hnd as (_ & _ & Hnd).
    eapply sublist_NoDup; [exact Hnd|]. apply collect_directives_sublist.
  - rewrite snd_keyed_entries. intros e1 e2 H1 H2 Hin.
    unfold objects in Hnd. apply NoDup_app in Hnd as (_ & Hno & _).
    apply entries_search_objects in H1 as (_ & Hd & _).
    apply entries_search_objects in H2 as (_ & _ & Hchain).
    by apply (Hno _ (proj1 (Hchain _ Hin))).
  - apply remaining_init, keyed_search.
  - done.
  - done.
  - apply elem_of_keyed_entries. eauto.
  - exists eo. by rewrite Hkey.
Qed.

(** *** Where the [uuid] of a new ancestor comes from *)

Lemma copy_chain_lookup news : ∀ st olds i a a0,
  NoDup news →
  (∀ o, o ∈ olds → o ∉ news) →
  news !! i = Some a →
  olds !! i = Some a0 →
  uuid_of (copy_chain st news olds) a = uuid_of st a0.
Proof.
  induction news as [|n news IH]; intros st [|o olds] i a a0 Hnd Hdisj Ha Ha0;
    try done.
  apply NoDup_cons in Hnd as [Hn Hnd]. cbn [copy_chain].
  destruct i as [|i]; simpl in Ha, Ha0.
  - injection Ha as ->. injection Ha0 as ->.
    by rewrite uuid_of_copy_chain_ne, uuid_of_set_eq.
  - assert (∀ x, x ∈ olds → x ∉ news) as Hdisj'.
    { intros x Hx Hin. apply (Hdisj x); by right. }
    rewrite (IH _ olds i a a0 Hnd Hdisj' Ha Ha0).
    apply uuid_of_set_ne. intros ->.
    apply (Hdisj a0); [right; by eapply list_elem_of_lookup_2|left].
Qed.

Lemma collect_prefix st t :
  ∀ parents e, e ∈ collect md5 st t parents →
    ∃ suffix, parentRules e = parents ++ suffix ∧ suffix ⊆ rule_objects t.
Proof.
  assert (Hext : ∀ node parents,
    ∃ suffix, extend_parents st node parents = parents ++ suffix ∧ suffix ⊆ [node]).
  { intros node parents. unfold extend_parents. case_decide.
    - exists []. split; [by rewrite app_nil_r|]. by intros o ?%elem_of_nil.
    - by exists [node]. }
  induction t as [node bs cs|node bs cs kids IH] using rule_ind';
    intros parents e; simpl; rewrite elem_of_app.
  - intros [(d & -> & _)%elem_of_collect_node|[]%elem_of_nil]. simpl.
    destruct (Hext node parents) as (suffix & -> & Hsub). eauto.
  - destruct (Hext node parents) as (suffix & Hsuffix & Hsub).
    intros [(d & -> & _)%elem_of_collect_node|(k & He & Hk)%list_elem_of_bind].
    + simpl. exists suffix. split; [done|]. set_solver.
    + eapply Forall_forall in IH; [|exact Hk].
      destruct (IH _ _ He) as (suffix' & -> & Hsub').
      exists (suffix ++ suffix'). rewrite Hsuffix, app_assoc. split; [done|].
      intros o [Ho|Ho]%elem_of_app.
      * apply Hsub, list_elem_of_singleton in Ho as ->. left.
      * right. apply list_elem_of_bind. exists k. split; [by apply Hsub'|done].
Qed.

Lemma NoDup_bind_lookup {A B} (f : A → list B) (l : list A) p1 p2 x1 x2 b :
  NoDup (l ≫= f) →
  l !! p1 = Some x1 → l !! p2 = Some x2 →
  b ∈ f x1 → b ∈ f x2 → p1 = p2.
Proof.
  revert p1 p2. induction l as [|y l IH]; intros p1 p2 Hnd H1 H2 Hb1 Hb2; [done|].
  rewrite bind_cons in Hnd. apply NoDup_app in Hnd as (_ & Hdisj & Hnd).
  destruct p1 as [|p1], p2 as [|p2]; simpl in H1, H2; simplify_eq.
  - done.
  - exfalso. apply (Hdisj b Hb1). apply list_elem_of_bind.
    exists x2. split; [done|]. by eapply list_elem_of_lookup_2.
  - exfalso. apply (Hdisj b Hb2). apply list_elem_of_bind.
    exists x1. split; [done|]. by eapply list_elem_of_lookup_2.
  - f_equal. by eapply IH.
Qed.

Lemma lookup_in_prefix (ps suffix : list ref) i a :
  NoDup (ps ++ suffix) → (ps ++ suffix) !! i = Some a → a ∈ ps → ps !! i = Some a.
Proof.
  intros Hnd Hi (p & Hp)%list_elem_of_lookup_1.
  assert ((ps ++ suffix) !! p = Some a) as Hp' by (by apply lookup_app_l_Some).
  by rewrite (NoDup_lookup _ _ _ _ Hnd Hi Hp').
Qed.

Lemma NoDup_bind_elem_of {A B} (f : A → list B) (l : list A) x :
  NoDup (l ≫= f) → x ∈ l → NoDup (f x).
Proof.
  intros Hnd (l1 & l2 & ->)%list_elem_of_split.
  rewrite bind_app, bind_cons in Hnd.
  by apply NoDup_app in Hnd as (_ & _ & (Hx & _)%NoDup_app).
Qed.

(** A rule node stands at the same place in every ancestor chain it is in. *)
Lemma collect_index st t :
  ∀ parents e1 e2 i j a,
    NoDup (parents ++ rule_objects t) →
    e1 ∈ collect md5 st t parents →
    e2 ∈ collect md5 st t parents →
    parentRules e1 !! i = Some a →
    parentRules e2 !! j = Some a →
    i = j.
Proof.
  induction t as [node bs cs|node bs cs kids IH] using rule_ind';
    intros parents e1 e2 i j a Hnd; simpl in Hnd |- *;
    apply NoDup_app in Hnd as (Hps & Hdisj & [Hnode Hkids]%NoDup_cons);
    assert (node ∉ parents) as Hn by (intros Hn; apply (Hdisj _ Hn); left);
    pose proof (extend_parents_NoDup st node parents Hps Hn) as Hnd';
    rewrite !elem_of_app.
  - intros [(d1 & -> & _)%elem_of_collect_node|[]%elem_of_nil]
           [(d2 & -> & _)%elem_of_collect_node|[]%elem_of_nil]. simpl.
    by apply NoDup_lookup.
  - assert (∀ o, o ∈ extend_parents st node parents → o ∉ kids ≫= rule_objects)
      as Hdisj'.
    { intros o [Ho|Ho]%extend_parents_subseteq%elem_of_app Hin.
      - apply (Hdisj _ Ho). by right.
      - apply list_elem_of_singleton in Ho as ->. done. }
    assert (∀ e, e ∈ collect md5 st (Rule node bs cs (Some kids)) parents →
              ∃ suffix,
                parentRules e = extend_parents st node parents ++ suffix
                ∧ NoDup (parentRules e)
                ∧ (suffix = []
                   ∨ ∃ p k, kids !! p = Some k
                            ∧ e ∈ collect md5 st k (extend_parents st node parents)
                            ∧ suffix ⊆ rule_objects k)) as Hshape.
    { intros e. simpl. rewrite elem_of_app.
      intros [(d & -> & _)%elem_of_collect_node|(k & He & Hk)%list_elem_of_bind].
      - exists []. simpl. rewrite app_nil_r. eauto.
      - destruct (collect_prefix _ _ _ _ He) as (suffix & Hchain & Hsub).
        exists suffix. split_and!; [done| |].
        + eapply collect_chain_NoDup; [exact Hnd'| | |exact He].
          * by eapply NoDup_bind_elem_of.
          * intros o Ho Hin. apply (Hdisj' o Ho), list_elem_of_bind. eauto.
        + right. apply list_elem_of_lookup_1 in Hk as [p Hp]. eauto 10. }
    intros H1 H2 Hi Hj.
    assert (e1 ∈ collect md5 st (Rule node bs cs (Some kids)) parents) as He1
      by (simpl; by rewrite elem_of_app).
    assert (e2 ∈ collect md5 st (Rule node bs cs (Some kids)) parents) as He2
      by (simpl; by rewrite elem_of_app).
    destruct (Hshape _ He1) as (s1 & Hc1 & Hnd1 & Hs1).
    destruct (Hshape _ He2) as (s2 & Hc2 & Hnd2 & Hs2).
    destruct (decide (a ∈ extend_parents st node parents)) as [Ha|Ha].
    + rewrite Hc1 in Hi, Hnd1. rewrite Hc2 in Hj, Hnd2.
      apply (NoDup_lookup _ _ _ a Hnd').
      * by apply (lookup_in_prefix _ s1).
      * by apply (lookup_in_prefix _ s2).
    + assert (a ∈ s1) as Ha1.
      { apply list_elem_of_lookup_2 in Hi. rewrite Hc1 in Hi.
        by apply elem_of_app in Hi as [?|?]. }
      assert (a ∈ s2) as Ha2.
      { apply list_elem_of_lookup_2 in Hj. rewrite Hc2 in Hj.
        by apply elem_of_app in Hj as [?|?]. }
      destruct Hs1 as [->|(p1 & k1 & Hp1 & Hk1 & Hsub1)];
        [by apply elem_of_nil in Ha1|].
      destruct Hs2 as [->|(p2 & k2 & Hp2 & Hk2 & Hsub2)];
        [by apply elem_of_nil in Ha2|].
      assert (p1 = p2) as ->.
      { by eapply (NoDup_bind_lookup rule_objects kids p1 p2 k1 k2 a);
          [| | |apply Hsub1|apply Hsub2]. }
      assert (k2 = k1) as -> by congruence.
      apply list_elem_of_lookup_2 in Hp1.
      eapply Forall_forall in IH; [|exact Hp1].
      eapply (IH _ e1 e2); [|done..].
      apply NoDup_app. split_and!; [done| |by eapply NoDup_bind_elem_of].
      intros o Ho Hin. apply (Hdisj' o Ho), list_elem_of_bind. eauto.
Qed.

Lemma run_ancestors st0 initial pairs :
  ∀ s s',
    (∀ eo o x, eo ∈ initial → o ∈ parentRules eo → x ∈ pairs.*2 →
               o ∉ entry_objects x) →
    (∀ x, x ∈ pairs.*2 → NoDup (parentRules x)) →
    (∀ x y i a, x ∈ pairs.*2 → y ∈ pairs.*2 →
                parentRules x !! i = Some a → a ∈ parentRules y →
                parentRules y !! i = Some a) →
    (∀ x y, x ∈ pairs.*2 → y ∈ pairs.*2 → d_ref (advNode x) ∉ parentRules y) →
    remaining initial s.2 →
    (∀ eo o, eo ∈ initial → o ∈ parentRules eo → uuid_of s.1 o = uuid_of st0 o) →
    forEach step s pairs = inl s' →
    ∀ x i a, x ∈ pairs.*2 → parentRules x !! i = Some a →
      ∃ eo a0, eo ∈ initial
        ∧ parentRules eo !! i = Some a0
        ∧ uuid_of s'.1 a = uuid_of st0 a0.
Proof.
  induction pairs as [|[key e] pairs IH];
    intros [st old] s' Hold Hnd Hindex Hdir Hrem Hsame; cbn [forEach].
  { by intros _ x i a ?%elem_of_nil. }
  unfold step at 1; cbn [fst snd] in *.
  destruct (reconcile key (st, old) e) as [[st1 old1]|] eqn:Hstep; [|done].
  intros Hrun x i a Hx Hi. rewrite fmap_cons in Hold, Hnd, Hindex, Hdir, Hx.
  cbn [snd] in *.
  pose proof (remaining_step _ _ _ _ _ _ _ Hrem Hstep) as Hrem1.
  apply reconcile_inl in Hstep as (l & p & eo & Hget & Hp & Hlen & Hst1 & ->).
  apply list_elem_of_lookup_2 in Hp. destruct (Hrem _ _ _ Hget Hp) as [Heo _].
  assert (∀ eo' o, eo' ∈ initial → o ∈ parentRules eo' →
            uuid_of st1 o = uuid_of st0 o) as Hsame1.
  { intros eo' o Heo' Ho. rewrite Hst1.
    pose proof (Hold eo' o e Heo' Ho ltac:(left)) as Hfresh.
    unfold entry_objects in Hfresh. rewrite not_elem_of_cons in Hfresh.
    rewrite uuid_of_set_ne, uuid_of_copy_chain_ne by naive_solver.
    by apply (Hsame eo'). }
  assert (∀ y j b, y ∈ pairs.*2 → parentRules y !! j = Some b →
            ∃ eo a0, eo ∈ initial ∧ parentRules eo !! j = Some a0
                     ∧ uuid_of s'.1 b = uuid_of st0 a0) as Hrest.
  { eapply (IH (st1, _) s'); [| | | | | |exact Hrun]; cbn [fst snd].
    - intros eo' o y Heo' Ho Hy. apply (Hold eo'); [done..|by right].
    - intros y Hy. apply Hnd. by right.
    - intros y z j b Hy Hz. apply Hindex; by right.
    - intros y z Hy Hz. apply Hdir; by right.
    - done.
    - done. }
  apply elem_of_cons in Hx as [->|Hx]; [|by apply (Hrest x)].
  destruct (decide (a ∈ pairs.*2 ≫= parentRules)) as [Hin|Hout].
  - apply list_elem_of_bind in Hin as (y & Ha & Hy).
    apply (Hrest y i a Hy).
    apply (Hindex e y); [by left|by right|done..].
  - destruct (lookup_lt_is_Some_2 (parentRules eo) i) as [a0 Ha0].
    { rewrite <-Hlen. by eapply lookup_lt_Some. }
    exists eo, a0. split_and!; [done..|].
    rewrite (run_same_outside _ _ _ _ Hrun); cbn [fst].
    + rewrite Hst1, uuid_of_set_ne.
      * rewrite (copy_chain_lookup (parentRules e) st (parentRules eo) i a a0).
        -- apply (Hsame eo); [done|]. by eapply list_elem_of_lookup_2.
        -- apply Hnd. left.
        -- intros o Ho Hin. apply (Hold eo o e Heo Ho); [left|by right].
        -- done.
        -- done.
      * intros Heq. apply (Hdir e e); [left..|].
        rewrite Heq. by eapply list_elem_of_lookup_2.
    + intros (y & Ho & Hy)%list_elem_of_bind.
      apply elem_of_cons in Ho as [->|Ho].
      * apply (Hdir y e); [by right|left|]. by eapply list_elem_of_lookup_2.
      * apply Hout, list_elem_of_bind. eauto.
Qed.

(** When [mergeAdvancedUUIDRules] returns, the new tree being made of
    distinct objects none of which belongs to the old tree, every rule node
    on the ancestor chain of an advanced directive of the new tree carries
    the [uuid] that a rule node of the old tree had before the call: one that
    stands at the same place on the ancestor chain of an advanced directive
    of the old tree. *)
Theorem merge_gives_each_ancestor_an_old_uuid st oldRules newRules st' rules :
  mergeAdvancedUUIDRules md5 st oldRules newRules = Return st' rules →
  NoDup (objects newRules) →
  (∀ o, o ∈ objects oldRules → o ∉ objects newRules) →
  ∀ e i a,
    e ∈ entries (search md5 st newRules [] []) →
    parentRules e !! i = Some a →
    ∃ eo a0,
      eo ∈ entries (search md5 st oldRules [] [])
      ∧ parentRules eo !! i = Some a0
      ∧ uuid_of st' a = uuid_of st a0.
Proof.
  unfold mergeAdvancedUUIDRules. rewrite reconcile_all_flat.
  set (old0 := search md5 st oldRules [] []).
  set (new0 := search md5 st newRules [] []).
  destruct (forEach step (st, old0) (keyed_entries new0)) as [[st1 old1]|[st1 m]]
    eqn:Hrun; [|done].
  intros [= <- <-] Hnd Hdisj e i a He Hi.
  pose proof Hnd as Hobjects. unfold objects in Hnd.
  apply NoDup_app in Hnd as (Hrules & Hno & Hdirs).
  eapply (run_ancestors st (entries old0) (keyed_entries new0) (st, old0) (st1, old1));
    rewrite ?snd_keyed_entries; cbn [fst snd]; [| | | | | |exact Hrun|exact He|exact Hi].
  - intros eo o x Heo Ho Hx Hin.
    apply (Hdisj o).
    + apply entries_search_objects in Heo as (_ & _ & Hchain).
      unfold objects. apply elem_of_app. left. by apply Hchain.
    + apply (entries_search_written md5 st newRules o), list_elem_of_bind. eauto.
  - intros x Hx%elem_of_entries_search.
    eapply (collect_chain_NoDup _ _ _ [] x); [apply NoDup_nil_2|done| |done].
    by intros ? ?%elem_of_nil.
  - intros x y j b Hx%elem_of_entries_search Hy%elem_of_entries_search Hj
           (j' & Hj')%list_elem_of_lookup_1.
    by rewrite (collect_index st newRules [] x y j j' b Hrules Hx Hy Hj Hj').
  - intros x y Hx Hy Hin.
    apply entries_search_objects in Hx as (_ & Hd & _).
    apply entries_search_objects in Hy as (_ & _ & Hchain).
    by apply (Hno _ (proj1 (Hchain _ Hin))).
  - apply remaining_init, keyed_search.
  - done.
Qed.

End WithDigest.

Lemma merge_gives_each_directive_an_old_uuid_witness :
  ∃ eo, eo ∈ entries (search plain_digest sample_store old_tree [] [])
    ∧ fn_md5 eo = fn_md5 (new_entry sample_store)
    ∧ length (parentRules eo) = length (parentRules (new_entry sample_store))
    ∧ uuid_of merged_store (d_ref (advNode (new_entry sample_store)))
      = uuid_of sample_store (d_ref (advNode eo)).
Proof.
  apply (merge_gives_each_directive_an_old_uuid plain_digest sample_store
           old_tree new_tree merged_store new_tree).
  - vm_compute. reflexivity.
  - compute_done.
  - apply (Forall_forall (λ o, o ∉ objects new_tree)). compute_done.
  - vm_compute. left.
Defined.

Lemma merge_gives_each_ancestor_an_old_uuid_witness :
  ∃ eo a0, eo ∈ entries (search plain_digest sample_store old_tree [] [])
    ∧ parentRules eo !! 1%nat = Some a0
    ∧ uuid_of merged_store 13%nat = uuid_of sample_store a0.
Proof.
  apply (merge_gives_each_ancestor_an_old_uuid plain_digest sample_store
           old_tree new_tree merged_store new_tree)
    with (e := new_entry sample_store).
  - vm_compute. reflexivity.
  - compute_done.
  - apply (Forall_forall (λ o, o ∉ objects new_tree)). compute_done.
  - vm_compute. left.
  - reflexivity.
Defined.

End ReconcileExtras.

(** * Further properties of the engine *)

Module EngineExtras.
Import JS Engine EngineMore EngineExamples EngineTheory.

(** *** Strings *)

Lemma sanitize_unit_idemp c : sanitize_unit (sanitize_unit c) = sanitize_unit c.
Proof. destruct c as [[] [] [] [] [] [] [] []]; vm_compute; reflexivity. Qed.

Lemma sanitize_unit_safe c : sanitize_unit c ∈ safe_characters.
Proof.
  rewrite sanitize_unit_class. case_bool_decide; [done|compute_done].
Qed.

(** Sanitising a key a second time changes nothing, and a sanitised key is
    made of the characters [[A-Za-z0-9_.-]] only: a key read back from the
    cache can be looked up as it is. *)
Theorem sanitize_is_idempotent s :
  sanitize (sanitize s) = sanitize s
  ∧ ∀ i c, String.get i (sanitize s) = Some c → c ∈ safe_characters.
Proof.
  split.
  - induction s as [|c s IH]; simpl; [done|]. by rewrite sanitize_unit_idemp, IH.
  - induction s as [|c' s IH]; intros i c; simpl; [done|].
    destruct i as [|i]; [|apply IH]. intros [= <-]. apply sanitize_unit_safe.
Qed.

Lemma span_id_run s run tail :
  span_id s = (run, tail) →
  s = run +:+ tail ∧ ∀ i c, String.get i run = Some c → is_id c = true.
Proof.
  revert run tail. induction s as [|c s IH]; intros run tail; simpl.
  { intros [= <- <-]. split; [done|]. by intros []. }
  destruct (is_id c) eqn:Hc.
  - destruct (span_id s) as [run' tail'] eqn:Hs. intros [= <- <-].
    destruct (IH _ _ eq_refl) as [-> Hrun]. split; [done|].
    intros [|i] c'; simpl; [by intros [= <-]|apply Hrun].
  - intros [= <- <-]. split; [done|]. by intros [].
Qed.

Lemma strip_prefix_app p s rest : strip_prefix p s = Some rest → s = p +:+ rest.
Proof.
  revert s. induction p as [|a p IH]; intros s; simpl; [by intros [= ->]|].
  destruct s as [|b s]; [done|]. destruct (Ascii.eqb_spec a b) as [->|]; [|done].
  intros ->%IH. done.
Qed.

Lemma prefix_append p t : String.prefix p (p +:+ t) = true.
Proof.
  induction p as [|a p IH]; simpl; [by destruct t|].
  by destruct (ascii_dec a a).
Qed.

Lemma append_assoc (p q r : string) : (p +:+ q) +:+ r = p +:+ (q +:+ r).
Proof.
  induction p as [|a p IH]; [done|].
  change (String a ((p +:+ q) +:+ r) = String a (p +:+ (q +:+ r))). by f_equal.
Qed.

Lemma includes_here s t : String.prefix t s = true → includes s t = true.
Proof. intros H. destruct s; cbn [includes]; by rewrite H. Qed.

Lemma includes_further c s t : includes s t = true → includes (String c s) t = true.
Proof. intros H. cbn [includes]. rewrite H. apply orb_true_r. Qed.

(** The activation id read off an activation link is never empty, is made
    of the characters [[a-z0-9_]] only, and stands in the link right after
    "activations/". *)
Theorem activation_id_is_a_run_after_activations s id :
  activation_id s = Some id →
  id ≠ ""
  ∧ (∀ i c, String.get i id = Some c → is_id c = true)
  ∧ includes s ("activations/" +:+ id) = true.
Proof.
  induction s as [|c s IH].
  { done. }
  assert (activation_id s = Some id →
          id ≠ ""
          ∧ (∀ i c, String.get i id = Some c → is_id c = true)
          ∧ includes (String c s) ("activations/" +:+ id) = true) as IH'.
  { intros (? & ? & ?)%IH. split_and!; [done..|]. by apply includes_further. }
  clear IH. cbn [activation_id].
  destruct (strip_prefix "activations/" (String c s)) as [rest|] eqn:Hstrip;
    [|apply IH'].
  destruct (span_id rest) as [run tail] eqn:Hspan.
  assert (run ≠ "" →
          run ≠ ""
          ∧ (∀ i c, String.get i run = Some c → is_id c = true)
          ∧ includes (String c s) ("activations/" +:+ run) = true) as Hhere.
  { intros Hne. apply strip_prefix_app in Hstrip.
    apply span_id_run in Hspan as [-> Hrun]. split_and!; [done..|].
    rewrite Hstrip, <-append_assoc. apply includes_here, prefix_append. }
  destruct run as [|a run]; [apply IH'|].
  destruct tail as [|c' t].
  - intros [= <-]. by apply Hhere.
  - destruct (is_upper c'); [apply IH'|]. intros [= <-]. by apply Hhere.
Qed.

Lemma activation_id_nonempty s id : activation_id s = Some id → id ≠ "".
Proof.
  induction s as [|c s IH]; [done|]. cbn [activation_id].
  destruct (strip_prefix "activations/" (String c s)) as [rest|]; [|apply IH].
  destruct (span_id rest) as [[|a run] tail]; [apply IH|].
  destruct tail as [|c' t]; [by intros [= <-]|].
  destruct (is_upper c'); [apply IH|by intros [= <-]].
Qed.

Lemma matches_truthy b id : matches b = Some (Some id) → truthy (VStr id) = true.
Proof.
  unfold matches. destruct (activationLink b) as [| | |n|link]; try done.
  - by destruct (truthy (VBool b0)).
  - by destruct (truthy (VNum n)).
  - destruct (truthy (VStr link)); [|done]. intros [= Hid%activation_id_nonempty].
    cbn. by destruct id.
Qed.

Lemma activation_id_is_a_run_after_activations_witness :
  "atv_1" ≠ ""
  ∧ (∀ i c, String.get i "atv_1" = Some c → is_id c = true)
  ∧ includes "/papi/v1/properties/prp_1/activations/atv_1?contractId=ctr_1&groupId=grp_1"
             ("activations/" +:+ "atv_1") = true.
Proof.
  apply (activation_id_is_a_run_after_activations
           "/papi/v1/properties/prp_1/activations/atv_1?contractId=ctr_1&groupId=grp_1"
           "atv_1").
  reflexivity.
Defined.

(** *** Sorting *)

Lemma leb_refl s : String.leb s s = true.
Proof. by destruct (String.leb_total s s). Qed.

Lemma compare_trans s1 : ∀ s2 s3,
  String.compare s1 s2 ≠ Gt → String.compare s2 s3 ≠ Gt → String.compare s1 s3 ≠ Gt.
Proof.
  induction s1 as [|c1 s1 IH]; intros [|c2 s2] [|c3 s3]; simpl; try done.
  unfold Ascii.compare.
  destruct (N.compare_spec (N_of_ascii c1) (N_of_ascii c2)) as [H12|H12|H12];
    destruct (N.compare_spec (N_of_ascii c2) (N_of_ascii c3)) as [H23|H23|H23];
    try done;
    destruct (N.compare_spec (N_of_ascii c1) (N_of_ascii c3)) as [H13|H13|H13];
    try done; try lia.
  apply IH.
Qed.

Lemma leb_trans s1 s2 s3 :
  String.leb s1 s2 = true → String.leb s2 s3 = true → String.leb s1 s3 = true.
Proof.
  unfold String.leb. intros H12 H23.
  pose proof (compare_trans s1 s2 s3) as H.
  destruct (String.compare s1 s2), (String.compare s2 s3), (String.compare s1 s3);
    try done; by destruct H.
Qed.

Lemma elem_of_insert_sorted x y l : y ∈ insert_sorted x l ↔ y = x ∨ y ∈ l.
Proof.
  induction l as [|z l IH]; simpl.
  - rewrite list_elem_of_singleton, elem_of_nil. naive_solver.
  - destruct (String.leb x z); rewrite !elem_of_cons, ?IH; naive_solver.
Qed.

Lemma elem_of_sort x l : x ∈ sort l ↔ x ∈ l.
Proof.
  unfold sort. induction l as [|y l IH]; simpl; [done|].
  rewrite elem_of_insert_sorted, elem_of_cons, IH. done.
Qed.

Lemma ascending_insert_sorted x l : ascending l → ascending (insert_sorted x l).
Proof.
  induction l as [|z l IH]; simpl.
  - intros _. split; [|done]. by intros y ?%elem_of_nil.
  - intros [Hz Hl]. destruct (String.leb x z) eqn:Hxz; simpl.
    + split; [|done]. intros y [->|Hy]%elem_of_cons; [done|].
      eapply leb_trans; [done|]. by apply Hz.
    + split; [|by apply IH]. intros y [->|Hy]%elem_of_insert_sorted; [|by apply Hz].
      by destruct (String.leb_total x z) as [Hle|Hle]; [rewrite Hle in Hxz|].
Qed.

Lemma ascending_sort l : ascending (sort l).
Proof.
  unfold sort. induction l as [|x l IH]; simpl; [done|].
  by apply ascending_insert_sorted.
Qed.

Lemma ascending_app l1 x l2 :
  ascending (l1 ++ x :: l2) → ∀ y, y ∈ l1 → String.leb y x = true.
Proof.
  induction l1 as [|z l1 IH]; simpl; [by intros _ y ?%elem_of_nil|].
  intros [Hz Hl] y [->|Hy]%elem_of_cons; [|by apply IH].
  apply Hz, elem_of_app. right. left.
Qed.

Lemma head_filter {A} (P : A → Prop) `{!∀ x, Decision (P x)} (l : list A) :
  match head (filter P l) with
  | Some x => ∃ l1 l2, l = l1 ++ x :: l2 ∧ P x ∧ ∀ y, y ∈ l1 → ¬ P y
  | None => ∀ y, y ∈ l → ¬ P y
  end.
Proof.
  induction l as [|z l IH]; simpl; [by intros y ?%elem_of_nil|].
  rewrite filter_cons. destruct (decide (P z)) as [Hz|Hz]; simpl.
  - exists [], l. split_and!; [done..|]. by intros y ?%elem_of_nil.
  - destruct (head (filter P l)) as [x|].
    + destruct IH as (l1 & l2 & -> & Hx & Hl1). exists (z :: l1), l2.
      split_and!; [done..|]. by intros y [->|Hy]%elem_of_cons; [|apply Hl1].
    + by intros y [->|Hy]%elem_of_cons; [|apply IH].
Qed.

(** *** Names of configurations *)

Lemma sanitize_nonempty s : s ≠ "" → String.eqb (sanitize s) "" = false.
Proof. by destruct s. Qed.

(** [_getConfigAndHostname] throws exactly when it is given neither a name
    nor a host name: it throws if it is given an empty name or none and no
    list of host names or an empty one, and only then.  Otherwise the list
    of host names it returns is not
    empty, the name it returns is the sanitised name given, or the sanitised
    first host name for want of a name, hence made of the characters
    [[A-Za-z0-9_.-]] only; and handing the result over again gives the same
    result. *)
Theorem config_name_and_host_names configName hostnames :
  (_getConfigAndHostname configName hostnames = None
   ↔ no_name configName = true
     ∧ (hostnames = NoHostnames ∨ hostnames = Hostnames []))
  ∧ match _getConfigAndHostname configName hostnames with
    | None =>
        no_name configName = true
        ∧ (hostnames = NoHostnames ∨ hostnames = Hostnames [])
    | Some (name, hosts) =>
        hosts ≠ []
        ∧ name = sanitize (if no_name configName then default "" (head hosts)
                           else default "" configName)
        ∧ (∀ i c, String.get i name = Some c → c ∈ safe_characters)
        ∧ _getConfigAndHostname (Some name) (Hostnames hosts) = Some (name, hosts)
    end.
Proof.
  assert (no_name configName = true →
          hostnames = NoHostnames ∨ hostnames = Hostnames [] →
          _getConfigAndHostname configName hostnames = None) as Hthrows.
  { intros Hno [->| ->]; unfold _getConfigAndHostname; cbv zeta; by rewrite Hno. }
  enough (match _getConfigAndHostname configName hostnames with
          | None =>
              no_name configName = true
              ∧ (hostnames = NoHostnames ∨ hostnames = Hostnames [])
          | Some (name, hosts) =>
              hosts ≠ []
              ∧ name = sanitize (if no_name configName then default "" (head hosts)
                                 else default "" configName)
              ∧ (∀ i c, String.get i name = Some c → c ∈ safe_characters)
              ∧ _getConfigAndHostname (Some name) (Hostnames hosts) = Some (name, hosts)
          end) as Hcases.
  { split; [|exact Hcases]. split.
    - intros Hnone. by rewrite Hnone in Hcases.
    - intros [Hno Hhosts]. by apply Hthrows. }
  clear Hthrows.
  assert (∀ s i c, String.get i (sanitize s) = Some c → c ∈ safe_characters) as Hsafe.
  { induction s as [|c' s IH]; intros i c; simpl; [done|].
    destruct i as [|i]; [|apply IH]. intros [= <-]. apply sanitize_unit_safe. }
  assert (∀ s, sanitize (sanitize s) = sanitize s) as Hidemp.
  { induction s as [|c s IH]; simpl; [done|]. by rewrite sanitize_unit_idemp, IH. }
  assert (∀ s (hosts : list string), hosts ≠ [] → s ≠ "" →
            _getConfigAndHostname (Some (sanitize s)) (Hostnames hosts)
            = Some (sanitize s, hosts)) as Hnamed.
  { intros s [|h hosts] Hhosts Hs; [done|].
    assert (no_name (Some (sanitize s)) = false) as Hn
      by (by apply sanitize_nonempty).
    unfold _getConfigAndHostname. cbv zeta. rewrite !Hn. cbn [matches_letters].
    by rewrite Hidemp. }
  assert (∀ h (hosts : list string),
            _getConfigAndHostname (Some (sanitize h)) (Hostnames (h :: hosts))
            = Some (sanitize h, h :: hosts)) as Hfirst.
  { intros h hosts. destruct (decide (h = "")) as [->|Hh]; [done|].
    by apply Hnamed. }
  destruct (no_name configName) eqn:Hno.
  - destruct hostnames as [|h|[|h hosts]].
    + assert (_getConfigAndHostname configName NoHostnames = None) as ->.
      { unfold _getConfigAndHostname. by rewrite Hno. }
      eauto.
    + assert (_getConfigAndHostname configName (OneHostname h)
              = Some (sanitize h, [h])) as ->.
      { unfold _getConfigAndHostname. cbv zeta. by rewrite Hno. }
      split_and!; [done|done|apply Hsafe|apply Hfirst].
    + assert (_getConfigAndHostname configName (Hostnames []) = None) as ->.
      { unfold _getConfigAndHostname. cbv zeta. by rewrite Hno. }
      eauto.
    + assert (_getConfigAndHostname configName (Hostnames (h :: hosts))
              = Some (sanitize h, h :: hosts)) as ->.
      { unfold _getConfigAndHostname. cbv zeta. rewrite Hno. cbn [head].
        by destruct (no_name (Some h)). }
      split_and!; [done|done|apply Hsafe|apply Hfirst].
  - destruct configName as [n|]; [|done].
    assert (n ≠ "") as Hn by (by intros ->).
    destruct hostnames as [|h|[|h hosts]].
    + assert (_getConfigAndHostname (Some n) NoHostnames
              = Some (sanitize n, [n])) as ->.
      { unfold _getConfigAndHostname. cbv zeta. rewrite Hno.
        cbn [from_option]. by rewrite Hno. }
      split_and!; [done|done|apply Hsafe|by apply Hnamed].
    + assert (_getConfigAndHostname (Some n) (OneHostname h)
              = Some (sanitize n, [h])) as ->.
      { unfold _getConfigAndHostname. cbv zeta. by rewrite Hno. }
      split_and!; [done|done|apply Hsafe|by apply Hnamed].
    + assert (_getConfigAndHostname (Some n) (Hostnames [])
              = Some (sanitize n, [n])) as ->.
      { unfold _getConfigAndHostname. cbv zeta. rewrite Hno.
        cbn [from_option]. by rewrite Hno. }
      split_and!; [done|done|apply Hsafe|by apply Hnamed].
    + assert (_getConfigAndHostname (Some n) (Hostnames (h :: hosts))
              = Some (sanitize n, h :: hosts)) as ->.
      { unfold _getConfigAndHostname. cbv zeta. rewrite Hno. by rewrite Hno. }
      split_and!; [done|done|apply Hsafe|by apply Hnamed].
Qed.

(** *** Contract and group *)

Lemma given_with_ctr c : given (with_ctr c) = given c.
Proof.
  destruct c as [c|]; [|done]. unfold with_ctr.
  destruct (negb (String.eqb c "")) eqn:Hc; [|by destruct c].
  destruct (includes c "ctr_"); [by cbn; rewrite Hc|done].
Qed.

Lemma assign_unlisted groupId (items : list group_item) s :
  Forall (λ item, groupId ≠ Some (gi_groupId item)) items →
  Reconcile.forEach (assign_group groupId) s items = inl s.
Proof.
  induction 1 as [|item items Hitem _ IH]; [done|]. cbn [Reconcile.forEach].
  unfold assign_group at 1. by rewrite decide_False.
Qed.

Lemma forEach_assign_app groupId (l1 l2 : list group_item) s :
  Reconcile.forEach (assign_group groupId) s (l1 ++ l2)
  = match Reconcile.forEach (assign_group groupId) s l1 with
    | inl s' => Reconcile.forEach (assign_group groupId) s' l2
    | inr e => inr e
    end.
Proof.
  revert s. induction l1 as [|x l1 IH]; intros s; [done|]. cbn [app Reconcile.forEach].
  destruct (assign_group groupId s x); [apply IH|done].
Qed.

Lemma assign_listed groupId (items : list group_item) :
  Forall (λ item, groupId = Some (gi_groupId item) → is_Some (gi_contractIds item))
         items →
  ∀ s, ∃ s', Reconcile.forEach (assign_group groupId) s items = inl s'.
Proof.
  induction 1 as [|item items Hitem _ IH]; intros s; cbn [Reconcile.forEach].
  { eauto. }
  unfold assign_group at 1. case_decide as Hg; [|apply IH].
  destruct (Hitem Hg) as [cs ->]. apply IH.
Qed.

(** When the group asked for is among the groups listed, each of them with
    its contracts, [_getContractAndGroup] resolves to that group with the
    first contract of the last item listed for it, whatever contract the
    caller asked for. *)
Theorem listed_group_decides_the_contract
    before item after contractId contractIds :
  Forall (λ x, gi_groupId x = gi_groupId item → is_Some (gi_contractIds x)) before →
  gi_contractIds item = Some contractIds →
  Forall (λ x, gi_groupId x ≠ gi_groupId item) after →
  _getContractAndGroup (Some (before ++ item :: after)) contractId
                       (Some (gi_groupId item))
  = Resolved (head contractIds, Some (gi_groupId item)).
Proof.
  intros Hbefore Hitem Hafter. unfold _getContractAndGroup.
  rewrite forEach_assign_app.
  edestruct (assign_listed (Some (gi_groupId item)) before) as [s' ->].
  { eapply Forall_impl; [exact Hbefore|]. intros x Hx [= Hg]. by apply Hx. }
  cbn [Reconcile.forEach]. unfold assign_group at 1.
  rewrite decide_True, Hitem by done.
  rewrite assign_unlisted; [done|].
  eapply Forall_impl; [exact Hafter|]. intros x Hx [= Hg]. by apply Hx.
Qed.

(** When the group asked for is not among the groups listed,
    [_getContractAndGroup] resolves to the contract and the group asked for
    if both are given, the contract with "ctr_" in front unless it has
    "ctr_" somewhere, and is rejected with "Group/Contract combination
    doesn't exist" if either is missing. *)
Theorem unlisted_group_needs_both_ids items contractId groupId :
  Forall (λ item, groupId ≠ Some (gi_groupId item)) items →
  _getContractAndGroup (Some items) contractId groupId
  = (if given groupId && given contractId
     then Resolved (with_ctr contractId, groupId)
     else Rejected (Value (VStr "Group/Contract combination doesn't exist")))
  ∧ ∀ c, contractId = Some c → c ≠ "" →
      ∃ c', with_ctr contractId = Some c'
            ∧ includes c' "ctr_" = true
            ∧ (includes c "ctr_" = true → c' = c).
Proof.
  intros Hitems. split.
  - unfold _getContractAndGroup. rewrite assign_unlisted by done.
    rewrite given_with_ctr. by destruct (given groupId && given contractId).
  - intros c -> Hc. unfold with_ctr.
    assert (negb (String.eqb c "") = true) as -> by (by destruct c).
    destruct (includes c "ctr_") eqn:Hctr; cbn [negb andb]; [by eauto|].
    eexists. split_and!; [done| |done].
    apply includes_here, prefix_append.
Qed.

(** *** The list of groups *)

(** When the first request for the groups gets no response,
    [_getGroupList()] sends the request a second time, and whatever the
    second answer is, the promise it has returned is never settled: what the
    second call resolves or rejects is lost with the value of the callback. *)
Theorem unanswered_group_list_is_never_settled w answer rest :
  script w = None :: answer :: rest →
  _getGroupList w
  = (Pending,
     set_script rest (set_sent (sent w ++ [groups_request; groups_request]) w)).
Proof.
  intros Hscript. unfold _getGroupList, _getGroupList_with at 1. cbn [script set_sent].
  rewrite Hscript. unfold _getGroupList_fallThrough, _getGroupList_with.
  cbn [script set_sent set_script sent].
  f_equal. destruct answer as [r|]; cbn [snd];
    unfold set_script, set_sent; cbn; by rewrite <-app_assoc.
Qed.

Section WithConstants.

Variables LATEST_VERSION_STAGING LATEST_VERSION_PRODUCTION LATEST_VERSION_LATEST : Z.
Variables AKAMAI_ENV_STAGING AKAMAI_ENV_PRODUCTION : string.

(** *** Lookups that find nothing *)

Lemma _searchByValue_answer field v w r rest b :
  script w = Some r :: rest →
  parsed_as r b →
  _searchByValue field v w = (Resolved b, answered w (search_request field v) rest).
Proof.
  intros Hscript [Hstatus Hjson]. unfold _searchByValue.
  rewrite (send_answered _ _ _ _ _ Hscript). by rewrite Hstatus, Hjson.
Qed.

Lemma _findProperty_nothing key w r1 r2 r3 rest b1 b2 b3 :
  script w = Some r1 :: Some r2 :: Some r3 :: rest →
  parsed_as r1 b1 → versions_items b1 = Some [] →
  parsed_as r2 b2 → versions_items b2 = Some [] →
  parsed_as r3 b3 → versions_items b3 = Some [] →
  _findProperty key w
  = (Resolved None,
     answered
       (answered
          (answered w (search_request "propertyName" key) (Some r2 :: Some r3 :: rest))
          (search_request "hostname" key) (Some r3 :: rest))
       (search_request "edgeHostname" key) rest).
Proof.
  intros Hscript H1 Hv1 H2 Hv2 H3 Hv3. unfold _findProperty.
  erewrite then_resolved; last first.
  { erewrite then_resolved; last first.
    { erewrite then_resolved; last first.
      { erewrite then_resolved; last first.
        { erewrite then_resolved by (by eapply _searchByValue_answer).
          unfold has_versions. rewrite Hv1. reflexivity. }
        cbv beta iota.
        erewrite then_resolved by (by eapply _searchByValue_answer).
        reflexivity. }
      cbv beta iota. unfold has_versions. rewrite Hv2. cbn [fmap option_fmap option_map length Nat.ltb Nat.leb].
      erewrite then_resolved by (by eapply _searchByValue_answer).
      reflexivity. }
    cbv beta iota. rewrite Hv3. reflexivity. }
  reflexivity.
Qed.

Lemma cached_answered L w request rest key env :
  cached L (answered w request rest) key env = cached L w key env.
Proof. reflexivity. Qed.

Lemma answered_again w l rest' request rest :
  answered (set_script rest' (set_sent (sent w ++ l) w)) request rest
  = set_script rest (set_sent (sent w ++ l ++ [request]) w).
Proof.
  destruct w. unfold answered, set_script, set_sent. cbn. by rewrite app_assoc.
Qed.

(** A key the cache does not hold is rejected with "Cannot find property:  "
    and the sanitised key.  Without "prp_" in the key nothing is asked of the
    remote service; with it, the property is searched by name, by host name
    and by edge host name, in that order, and the rejection follows the third
    empty answer. *)
Theorem unknown_key_is_rejected w s hostnameEnvironment :
  _initComplete w = true →
  cached LATEST_VERSION_STAGING w (sanitize s) hostnameEnvironment = None →
  (includes (sanitize s) "prp_" = false →
   _getProperty LATEST_VERSION_STAGING (LStr s) hostnameEnvironment w
   = (Rejected (Value (VStr ("Cannot find property:  " +:+ sanitize s))), w))
  ∧ (includes (sanitize s) "prp_" = true →
     ∀ r1 r2 r3 rest b1 b2 b3,
       script w = Some r1 :: Some r2 :: Some r3 :: rest →
       parsed_as r1 b1 → versions_items b1 = Some [] →
       parsed_as r2 b2 → versions_items b2 = Some [] →
       parsed_as r3 b3 → versions_items b3 = Some [] →
       _getProperty LATEST_VERSION_STAGING (LStr s) hostnameEnvironment w
       = (Rejected (Value (VStr ("Cannot find property:  " +:+ sanitize s))),
          set_script rest
            (set_sent (sent w ++ [search_request "propertyName" (sanitize s);
                                  search_request "hostname" (sanitize s);
                                  search_request "edgeHostname" (sanitize s)]) w))).
Proof.
  intros Hinit Hcached. split.
  - intros Hprp. cbn [_getProperty].
    erewrite then_resolved; last first.
    { erewrite then_resolved by (by apply _init_complete).
      rewrite Hcached, Hprp. reflexivity. }
    cbv beta iota. by rewrite Hcached.
  - intros Hprp r1 r2 r3 rest b1 b2 b3 Hscript H1 Hv1 H2 Hv2 H3 Hv3.
    cbn [_getProperty].
    erewrite then_resolved; last first.
    { erewrite then_resolved by (by apply _init_complete).
      rewrite Hcached, Hprp.
      rewrite (_findProperty_nothing _ _ _ _ _ _ _ _ _ Hscript H1 Hv1 H2 Hv2 H3 Hv3).
      reflexivity. }
    cbv beta iota.
    rewrite !cached_answered, Hcached. unfold reject.
    unfold answered at 3. by rewrite !answered_again.
Qed.

(** *** A property found by search *)

Lemma _getProperty_cached w s hostnameEnvironment o :
  _initComplete w = true →
  cached LATEST_VERSION_STAGING w (sanitize s) hostnameEnvironment = Some o →
  _getProperty LATEST_VERSION_STAGING (LStr s) hostnameEnvironment w = (Resolved o, w).
Proof.
  intros Hinit Hcached. cbn [_getProperty].
  erewrite then_resolved; last first.
  { erewrite then_resolved by (by apply _init_complete).
    rewrite Hcached. reflexivity. }
  reflexivity.
Qed.

Lemma _getPropertyMetadata_answer item w r rest b items :
  script w = Some r :: rest →
  parsed_as r b →
  properties_items b = Some items →
  _getPropertyMetadata (vi_propertyId item) (vi_groupId item) (vi_contractId item) w
  = (Resolved (head items), answered w (metadata_request item) rest).
Proof.
  intros Hscript [Hstatus Hjson] Hitems. unfold _getPropertyMetadata.
  rewrite (send_answered _ _ _ _ _ Hscript). by rewrite Hstatus, Hjson, Hitems.
Qed.

Lemma _findProperty_first_search key w r1 r2 rest b1 b2 item items property more :
  script w = Some r1 :: Some r2 :: rest →
  parsed_as r1 b1 → versions_items b1 = Some (item :: items) →
  parsed_as r2 b2 → properties_items b2 = Some (property :: more) →
  _findProperty key w
  = cache_property property
      (answered (answered w (search_request "propertyName" key) (Some r2 :: rest))
                (metadata_request item) rest).
Proof.
  intros Hscript H1 Hv1 H2 Hp2. unfold _findProperty.
  erewrite then_resolved; last first.
  { erewrite then_resolved; last first.
    { erewrite then_resolved; last first.
      { erewrite then_resolved; last first.
        { erewrite then_resolved by (by eapply _searchByValue_answer).
          unfold has_versions. rewrite Hv1. reflexivity. }
        cbv beta iota. unfold has_versions. rewrite Hv1. reflexivity. }
      cbv beta iota. unfold has_versions. rewrite Hv1. reflexivity. }
    cbv beta iota. rewrite Hv1.
    by erewrite _getPropertyMetadata_answer. }
  reflexivity.
Qed.

(** A key with "prp_" that the cache does not hold, the search by property
    name having a hit: the engine fetches the record of the first hit, makes
    it an object of its own and resolves to it, after two requests; from then
    on the id of the record, looked up as a string, resolves to the same
    object without any request. *)
Theorem found_property_is_cached
    w s hostnameEnvironment r1 r2 rest b1 b2 item items property more :
  _initComplete w = true →
  cached LATEST_VERSION_STAGING w (sanitize s) hostnameEnvironment = None →
  includes (sanitize s) "prp_" = true →
  script w = Some r1 :: Some r2 :: rest →
  parsed_as r1 b1 → versions_items b1 = Some (item :: items) →
  parsed_as r2 b2 → properties_items b2 = Some (property :: more) →
  ∃ w',
    _getProperty LATEST_VERSION_STAGING (LStr s) hostnameEnvironment w
    = (Resolved (Own (next w)), w')
    ∧ heap w' !! Own (next w) = Some property
    ∧ sent w' = sent w ++ [search_request "propertyName" (sanitize s);
                           metadata_request item]
    ∧ script w' = rest
    ∧ ∀ id env,
        id = to_string (default VUndefined (property !! "propertyId")) →
        sanitize id = id →
        _getProperty LATEST_VERSION_STAGING (LStr id) env w'
        = (Resolved (Own (next w)), w').
Proof.
  intros Hinit Hcached Hprp Hscript H1 Hv1 H2 Hp2.
  eexists. split.
  { cbn [_getProperty].
    erewrite then_resolved; last first.
    { erewrite then_resolved by (by apply _init_complete).
      rewrite Hcached, Hprp.
      rewrite (_findProperty_first_search _ _ _ _ _ _ _ _ _ _ _ Hscript H1 Hv1 H2 Hp2).
      reflexivity. }
    reflexivity. }
  split_and!.
  - cbn. by rewrite lookup_insert_eq.
  - cbn. by rewrite <-app_assoc.
  - done.
  - intros id env -> Hid. apply _getProperty_cached; [done|].
    rewrite Hid. unfold cached, lookup_member. cbn.
    by rewrite lookup_insert_eq.
Qed.

(** *** Lookup requests that fail *)

Lemma then_pending {A B} (p : M A) (f : A → M B) w w' :
  p w = (Pending, w') → (p .then f) w = (Pending, w').
Proof. intros Hp. unfold then_. by rewrite Hp. Qed.

(** A key with "prp_" that the cache does not hold: when the answer to the
    first search has a status outside 200 to 399, the lookup is rejected with
    that response; when the search has a hit and the request for the record
    gets no response, or one with a status outside 200 to 399, nothing
    settles the promise, and the lookup stays pending. *)
Theorem failed_lookup_requests w s hostnameEnvironment :
  _initComplete w = true →
  cached LATEST_VERSION_STAGING w (sanitize s) hostnameEnvironment = None →
  includes (sanitize s) "prp_" = true →
  (∀ r1 rest,
     script w = Some r1 :: rest →
     status_in 200 400 r1 = false →
     _getProperty LATEST_VERSION_STAGING (LStr s) hostnameEnvironment w
     = (Rejected (OfResponse (Some r1)),
        answered w (search_request "propertyName" (sanitize s)) rest))
  ∧ (∀ r1 b1 item items answer rest,
       script w = Some r1 :: answer :: rest →
       parsed_as r1 b1 →
       versions_items b1 = Some (item :: items) →
       from_option (status_in 200 400) false answer = false →
       _getProperty LATEST_VERSION_STAGING (LStr s) hostnameEnvironment w
       = (Pending,
          answered (answered w (search_request "propertyName" (sanitize s))
                             (answer :: rest))
                   (metadata_request item) rest)).
Proof.
  intros Hinit Hcached Hprp. split.
  - intros r1 rest Hscript Hstatus.
    assert (_findProperty (sanitize s) w
            = (Rejected (OfResponse (Some r1)),
               answered w (search_request "propertyName" (sanitize s)) rest)) as Hfind.
    { unfold _findProperty. do 5 apply then_rejected. unfold _searchByValue.
      rewrite (send_answered _ _ _ _ _ Hscript). by rewrite Hstatus. }
    cbn [_getProperty]. apply then_rejected.
    erewrite then_resolved by (by apply _init_complete).
    by rewrite Hcached, Hprp, Hfind.
  - intros r1 b1 item items answer rest Hscript H1 Hv1 Hanswer.
    assert (_findProperty (sanitize s) w
            = (Pending,
               answered (answered w (search_request "propertyName" (sanitize s))
                                  (answer :: rest))
                        (metadata_request item) rest)) as Hfind.
    { unfold _findProperty. apply then_pending.
      erewrite then_resolved; last first.
      { erewrite then_resolved; last first.
        { erewrite then_resolved; last first.
          { erewrite then_resolved by (by eapply _searchByValue_answer).
            unfold has_versions. rewrite Hv1. reflexivity. }
          cbv beta iota. unfold has_versions. rewrite Hv1. reflexivity. }
        cbv beta iota. unfold has_versions. rewrite Hv1. reflexivity. }
      cbv beta iota. rewrite Hv1. unfold _getPropertyMetadata.
      rewrite (send_answered _ _ (answered w _ (answer :: rest)) answer rest eq_refl).
      destruct answer as [r2|]; [|done]. cbn in Hanswer. by rewrite Hanswer. }
    cbn [_getProperty]. apply then_pending.
    erewrite then_resolved by (by apply _init_complete).
    by rewrite Hcached, Hprp, Hfind.
Qed.

(** *** Rule formats *)

Lemma _retrieveFormats_answer w r rest b :
  script w = Some r :: rest →
  parsed_as r b →
  _retrieveFormats w = (Resolved b, answered w formats_request rest).
Proof.
  intros Hscript [Hstatus Hjson]. unfold _retrieveFormats.
  rewrite (send_answered _ _ _ _ _ Hscript). by rewrite Hstatus, Hjson.
Qed.

Lemma retrieveFormats_latest_answer w r rest b items :
  script w = Some r :: rest →
  parsed_as r b →
  ruleFormats_items b = Some items →
  retrieveFormats_latest w
  = (Resolved (latest_format items), answered w formats_request rest).
Proof.
  intros Hscript Hr Hitems. unfold retrieveFormats_latest.
  rewrite (then_resolved _ _ _ _ _ (_retrieveFormats_answer _ _ _ _ Hscript Hr)).
  by rewrite Hitems.
Qed.

(** [retrieveFormats(true)] resolves, after one request, to the rule format
    that contains "v2" and is the greatest of those in the order of code
    units, and to [undefined] when no rule format contains "v2". *)
Theorem latest_format_is_the_greatest_v2 w r rest b items :
  script w = Some r :: rest →
  parsed_as r b →
  ruleFormats_items b = Some items →
  ∃ v,
    retrieveFormats_latest w = (Resolved v, answered w formats_request rest)
    ∧ match v with
      | VStr f =>
          f ∈ items ∧ includes f "v2" = true
          ∧ ∀ g, g ∈ items → includes g "v2" = true → String.leb g f = true
      | VUndefined => ∀ g, g ∈ items → includes g "v2" = false
      | _ => False
      end.
Proof.
  intros Hscript Hr Hitems. exists (latest_format items).
  split; [by eapply retrieveFormats_latest_answer|].
  unfold latest_format.
  pose proof (head_filter (λ rule, includes rule "v2" = true)
                (reverse (sort items))) as Hhead.
  destruct (head _) as [f|]; simpl.
  - destruct Hhead as (l1 & l2 & Hsplit & Hf & Hl1).
    assert (sort items = reverse l2 ++ f :: reverse l1) as Hsorted.
    { rewrite <-(reverse_involutive (sort items)), Hsplit.
      by rewrite reverse_app, reverse_cons, <-app_assoc. }
    split_and!; [|done|].
    + apply elem_of_sort. rewrite Hsorted. apply elem_of_app. right. left.
    + intros g Hg Hv2. apply elem_of_sort in Hg. rewrite Hsorted in Hg.
      apply elem_of_app in Hg as [Hg|[->|Hg]%elem_of_cons].
      * eapply ascending_app; [|done]. rewrite <-Hsorted. apply ascending_sort.
      * apply leb_refl.
      * rewrite elem_of_reverse in Hg. exfalso. by apply (Hl1 g).
  - intros g Hg. apply not_true_is_false. apply Hhead.
    by rewrite elem_of_reverse, elem_of_sort.
Qed.

(** An engine that is not initialised is marked initialised, without any
    request, when its cache by id holds something; when that cache is empty
    it asks for the rule formats, keeps the latest, and is still not marked
    initialised. *)
Theorem _init_fetches_formats_while_the_cache_is_empty w :
  _initComplete w = false →
  (_propertyById w ≠ ∅ → _init w = (Resolved tt, set_initComplete true w))
  ∧ (_propertyById w = ∅ →
     ∀ r rest b items,
       script w = Some r :: rest →
       parsed_as r b →
       ruleFormats_items b = Some items →
       ∃ w',
         _init w = (Resolved tt, w')
         ∧ w' = set_newestRulesFormat (latest_format items)
                  (answered w formats_request rest)
         ∧ _initComplete w' = false).
Proof.
  intros Hinit. unfold _init. rewrite Hinit. split.
  - intros Hne.
    destruct (size (_propertyById w)) as [|n] eqn:Hsize; [|done].
    by apply map_size_empty_inv in Hsize.
  - intros Hempty r rest b items Hscript Hr Hitems.
    rewrite Hempty, map_size_empty. cbn [Nat.ltb Nat.leb].
    rewrite (then_resolved _ _ _ _ _
               (retrieveFormats_latest_answer _ _ _ _ _ Hscript Hr Hitems)).
    eexists. split_and!; [reflexivity..|]. done.
Qed.

(** *** Warnings, however many times *)

Lemma resubmitted_until_accepted o versionId env notes email id r rest
    (rs : list response) (wss : list (list warning)) :
  Forall2 warns rs wss →
  accepts r id →
  ∀ fuel w acks,
    (length rs < fuel)%nat →
    qualified_in w o →
    script w = (Some <$> rs) ++ Some r :: rest →
    ∃ w',
      _activateProperty_rec LATEST_VERSION_STAGING fuel (LObj o) versionId env
                            notes email acks w
      = (Resolved id, w')
      ∧ sent w'
        = sent w ++ (activation_request w o versionId env notes email
                       <$> acks :: (message_ids <$> wss))
      ∧ script w' = rest
      ∧ heap w' = heap w.
Proof.
  intros Hwarns (b & [Hstatus Hjson] & Htype & Hid).
  induction Hwarns as [|r0 ws rs wss (b0 & [Hstatus0 Hjson0] & Htype0 & Hws0) _ IH];
    intros [|fuel] w acks Hfuel Hq Hscript; simpl in Hfuel; try lia.
  - rewrite (_activateProperty_answer _ fuel w o versionId env notes email acks
               r rest b Hq Hscript Hstatus Hjson).
    cbv zeta. rewrite Htype, Hid. eexists. split_and!; reflexivity.
  - rewrite (_activateProperty_answer _ fuel w o versionId env notes email acks
               r0 _ b0 Hq Hscript Hstatus0 Hjson0).
    cbv zeta. rewrite Htype0, Hws0.
    set (w1 := answered w _ _).
    destruct (IH fuel w1 (messageId <$> ws)) as (w' & Hrun & Hsent & Hrest & Hheap);
      [lia|by eapply qualified_in_heap|done|].
    rewrite Hrun. exists w'. split_and!; [done| |done|by rewrite Hheap].
    rewrite Hsent. unfold w1. cbn [sent answered set_script set_sent].
    by rewrite <-app_assoc.
Qed.

(** However many times the remote service answers with warnings that are
    not acknowledged, the request is submitted again, each time with the
    message ids of the warnings of the answer before and of no other, until
    an answer accepts it: [_activateProperty] then resolves to the activation
    id, and one request has been sent for each answer. *)
Theorem every_set_of_warnings_is_acknowledged
    w o versionId env notes email acks (rs : list response)
    (wss : list (list warning)) r id rest :
  qualified_in w o →
  Forall2 warns rs wss →
  accepts r id →
  script w = (Some <$> rs) ++ Some r :: rest →
  ∃ w',
    _activateProperty LATEST_VERSION_STAGING (LObj o) versionId env notes email acks w
    = (Resolved id, w')
    ∧ sent w'
      = sent w ++ (activation_request w o versionId env notes email
                     <$> acks :: (message_ids <$> wss))
    ∧ script w' = rest.
Proof.
  intros Hq Hwarns Hid Hscript. unfold _activateProperty.
  destruct (resubmitted_until_accepted o versionId env notes email id r rest rs wss
              Hwarns Hid (S (length (script w))) w acks)
    as (w' & Hrun & Hsent & Hrest & _); [|done..|by exists w'].
  rewrite Hscript, length_app, length_fmap. lia.
Qed.

(** *** Polling, however long *)

Lemma polled_until_active o activationID r rest (rs : list response) :
  Forall under_way rs →
  all_active r →
  ∀ fuel w,
    (length rs < fuel)%nat →
    qualified_in w o →
    script w = (Some <$> rs) ++ Some r :: rest →
    ∃ w',
      _pollActivation_rec LATEST_VERSION_STAGING fuel (LObj o) activationID w
      = (Resolved true, w')
      ∧ sent w' = sent w ++ replicate (S (length rs)) (status_request w o activationID)
      ∧ clock w' = (clock w + 30000 * Z.of_nat (length rs))%Z
      ∧ script w' = rest.
Proof.
  intros Hrs (data & items & Hbody & Hitems & Hne & Hall).
  induction Hrs as [|r0 rs (data0 & items0 & Hbody0 & Hitems0 & Hpending) _ IH];
    intros [|fuel] w Hfuel Hq Hscript; simpl in Hfuel; try lia.
  - rewrite (_pollActivation_answer _ fuel w o activationID r rest data items
               Hq Hscript Hbody Hitems).
    rewrite (poll_flags_active _ Hne Hall).
    eexists. split_and!; [reflexivity..| |reflexivity]. cbn. lia.
  - rewrite (_pollActivation_answer _ fuel w o activationID r0 _ data0 items0
               Hq Hscript Hbody0 Hitems0).
    rewrite (poll_flags_pending _ Hpending).
    destruct (IH fuel (polled w o activationID ((Some <$> rs) ++ Some r :: rest)))
      as (w' & Hrun & Hsent & Hclock & Hrest);
      [lia|by eapply qualified_in_heap|done|].
    exists w'. split_and!; [done| | |done].
    + rewrite Hsent. cbn [polled sent answered set_script set_sent set_clock].
      rewrite <-app_assoc. done.
    + rewrite Hclock. cbn [polled clock answered set_script set_sent set_clock length].
      lia.
Qed.

(** While the answers show an item that is not "ACTIVE" the engine waits
    30000 ms and asks again; at the first answer whose items are all "ACTIVE"
    [_pollActivation] resolves to [true], having sent one status request for
    each answer and waited 30000 ms for each answer but the last. *)
Theorem polling_lasts_as_long_as_an_item_is_not_active
    w o activationID (rs : list response) r rest :
  qualified_in w o →
  Forall under_way rs →
  all_active r →
  script w = (Some <$> rs) ++ Some r :: rest →
  ∃ w',
    _pollActivation LATEST_VERSION_STAGING (LObj o) activationID w = (Resolved true, w')
    ∧ sent w' = sent w ++ replicate (S (length rs)) (status_request w o activationID)
    ∧ clock w' = (clock w + 30000 * Z.of_nat (length rs))%Z
    ∧ script w' = rest.
Proof.
  intros Hq Hrs Hr Hscript. unfold _pollActivation.
  apply (polled_until_active o activationID r rest rs Hrs Hr); [|done..].
  rewrite Hscript, length_app, length_fmap. lia.
Qed.

(** *** The version pointers of a record *)

Lemma member_set_member_eq w o k v : member (set_member o k v w) o k = v.
Proof. unfold member, set_member. cbn. by rewrite lookup_insert_eq; cbn; rewrite lookup_insert_eq. Qed.

Lemma member_set_member_ne w o k k' v :
  k ≠ k' → member (set_member o k v w) o k' = member w o k'.
Proof.
  intros Hne. unfold member, set_member. cbn. rewrite lookup_insert_eq. cbn.
  rewrite lookup_insert_ne by done. by destruct (heap w !! o).
Qed.

Lemma then_heap {A B} (p : M A) (f : A → M B) w :
  (∀ out w', p w = (out, w') → heap w' = heap w) →
  (∀ a w1 out w', p w = (Resolved a, w1) → f a w1 = (out, w') → heap w' = heap w1) →
  ∀ out w', (p .then f) w = (out, w') → heap w' = heap w.
Proof.
  intros Hp Hf out w'. unfold then_.
  destruct (p w) as [[a|e|e|e| |] w1] eqn:Hpw;
    try (intros [= _ <-]; by eapply Hp).
  destruct (f a w1) as [out2 w2] eqn:Hfa. intros Hout.
  assert (w' = w2) as -> by (destruct out2; congruence).
  rewrite (Hf _ _ _ _ eq_refl Hfa). by eapply Hp.
Qed.

Lemma send_heap {A} request (callback : option response → outcome A) w out w' :
  send request callback w = (out, w') → heap w' = heap w.
Proof. unfold send. cbn. destruct (script w); by intros [= _ <-]. Qed.

Lemma _getProperty_obj_heap o env w out w' :
  _getProperty LATEST_VERSION_STAGING (LObj o) env w = (out, w') → w' = w.
Proof.
  cbn [_getProperty]. unfold resolve, throw.
  case_match; by intros [= _ <-].
Qed.

Lemma _pollActivation_rec_heap o activationID fuel :
  ∀ w out w',
    _pollActivation_rec LATEST_VERSION_STAGING fuel (LObj o) activationID w = (out, w') →
    heap w' = heap w.
Proof.
  induction fuel as [|fuel IH]; intros w; cbn [_pollActivation_rec].
  { by intros out w' [= _ <-]. }
  apply then_heap.
  - apply then_heap.
    + intros out w' Hget. apply _getProperty_obj_heap in Hget. by subst.
    + intros a w1 out w' _. apply send_heap.
  - intros data w1 out w' _.
    destruct (activations_items data) as [items|]; [|by intros [= _ <-]].
    destruct (poll_flags items) as [[] []]; try by intros [= _ <-].
    + apply then_heap; [by intros ? ? [= _ <-]|].
      intros [] w2 out2 w2' Hsleep Hrun. apply IH in Hrun.
      by injection Hsleep as <-.
    + apply then_heap; [by intros ? ? [= _ <-]|].
      intros [] w2 out2 w2' Hsleep Hrun. apply IH in Hrun.
      by injection Hsleep as <-.
Qed.

Lemma qualified_in_set_member w o k v :
  k ≠ "groupId" → k ≠ "propertyId" → k ≠ "contractId" →
  qualified_in w o → qualified_in (set_member o k v w) o.
Proof.
  intros Hg Hp Hc (? & ? & ?). unfold qualified_in.
  by rewrite !member_set_member_ne.
Qed.

Lemma _activateProperty_accepted w o versionId env notes email acks r id rest :
  qualified_in w o →
  script w = Some r :: rest →
  accepts r id →
  _activateProperty LATEST_VERSION_STAGING (LObj o) versionId env notes email acks w
  = (Resolved id,
     answered w (activation_request w o versionId env notes email acks) rest).
Proof.
  intros Hq Hscript (b & [Hstatus Hjson] & Htype & Hid). unfold _activateProperty.
  rewrite (_activateProperty_answer _ _ w o versionId env notes email acks
             r rest b Hq Hscript Hstatus Hjson).
  cbv zeta. by rewrite Htype, Hid.
Qed.

Lemma polled_heap o id w1 out w' :
  (_pollActivation LATEST_VERSION_STAGING (LObj o) id
   .then (λ b, resolve (VBool b))) w1 = (out, w') →
  heap w' = heap w1.
Proof.
  apply then_heap.
  - apply _pollActivation_rec_heap.
  - by intros ? ? ? ? _ [= _ <-].
Qed.

Lemma polled_caught o id w1 :
  qualified_in w1 o →
  caught ((_pollActivation LATEST_VERSION_STAGING (LObj o) id
           .then (λ b, resolve (VBool b))) w1)
  = (_pollActivation LATEST_VERSION_STAGING (LObj o) id
     .then (λ b, resolve (VBool b))) w1.
Proof.
  intros Hq. apply caught_not_thrown, then_not_thrown.
  by apply _pollActivation_rec_not_thrown.
Qed.

Lemma then_caught {A B} (p : M A) (f : A → M B) w a w' :
  p w = (Resolved a, w') → (p .then f) w = caught (f a w').
Proof.
  intros Hp. unfold then_, caught. rewrite Hp. by destruct (f a w') as [[] ?].
Qed.

Lemma activate_accepted w o version networkEnv notes email wait r id rest :
  qualified_in w o →
  script w = Some r :: rest →
  accepts r id →
  let activationVersion :=
    if (version <=? 0)%Z
    then _getLatestVersion LATEST_VERSION_STAGING LATEST_VERSION_PRODUCTION
                           LATEST_VERSION_LATEST w o version
    else VNum version in
  let pointer :=
    if decide (networkEnv = AKAMAI_ENV_STAGING) then "stagingVersion"
    else "productionVersion" in
  let w1 :=
    set_member o pointer activationVersion
      (answered w (activation_request w o activationVersion (VStr networkEnv)
                     notes (as_array email) []) rest) in
  activate LATEST_VERSION_STAGING LATEST_VERSION_PRODUCTION LATEST_VERSION_LATEST
           AKAMAI_ENV_STAGING (LObj o) version networkEnv notes email wait w
  = if wait
    then (_pollActivation LATEST_VERSION_STAGING (LObj o) id
          .then (λ b, resolve (VBool b))) w1
    else (Resolved (VStr id), w1).
Proof.
  intros Hq Hscript Hid activationVersion pointer w1. unfold activate.
  erewrite then_caught; last first.
  { rewrite (then_resolved _ _ _ _ _ (_getProperty_qualified _ w o _ Hq)).
    erewrite then_resolved by (by eapply _activateProperty_accepted).
    reflexivity. }
  cbv beta iota zeta. fold activationVersion.
  set (w0 := answered w _ rest).
  assert ((if decide (networkEnv = AKAMAI_ENV_STAGING)
           then set_member o "stagingVersion" activationVersion w0
           else set_member o "productionVersion" activationVersion w0) = w1) as ->.
  { unfold w1, pointer. by case_decide. }
  destruct wait; [|done].
  apply polled_caught, qualified_in_set_member;
    [by unfold pointer; case_decide..|by eapply qualified_in_heap].
Qed.

(** Once the remote service has accepted the activation request, the record
    says the version activated is the one on that network: [stagingVersion]
    for [AKAMAI_ENV.STAGING], [productionVersion] for any other network.
    That is so whether or not the caller waits, and however the polling ends.
    A caller that does not wait gets the activation id after that one
    request; for one that waits, polling starts on the record so updated.
    For a zero or negative [version] the version activated is the one
    [_getLatestVersion] reads off the record. *)
Theorem activate_records_the_version
    w o version networkEnv notes email wait r id rest out w' :
  qualified_in w o →
  script w = Some r :: rest →
  accepts r id →
  activate LATEST_VERSION_STAGING LATEST_VERSION_PRODUCTION LATEST_VERSION_LATEST
           AKAMAI_ENV_STAGING (LObj o) version networkEnv notes email wait w
  = (out, w') →
  let activationVersion :=
    if (version <=? 0)%Z
    then _getLatestVersion LATEST_VERSION_STAGING LATEST_VERSION_PRODUCTION
                           LATEST_VERSION_LATEST w o version
    else VNum version in
  let pointer :=
    if decide (networkEnv = AKAMAI_ENV_STAGING) then "stagingVersion"
    else "productionVersion" in
  let w1 :=
    set_member o pointer activationVersion
      (answered w (activation_request w o activationVersion (VStr networkEnv)
                     notes (as_array email) []) rest) in
  member w' o pointer = activationVersion
  ∧ (wait = false → out = Resolved (VStr id) ∧ w' = w1)
  ∧ (wait = true →
     (_pollActivation LATEST_VERSION_STAGING (LObj o) id
      .then (λ b, resolve (VBool b))) w1 = (out, w')).
Proof.
  intros Hq Hscript Hid Hrun activationVersion pointer w1.
  rewrite (activate_accepted _ _ _ _ _ _ _ _ _ _ Hq Hscript Hid) in Hrun.
  fold activationVersion pointer w1 in Hrun. destruct wait.
  - split_and!; [|done..]. apply polled_heap in Hrun.
    unfold member. rewrite Hrun. apply member_set_member_eq.
  - injection Hrun as <- <-. split_and!; [|done..]. apply member_set_member_eq.
Qed.

Lemma _deactivateProperty_accepted w o versionId env notes email r b id rest :
  qualified_in w o →
  script w = Some r :: rest →
  accepted_as r b →
  matches b = Some (Some id) →
  _deactivateProperty LATEST_VERSION_STAGING (LObj o) versionId env notes email w
  = (Resolved (Some id),
     answered w (Request "POST" (activations_path w o)
                   (DeactivationData versionId env email)) rest).
Proof.
  intros Hq Hscript [Hstatus Hjson] Hid. unfold _deactivateProperty.
  rewrite (then_resolved _ _ _ _ _ (_getProperty_qualified _ w o _ Hq)).
  rewrite (send_answered _ _ _ _ _ Hscript). by rewrite Hstatus, Hjson, Hid.
Qed.

(** The version [deactivate] asks to deactivate is the one the record has
    for that network ([stagingVersion] for [AKAMAI_ENV.STAGING],
    [productionVersion] for any other), or version 1 when the record has
    none; once the remote service has accepted the request, the record has
    [null] there, whether or not the caller waits and however the polling
    ends. *)
Theorem deactivate_clears_the_version
    w o networkEnv notes email wait r b id rest out w' :
  LATEST_VERSION_STAGING ≠ LATEST_VERSION_PRODUCTION →
  qualified_in w o →
  script w = Some r :: rest →
  accepted_as r b →
  matches b = Some (Some id) →
  deactivate LATEST_VERSION_STAGING LATEST_VERSION_PRODUCTION LATEST_VERSION_LATEST
             AKAMAI_ENV_STAGING (LObj o) networkEnv notes email wait w
  = (out, w') →
  let pointer :=
    if decide (networkEnv = AKAMAI_ENV_STAGING) then "stagingVersion"
    else "productionVersion" in
  let w1 :=
    set_member o pointer VNull
      (answered w (Request "POST" (activations_path w o)
                     (DeactivationData (or_else (member w o pointer) (VNum 1))
                                       (VStr networkEnv) (as_array email))) rest) in
  member w' o pointer = VNull
  ∧ (wait = false → out = Resolved (VStr id) ∧ w' = w1)
  ∧ (wait = true →
     (_pollActivation LATEST_VERSION_STAGING (LObj o) id
      .then (λ b, resolve (VBool b))) w1 = (out, w')).
Proof.
  intros Hconst Hq Hscript Hr Hid. unfold deactivate.
  erewrite then_caught; last first.
  { rewrite (then_resolved _ _ _ _ _ (_getProperty_qualified _ w o _ Hq)).
    erewrite then_resolved by (by eapply _deactivateProperty_accepted).
    reflexivity. }
  cbv beta iota zeta. rewrite (matches_truthy _ _ Hid). cbn [negb].
  assert (_getLatestVersion LATEST_VERSION_STAGING LATEST_VERSION_PRODUCTION
            LATEST_VERSION_LATEST w o
            (if decide (networkEnv = AKAMAI_ENV_STAGING)
             then LATEST_VERSION_STAGING else LATEST_VERSION_PRODUCTION)
          = member w o (if decide (networkEnv = AKAMAI_ENV_STAGING)
                        then "stagingVersion" else "productionVersion")) as ->.
  { unfold _getLatestVersion. case_decide.
    - apply Z.eqb_neq in Hconst. by rewrite Hconst, Z.eqb_refl.
    - by rewrite Z.eqb_refl. }
  set (w0 := answered w _ rest).
  assert ((if decide (networkEnv = AKAMAI_ENV_STAGING)
           then set_member o "stagingVersion" VNull w0
           else set_member o "productionVersion" VNull w0)
          = set_member o (if decide (networkEnv = AKAMAI_ENV_STAGING)
                          then "stagingVersion" else "productionVersion")
              VNull w0) as -> by (by case_decide).
  set (pointer := if decide _ then _ else _) in *.
  set (w1 := set_member o pointer VNull w0).
  assert (qualified_in w1 o) as Hq1.
  { apply qualified_in_set_member; [by unfold pointer; case_decide..|].
    by eapply qualified_in_heap. }
  destruct wait.
  - rewrite (polled_caught _ _ _ Hq1). intros Hrun.
    split_and!; [|done..]. apply polled_heap in Hrun.
    unfold member. rewrite Hrun. apply member_set_member_eq.
  - intros [= <- <-]. split_and!; [|done..]. apply member_set_member_eq.
Qed.

(** *** No response at all *)

Lemma then_uncaught {A B} (p : M A) (f : A → M B) w e w' :
  p w = (Uncaught e, w') → (p .then f) w = (Uncaught e, w').
Proof. intros Hp. unfold then_. by rewrite Hp. Qed.

(** When the client hands the callback no response, the callbacks of
    [_activateProperty] and of [_pollActivation] throw on reading its status,
    so that neither promise is ever settled, while [_deactivateProperty]
    rejects with [undefined]; the request has been sent in each case. *)
Theorem without_a_response
    w o versionId env notes email acks activationID rest :
  qualified_in w o →
  script w = None :: rest →
  _activateProperty LATEST_VERSION_STAGING (LObj o) versionId env notes email acks w
  = (Uncaught TypeError,
     answered w (activation_request w o versionId env notes email acks) rest)
  ∧ _pollActivation LATEST_VERSION_STAGING (LObj o) activationID w
    = (Uncaught TypeError, answered w (status_request w o activationID) rest)
  ∧ _deactivateProperty LATEST_VERSION_STAGING (LObj o) versionId env notes email w
    = (Rejected (Value VUndefined),
       answered w (Request "POST" (activations_path w o)
                     (DeactivationData versionId env email)) rest).
Proof.
  intros Hq Hscript. split_and!.
  - unfold _activateProperty. rewrite Hscript. cbn [length _activateProperty_rec].
    apply then_uncaught.
    rewrite (then_resolved _ _ _ _ _ (_getProperty_qualified _ w o _ Hq)).
    by rewrite (send_answered _ _ _ _ _ Hscript).
  - unfold _pollActivation. rewrite Hscript. cbn [length _pollActivation_rec].
    apply then_uncaught.
    rewrite (then_resolved _ _ _ _ _ (_getProperty_qualified _ w o _ Hq)).
    by rewrite (send_answered _ _ _ _ _ Hscript).
  - unfold _deactivateProperty.
    rewrite (then_resolved _ _ _ _ _ (_getProperty_qualified _ w o _ Hq)).
    by rewrite (send_answered _ _ _ _ _ Hscript).
Qed.

(** *** Host names *)

(** A host name that is neither an id nor a name of the cache resolves to
    the record of its entry in the table of hosts: the staging side when the
    environment asked for is [LATEST_VERSION.STAGING], the production side
    for every other environment. *)
Theorem host_name_resolves_by_environment w s env a b :
  _initComplete w = true →
  lookup_member (_propertyById w) (sanitize s) = None →
  lookup_member (_propertyByName w) (sanitize s) = None →
  _propertyByHost w !! sanitize s = Some (Host (Some a) (Some b)) →
  lookupPropertyIdFromHost LATEST_VERSION_STAGING (LStr s) env w
  = (Resolved (if decide (env = LATEST_VERSION_STAGING) then a else b), w).
Proof.
  intros Hinit Hid Hname Hhost. apply _getProperty_cached; [done|].
  unfold cached. rewrite Hid, Hname, Hhost. cbn [staging production].
  case_decide as Henv.
  - apply Z.eqb_eq in Henv. by rewrite Henv.
  - apply Z.eqb_neq in Henv. by rewrite Henv.
Qed.

(** *** Promotion of the staging version *)

(** On a record without staging version, and on one whose production
    version is its staging version, [promoteStagingToProd] asks nothing of
    the remote service and resolves to [undefined]: the rejection "No version
    in Staging" and the value [true] that the source builds there are never
    handed to the caller. *)
Theorem promotion_without_work_resolves_to_undefined w o notes email :
  qualified_in w o →
  truthy (member w o "stagingVersion") = false
  ∨ member w o "productionVersion" = member w o "stagingVersion" →
  promoteStagingToProd LATEST_VERSION_STAGING LATEST_VERSION_PRODUCTION
    LATEST_VERSION_LATEST AKAMAI_ENV_STAGING AKAMAI_ENV_PRODUCTION
    (LObj o) notes email w
  = (Resolved VUndefined, w).
Proof.
  intros Hq Hcase. unfold promoteStagingToProd.
  rewrite (then_resolved _ _ _ _ _ (_getProperty_qualified _ w o _ Hq)).
  destruct (truthy (member w o "stagingVersion")) eqn:Hstaging; [|done].
  destruct Hcase as [?|Heq]; [done|]. cbn [negb].
  by rewrite bool_decide_eq_true_2.
Qed.

(** When the production version of the record differs from its staging
    version, what [promoteStagingToProd] activates on production is not the
    staging version: the version of the request is [latestVersion], and once
    the request is accepted [productionVersion] is [latestVersion] too, the
    engine then polling as [activate] does.  (The constants are taken
    distinct, [LATEST_VERSION.LATEST] being zero or negative.) *)
Theorem promotion_activates_the_latest_version
    w o notes email r id rest out w' :
  (LATEST_VERSION_LATEST <= 0)%Z →
  LATEST_VERSION_LATEST ≠ LATEST_VERSION_PRODUCTION →
  LATEST_VERSION_LATEST ≠ LATEST_VERSION_STAGING →
  AKAMAI_ENV_PRODUCTION ≠ AKAMAI_ENV_STAGING →
  qualified_in w o →
  truthy (member w o "stagingVersion") = true →
  member w o "productionVersion" ≠ member w o "stagingVersion" →
  script w = Some r :: rest →
  accepts r id →
  promoteStagingToProd LATEST_VERSION_STAGING LATEST_VERSION_PRODUCTION
    LATEST_VERSION_LATEST AKAMAI_ENV_STAGING AKAMAI_ENV_PRODUCTION
    (LObj o) notes email w
  = (out, w') →
  let w1 :=
    set_member o "productionVersion" (member w o "latestVersion")
      (answered w (activation_request w o (member w o "latestVersion")
                     (VStr AKAMAI_ENV_PRODUCTION) notes (as_array email) []) rest) in
  (_pollActivation LATEST_VERSION_STAGING (LObj o) id
   .then (λ b, resolve (VBool b))) w1 = (out, w')
  ∧ member w' o "productionVersion" = member w o "latestVersion".
Proof.
  intros Hle Hprod Hstag Henv Hq Hstaging Hne Hscript Hid Hrun w1.
  unfold promoteStagingToProd in Hrun.
  rewrite (then_caught _ _ _ _ _ (_getProperty_qualified _ w o _ Hq)) in Hrun.
  rewrite Hstaging, bool_decide_eq_false_2 in Hrun by done. cbn [negb] in Hrun.
  rewrite (activate_accepted _ _ _ _ _ _ _ _ _ _ Hq Hscript Hid) in Hrun.
  cbv zeta in Hrun.
  rewrite decide_False in Hrun by done.
  assert ((if (LATEST_VERSION_LATEST <=? 0)%Z
           then _getLatestVersion LATEST_VERSION_STAGING LATEST_VERSION_PRODUCTION
                  LATEST_VERSION_LATEST w o LATEST_VERSION_LATEST
           else VNum LATEST_VERSION_LATEST) = member w o "latestVersion") as Hversion.
  { apply Z.leb_le in Hle. rewrite Hle. unfold _getLatestVersion.
    apply Z.eqb_neq in Hprod, Hstag. by rewrite Hprod, Hstag, Z.eqb_refl. }
  rewrite Hversion in Hrun. fold w1 in Hrun.
  assert (qualified_in w1 o) as Hq1.
  { apply qualified_in_set_member; [done..|]. by eapply qualified_in_heap. }
  rewrite polled_caught in Hrun by done.
  split; [done|]. apply polled_heap in Hrun.
  unfold member at 1. rewrite Hrun. apply member_set_member_eq.
Qed.

End WithConstants.

(** *** The statements above, at sample worlds *)

Import EngineMoreExamples.

Lemma listed_group_decides_the_contract_witness :
  _getContractAndGroup (Some groups) (Some "ctr_Z") (Some "grp_1")
  = Resolved (Some "ctr_D", Some "grp_1").
Proof.
  apply (listed_group_decides_the_contract
           [GroupItem "grp_1" (Some ["ctr_A"; "ctr_B"]); GroupItem "grp_2" (Some ["ctr_C"])]
           (GroupItem "grp_1" (Some ["ctr_D"])) [] (Some "ctr_Z") ["ctr_D"]).
  - repeat constructor; intros _; by eexists.
  - reflexivity.
  - constructor.
Defined.

Lemma unlisted_group_needs_both_ids_witness :
  _getContractAndGroup (Some groups) (Some "Z") (Some "grp_3")
  = (if given (Some "grp_3") && given (Some "Z")
     then Resolved (with_ctr (Some "Z"), Some "grp_3")
     else Rejected (Value (VStr "Group/Contract combination doesn't exist")))
  ∧ ∀ c, Some "Z" = Some c → c ≠ "" →
      ∃ c', with_ctr (Some "Z") = Some c'
            ∧ includes c' "ctr_" = true
            ∧ (includes c "ctr_" = true → c' = c).
Proof.
  apply (unlisted_group_needs_both_ids groups (Some "Z") (Some "grp_3")).
  repeat constructor; discriminate.
Defined.

Lemma unknown_key_is_rejected_witness :
  _getProperty STAGING_VERSION (LStr "prp_9") STAGING_VERSION
    (world_with [] (replicate 3 (Some (search_response []))))
  = (Rejected (Value (VStr ("Cannot find property:  " +:+ sanitize "prp_9"))),
     set_script []
       (set_sent (sent (world_with [] (replicate 3 (Some (search_response []))))
                  ++ [search_request "propertyName" (sanitize "prp_9");
                      search_request "hostname" (sanitize "prp_9");
                      search_request "edgeHostname" (sanitize "prp_9")])
          (world_with [] (replicate 3 (Some (search_response []))))))
  ∧ _getProperty STAGING_VERSION (LStr "a host") STAGING_VERSION (world_with [] [])
    = (Rejected (Value (VStr ("Cannot find property:  " +:+ sanitize "a host"))),
       world_with [] []).
Proof.
  split.
  - apply (proj2 (unknown_key_is_rejected STAGING_VERSION
                    (world_with [] (replicate 3 (Some (search_response []))))
                    "prp_9" STAGING_VERSION eq_refl eq_refl)
             eq_refl (search_response []) (search_response []) (search_response []) []
             (search_body []) (search_body []) (search_body []));
      try reflexivity; split; reflexivity.
  - apply (proj1 (unknown_key_is_rejected STAGING_VERSION (world_with [] []) "a host"
                    STAGING_VERSION eq_refl eq_refl)).
    reflexivity.
Defined.

Lemma found_property_is_cached_witness :
  ∃ w',
    _getProperty STAGING_VERSION (LStr "prp_2") STAGING_VERSION
      (world_with [] [Some (search_response [hit]); Some metadata_response])
    = (Resolved (Own 3), w')
    ∧ heap w' !! Own 3 = Some second_property
    ∧ sent w' = [search_request "propertyName" "prp_2"; metadata_request hit]
    ∧ script w' = []
    ∧ ∀ id env,
        id = to_string (default VUndefined (second_property !! "propertyId")) →
        sanitize id = id →
        _getProperty STAGING_VERSION (LStr id) env w' = (Resolved (Own 3), w').
Proof.
  apply (found_property_is_cached STAGING_VERSION
           (world_with [] [Some (search_response [hit]); Some metadata_response])
           "prp_2" STAGING_VERSION (search_response [hit]) metadata_response []
           (search_body [hit]) metadata_body hit [] second_property []);
    try reflexivity; split; reflexivity.
Defined.

Lemma latest_format_is_the_greatest_v2_witness :
  ∃ v,
    retrieveFormats_latest (fresh_world [Some formats_response])
    = (Resolved v, answered (fresh_world [Some formats_response]) formats_request [])
    ∧ match v with
      | VStr f =>
          f ∈ formats ∧ includes f "v2" = true
          ∧ ∀ g, g ∈ formats → includes g "v2" = true → String.leb g f = true
      | VUndefined => ∀ g, g ∈ formats → includes g "v2" = false
      | _ => False
      end.
Proof.
  apply (latest_format_is_the_greatest_v2 (fresh_world [Some formats_response])
           formats_response [] formats_body formats);
    try reflexivity; split; reflexivity.
Defined.

Lemma _init_fetches_formats_while_the_cache_is_empty_witness :
  ∃ w',
    _init (fresh_world [Some formats_response]) = (Resolved tt, w')
    ∧ w' = set_newestRulesFormat (latest_format formats)
             (answered (fresh_world [Some formats_response]) formats_request [])
    ∧ _initComplete w' = false.
Proof.
  apply (proj2 (_init_fetches_formats_while_the_cache_is_empty
                  (fresh_world [Some formats_response]) eq_refl)
           eq_refl formats_response [] formats_body formats);
    try reflexivity; split; reflexivity.
Defined.

Lemma every_set_of_warnings_is_acknowledged_witness :
  ∃ w',
    _activateProperty STAGING_VERSION (LObj (Own 1)) (VNum 3) (VStr "STAGING") ""
      test_email [] (world_with [] two_warning_sets)
    = (Resolved "atv_1", w')
    ∧ sent w'
      = sent (world_with [] two_warning_sets)
        ++ (activation_request (world_with [] two_warning_sets) (Own 1) (VNum 3)
              (VStr "STAGING") "" test_email
              <$> [] :: (message_ids
                           <$> [ [Warning (VStr "a warning") (VStr "w1");
                                  Warning (VStr "a warning") (VStr "w2")];
                                 [Warning (VStr "a warning") (VStr "w3")] ]))
    ∧ script w' = [].
Proof.
  apply (every_set_of_warnings_is_acknowledged STAGING_VERSION
           (world_with [] two_warning_sets) (Own 1) (VNum 3) (VStr "STAGING") ""
           test_email []
           [warnings_response ["w1"; "w2"]; warnings_response ["w3"]]
           [ [Warning (VStr "a warning") (VStr "w1");
              Warning (VStr "a warning") (VStr "w2")];
             [Warning (VStr "a warning") (VStr "w3")] ]
           accepted_response "atv_1" []).
  - repeat split; reflexivity.
  - constructor; [by exists (warnings_body ["w1"; "w2"])|].
    constructor; [by exists (warnings_body ["w3"])|]. constructor.
  - exists accepted_body. repeat split; reflexivity.
  - reflexivity.
Defined.

Lemma polling_lasts_as_long_as_an_item_is_not_active_witness :
  ∃ w',
    _pollActivation STAGING_VERSION (LObj (Own 1)) "atv_1"
      (world_with [] [Some (status_response ["ACTIVE"; "PENDING"]);
                      Some error_500_response;
                      Some (status_response ["ACTIVE"; "ACTIVE"])])
    = (Resolved true, w')
    ∧ sent w' = replicate 3 (status_request (world_with [] []) (Own 1) "atv_1")
    ∧ clock w' = 60000%Z
    ∧ script w' = [].
Proof.
  apply (polling_lasts_as_long_as_an_item_is_not_active STAGING_VERSION
           (world_with [] [Some (status_response ["ACTIVE"; "PENDING"]);
                           Some error_500_response;
                           Some (status_response ["ACTIVE"; "ACTIVE"])])
           (Own 1) "atv_1"
           [status_response ["ACTIVE"; "PENDING"]; error_500_response]
           (status_response ["ACTIVE"; "ACTIVE"]) []).
  - repeat split; reflexivity.
  - constructor; [|constructor; [|constructor]].
    + exists (status_body ["ACTIVE"; "PENDING"]), [VStr "ACTIVE"; VStr "PENDING"].
      split_and!; [reflexivity..|]. exists (VStr "PENDING").
      split; [compute_done|discriminate].
    + exists pending_body, [VStr "PENDING"].
      split_and!; [reflexivity..|]. exists (VStr "PENDING").
      split; [compute_done|discriminate].
  - exists (status_body ["ACTIVE"; "ACTIVE"]), [VStr "ACTIVE"; VStr "ACTIVE"].
    split_and!; [reflexivity|reflexivity|discriminate|].
    apply Forall_forall. repeat constructor.
  - reflexivity.
Defined.

(** The engine of [versioned_world] after the activation of version 4 on
    production has been accepted. *)
Lemma activate_records_the_version_witness :
  let w1 :=
    set_member (Own 1) "productionVersion" (VNum 4)
      (answered (versioned_world [Some accepted_response])
         (activation_request (versioned_world []) (Own 1) (VNum 4)
            (VStr "PRODUCTION") "" test_email []) []) in
  member w1 (Own 1) "productionVersion" = VNum 4
  ∧ (false = false → Resolved (VStr "atv_1") = Resolved (VStr "atv_1") ∧ w1 = w1)
  ∧ (false = true →
     (_pollActivation STAGING_VERSION (LObj (Own 1)) "atv_1"
      .then (λ b, resolve (VBool b))) w1 = (Resolved (VStr "atv_1"), w1)).
Proof.
  intros w1.
  apply (activate_records_the_version
           STAGING_VERSION PRODUCTION_VERSION LATEST STAGING
           (versioned_world [Some accepted_response]) (Own 1) 0 "PRODUCTION" ""
           (Addresses test_email) false accepted_response "atv_1" []
           (Resolved (VStr "atv_1")) w1).
  - repeat split; reflexivity.
  - reflexivity.
  - exists accepted_body. repeat split; reflexivity.
  - vm_compute. reflexivity.
Defined.

Lemma deactivate_clears_the_version_witness :
  let w1 :=
    set_member (Own 1) "stagingVersion" VNull
      (answered (versioned_world [Some accepted_response])
         (Request "POST" (activations_path (versioned_world []) (Own 1))
            (DeactivationData (VNum 3) (VStr "STAGING") test_email)) []) in
  member w1 (Own 1) "stagingVersion" = VNull
  ∧ (false = false → Resolved (VStr "atv_1") = Resolved (VStr "atv_1") ∧ w1 = w1)
  ∧ (false = true →
     (_pollActivation STAGING_VERSION (LObj (Own 1)) "atv_1"
      .then (λ b, resolve (VBool b))) w1 = (Resolved (VStr "atv_1"), w1)).
Proof.
  intros w1.
  apply (deactivate_clears_the_version
           STAGING_VERSION PRODUCTION_VERSION LATEST STAGING
           (versioned_world [Some accepted_response]) (Own 1) "STAGING" ""
           (Addresses test_email) false accepted_response accepted_body "atv_1" []
           (Resolved (VStr "atv_1")) w1).
  - discriminate.
  - repeat split; reflexivity.
  - reflexivity.
  - split; reflexivity.
  - reflexivity.
  - vm_compute. reflexivity.
Defined.

Lemma without_a_response_witness :
  _activateProperty STAGING_VERSION (LObj (Own 1)) (VNum 3) (VStr "STAGING") ""
    test_email [] (world_with [] [None])
  = (Uncaught TypeError,
     answered (world_with [] [None])
       (activation_request (world_with [] [None]) (Own 1) (VNum 3) (VStr "STAGING") ""
          test_email []) [])
  ∧ _pollActivation STAGING_VERSION (LObj (Own 1)) "atv_1" (world_with [] [None])
    = (Uncaught TypeError,
       answered (world_with [] [None])
         (status_request (world_with [] [None]) (Own 1) "atv_1") [])
  ∧ _deactivateProperty STAGING_VERSION (LObj (Own 1)) (VNum 3) (VStr "STAGING") ""
      test_email (world_with [] [None])
    = (Rejected (Value VUndefined),
       answered (world_with [] [None])
         (Request "POST" (activations_path (world_with [] [None]) (Own 1))
            (DeactivationData (VNum 3) (VStr "STAGING") test_email)) []).
Proof.
  apply (without_a_response STAGING_VERSION (world_with [] [None]) (Own 1) (VNum 3)
           (VStr "STAGING") "" test_email [] "atv_1" []).
  - repeat split; reflexivity.
  - reflexivity.
Defined.

Lemma host_name_resolves_by_environment_witness :
  lookupPropertyIdFromHost STAGING_VERSION (LStr "www.example.com") PRODUCTION_VERSION
    (versioned_world [])
  = (Resolved (if decide (PRODUCTION_VERSION = STAGING_VERSION) then Own 1 else Own 2),
     versioned_world []).
Proof.
  apply (host_name_resolves_by_environment STAGING_VERSION (versioned_world [])
           "www.example.com" PRODUCTION_VERSION (Own 1) (Own 2)); reflexivity.
Defined.

Lemma promotion_without_work_resolves_to_undefined_witness :
  promoteStagingToProd STAGING_VERSION PRODUCTION_VERSION LATEST STAGING PRODUCTION
    (LObj (Own 1)) "" (Addresses test_email) (world_with [] [])
  = (Resolved VUndefined, world_with [] []).
Proof.
  apply (promotion_without_work_resolves_to_undefined
           STAGING_VERSION PRODUCTION_VERSION LATEST STAGING PRODUCTION
           (world_with [] []) (Own 1) "" (Addresses test_email)).
  - repeat split; reflexivity.
  - left. reflexivity.
Defined.

Lemma promotion_activates_the_latest_version_witness :
  let w1 :=
    set_member (Own 1) "productionVersion" (VNum 4)
      (answered (versioned_world [Some accepted_response;
                                  Some (status_response ["ACTIVE"])])
         (activation_request (versioned_world []) (Own 1) (VNum 4)
            (VStr PRODUCTION) "" test_email [])
         [Some (status_response ["ACTIVE"])]) in
  let w2 := answered w1 (status_request w1 (Own 1) "atv_1") [] in
  (_pollActivation STAGING_VERSION (LObj (Own 1)) "atv_1"
   .then (λ b, resolve (VBool b))) w1 = (Resolved (VBool true), w2)
  ∧ member w2 (Own 1) "productionVersion"
    = member (versioned_world [Some accepted_response;
                               Some (status_response ["ACTIVE"])])
             (Own 1) "latestVersion".
Proof.
  intros w1 w2.
  apply (promotion_activates_the_latest_version
           STAGING_VERSION PRODUCTION_VERSION LATEST STAGING PRODUCTION
           (versioned_world [Some accepted_response; Some (status_response ["ACTIVE"])])
           (Own 1) "" (Addresses test_email) accepted_response "atv_1"
           [Some (status_response ["ACTIVE"])] (Resolved (VBool true)) w2).
  - reflexivity.
  - discriminate.
  - discriminate.
  - discriminate.
  - repeat split; reflexivity.
  - reflexivity.
  - discriminate.
  - reflexivity.
  - exists accepted_body. repeat split; reflexivity.
  - vm_compute. reflexivity.
Defined.

Lemma failed_lookup_requests_witness :
  _getProperty STAGING_VERSION (LStr "prp_2") STAGING_VERSION
    (world_with [] [Some not_found_response])
  = (Rejected (OfResponse (Some not_found_response)),
     answered (world_with [] [Some not_found_response])
       (search_request "propertyName" (sanitize "prp_2")) [])
  ∧ _getProperty STAGING_VERSION (LStr "prp_2") STAGING_VERSION
      (world_with [] [Some (search_response [hit]); Some not_found_response])
    = (Pending,
       answered
         (answered (world_with [] [Some (search_response [hit]); Some not_found_response])
            (search_request "propertyName" (sanitize "prp_2"))
            [Some not_found_response])
         (metadata_request hit) []).
Proof.
  split.
  - apply (proj1 (failed_lookup_requests STAGING_VERSION
                    (world_with [] [Some not_found_response]) "prp_2" STAGING_VERSION
                    eq_refl eq_refl eq_refl)); reflexivity.
  - apply (proj2 (failed_lookup_requests STAGING_VERSION
                    (world_with [] [Some (search_response [hit]);
                                    Some not_found_response])
                    "prp_2" STAGING_VERSION eq_refl eq_refl eq_refl)
             (search_response [hit]) (search_body [hit]) hit []
             (Some not_found_response) []); try reflexivity.
    split; reflexivity.
Defined.

Lemma unanswered_group_list_is_never_settled_witness :
  _getGroupList (fresh_world [None; Some formats_response])
  = (Pending,
     set_script []
       (set_sent (sent (fresh_world [None; Some formats_response])
                  ++ [groups_request; groups_request])
          (fresh_world [None; Some formats_response]))).
Proof.
  apply (unanswered_group_list_is_never_settled
           (fresh_world [None; Some formats_response]) (Some formats_response) []).
  reflexivity.
Defined.

End EngineExtras.
